(** * Class-balanced image-classifier training script

    A shallow embedding of [CNN_10k_pyotorch_single_GPU_oneCLR_ETH_Zurich_Seg.py]:
    the sample catalog ([CustomImageFolder]), the balanced index sampler
    ([get_data_loaders]) and the epoch loop with best-checkpoint selection
    ([train_model], [main]), followed by the properties of the written
    specification that were checked against them.

    Conventions.
    - Python [float] is IEEE binary64, embedded as Rocq's primitive [float].
    - Python [str] is embedded as [string]; the names that matter here
      (extensions, separators) are ASCII.
    - A raised exception is the [Raise] case of [result]; only the exception
      class is kept.
    - numpy's and torch's pseudo-random generators are embedded as the sequence
      of raw numbers they deliver ([rng]); every statement about a run
      quantifies over all such sequences. *)

From Stdlib Require Import ZArith Floats Ascii.
From stdpp Require Import base list strings gmap sorting.

Set Warnings "-register-all".

(** ** Python results *)

Inductive py_error : Type :=
  | ValueError
  | IndexError
  | ZeroDivisionError
  | OSError.

Inductive result (A : Type) : Type :=
  | Ok (a : A)
  | Raise (e : py_error).
Arguments Ok {A} a.
Arguments Raise {A} e.

Global Instance result_ret : MRet result := λ A a, Ok a.
Global Instance result_bind : MBind result := λ A B f r,
  match r with Ok a => f a | Raise e => Raise e end.
Global Instance result_fmap : FMap result := λ A B f r,
  match r with Ok a => Ok (f a) | Raise e => Raise e end.

(** ** Strings and paths *)

(** [str.endswith]. *)
Definition endswith (s suffix : string) : bool :=
  bool_decide (String.list_ascii_of_string suffix
                 `suffix_of` String.list_ascii_of_string s).

(** [str.lower] on the ASCII range. *)
Definition ascii_lower (c : ascii) : ascii :=
  let n := nat_of_ascii c in
  if (65 <=? n) && (n <=? 90) then ascii_of_nat (n + 32) else c.

Fixpoint lower (s : string) : string :=
  match s with
  | EmptyString => EmptyString
  | String c s' => String (ascii_lower c) (lower s')
  end.

(** [os.path.join] for two components (posixpath). *)
Definition path_join (a b : string) : string :=
  if String.prefix "/" b then b
  else if bool_decide (a = "") || endswith a "/" then a +:+ b
  else a +:+ "/" +:+ b.

(** ** The directory tree read by the catalog

    Symbolic links are not modelled: every directory entry is a regular file
    or a directory whose listing is the order in which [os.scandir] yields
    its entries. *)

Inductive fs_entry : Type :=
  | File (name : string)
  | Dir (name : string) (children : list fs_entry).

Definition entry_name (e : fs_entry) : string :=
  match e with File n => n | Dir n _ => n end.

(** [[d.name for d in os.scandir(dir) if d.is_dir()]] *)
Definition scandir_dirs (es : list fs_entry) : list string :=
  omap (λ e, match e with Dir n _ => Some n | File _ => None end) es.

Definition scandir_files (es : list fs_entry) : list string :=
  omap (λ e, match e with File n => Some n | Dir _ _ => None end) es.

(** [os.path.isdir(os.path.join(dir, name))], returning the listing of the
    directory found. *)
Definition lookup_dir (name : string) (es : list fs_entry)
  : option (list fs_entry) :=
  match list_find (λ e, entry_name e = name) es with
  | Some (_, Dir _ cs) => Some cs
  | _ => None
  end.

(** One item of [os.walk]: [(root, dirs, files)]. *)
Definition walk_item : Type := string * list string * list string.

(** [os.walk], top-down, entered through an entry of the parent listing. *)
Fixpoint walk_entry (parent : string) (e : fs_entry) : list walk_item :=
  match e with
  | File _ => []
  | Dir n cs =>
      let top := path_join parent n in
      (top, scandir_dirs cs, scandir_files cs) ::
      (fix subdirs (es : list fs_entry) : list walk_item :=
         match es with
         | [] => []
         | e' :: es' => walk_entry top e' ++ subdirs es'
         end) cs
  end.

(** [os.walk(top)] for a directory [top] with listing [cs]. *)
Definition walk (top : string) (cs : list fs_entry) : list walk_item :=
  (top, scandir_dirs cs, scandir_files cs) :: flat_map (walk_entry top) cs.

(** Python's order on lists of strings and on the tuples yielded by
    [os.walk]: the first differing component decides. *)
Fixpoint list_string_leb (l1 l2 : list string) : bool :=
  match l1, l2 with
  | [], _ => true
  | _ :: _, [] => false
  | x :: l1', y :: l2' =>
      if bool_decide (x = y) then list_string_leb l1' l2' else String.leb x y
  end.

Definition walk_item_leb (x y : walk_item) : bool :=
  let '(r1, d1, f1) := x in
  let '(r2, d2, f2) := y in
  if bool_decide (r1 = r2) then
    if bool_decide (d1 = d2) then list_string_leb f1 f2
    else list_string_leb d1 d2
  else String.leb r1 r2.

Definition walk_item_le (x y : walk_item) : Prop := walk_item_leb x y.

Global Instance walk_item_le_dec : RelDecision walk_item_le.
Proof. intros x y. unfold walk_item_le. apply _. Defined.

(** [sorted(...)] on strings and on walk items. *)
Definition sorted_str (l : list string) : list string :=
  merge_sort (≤)%string l.

Definition sorted_walk (l : list walk_item) : list walk_item :=
  merge_sort walk_item_le l.

(** ** [CustomImageFolder] *)

Definition extensions : list string :=
  [".jpg"; ".jpeg"; ".png"; ".bmp"; ".gif"].

Definition _is_image_file (filename : string) : bool :=
  existsb (λ ext, endswith (lower filename) ext) extensions.

(** [{cls_name: i for i, cls_name in enumerate(classes)}]: a later binding
    of the same key replaces an earlier one. *)
Definition enumerate_dict (classes : list string) : gmap string nat :=
  foldl (λ (m : gmap string nat) '(i, c), <[c := i]> m) ∅
        (imap (λ i c, (i, c)) classes).

Definition _find_classes (es : list fs_entry)
  : list string * gmap string nat :=
  let classes := sorted_str (scandir_dirs es) in
  (classes, enumerate_dict classes).

(** The entries contributed by one item of the walk. *)
Definition walk_item_samples (class_index : nat) (it : walk_item)
  : list (string * nat) :=
  let '(root, _, fnames) := it in
  omap (λ fname,
          let path := path_join root fname in
          if _is_image_file path then Some (path, class_index) else None)
       (sorted_str fnames).

(** The body of the loop over [target_class]. *)
Definition class_samples (dir : string) (es : list fs_entry)
    (class_to_idx : gmap string nat) (target_class : string)
  : list (string * nat) :=
  match class_to_idx !! target_class with
  | None => []
  | Some class_index =>
      let target_dir := path_join dir target_class in
      match lookup_dir target_class es with
      | None => []
      | Some cs =>
          flat_map (walk_item_samples class_index)
                   (sorted_walk (walk target_dir cs))
      end
  end.

Definition _make_dataset (dir : string) (es : list fs_entry)
    (class_to_idx : gmap string nat) : list (string * nat) :=
  flat_map (class_samples dir es class_to_idx)
           (sorted_str (map_to_list class_to_idx).*1).

Record dataset : Type := {
  root : string;
  classes : list string;
  class_to_idx : gmap string nat;
  samples : list (string * nat)
}.

(** [CustomImageFolder(root)]; [listing] is what [os.scandir(root)] yields,
    [None] when [root] is not a readable directory. *)
Definition CustomImageFolder (dir : string) (listing : option (list fs_entry))
  : result dataset :=
  match listing with
  | None => Raise OSError
  | Some es =>
      let '(cls, c2i) := _find_classes es in
      Ok {| root := dir; classes := cls; class_to_idx := c2i;
            samples := _make_dataset dir es c2i |}
  end.

(** [len(dataset)] *)
Definition __len__ (ds : dataset) : nat := length (samples ds).

(** [self.samples[index]] of [__getitem__]. *)
Definition __getitem__ (ds : dataset) (index : nat) : result (string * nat) :=
  match samples ds !! index with
  | Some item => Ok item
  | None => Raise IndexError
  end.

(** ** Numbers

    [float(n)] for a length or a count, and [int(x)] (truncation toward
    zero) for a finite float. Lengths here stay far below [2^53], where the
    conversion is exact. *)

Definition float_of_nat (n : nat) : float :=
  PrimFloat.of_uint63 (Uint63.of_Z (Z.of_nat n)).

Definition py_int (x : float) : Z :=
  match Prim2SF x with
  | S754_finite s m e =>
      let a := if (0 <=? e)%Z then Z.shiftl (Z.pos m) e
               else Z.shiftr (Z.pos m) (- e) in
      if s then (- a)%Z else a
  | _ => 0%Z
  end.

(** The literal [0.8]: the binary64 value nearest to 4/5. *)
Definition split_fraction : float := 0x1.999999999999ap-1%float.

(** ** Pseudo-random generators

    A generator is the sequence of raw numbers it will deliver and the
    position reached in it. A bounded draw reduces the next raw number
    modulo the bound, so every sequence of bounded draws is produced by some
    generator. *)

Record rng : Type := { stream : nat → nat; cursor : nat }.

(** One bounded draw: an integer in [[0, bound)]. *)
Definition rand_below (bound : nat) (g : rng) : nat * rng :=
  (stream g (cursor g) `mod` bound,
   {| stream := stream g; cursor := S (cursor g) |}).

(** [x[i], x[j] = x[j], x[i]] *)
Definition swap {A} (x : list A) (i j : nat) : list A :=
  match x !! i, x !! j with
  | Some a, Some b => <[j := a]> (<[i := b]> x)
  | _, _ => x
  end.

(** [shuffle]: for [i] from [n - 1] down to [1], draw [j] in [[0, i]] and
    exchange positions [i] and [j]. *)
Fixpoint shuffle_loop {A} (i : nat) (x : list A) (g : rng) : list A * rng :=
  match i with
  | 0 => (x, g)
  | S i' =>
      let '(j, g') := rand_below (S i) g in
      shuffle_loop i' (swap x i j) g'
  end.

Definition shuffle {A} (x : list A) (g : rng) : list A * rng :=
  shuffle_loop (length x - 1) x g.

(** [permutation(n)]: a shuffled [arange(n)]. *)
Definition permutation (n : nat) (g : rng) : list nat * rng :=
  shuffle (seq 0 n) g.

(** [randint(0, high, size)] *)
Fixpoint randint (high size : nat) (g : rng) : list nat * rng :=
  match size with
  | 0 => ([], g)
  | S size' =>
      let '(r, g1) := rand_below high g in
      let '(rs, g2) := randint high size' g1 in
      (r :: rs, g2)
  end.

(** [a[idx]] for an index array [idx]. *)
Definition take_at (a idx : list nat) : result (list nat) :=
  match mapM (λ i, a !! i) idx with
  | Some l => Ok l
  | None => Raise IndexError
  end.

(** [np.random.choice(a, size, replace=...)] with uniform weights: an empty
    population is refused unless no sample is taken; with replacement the
    positions come from [randint(0, pop_size, size)], without replacement
    from the first [size] elements of [permutation(pop_size)], which refuses
    a sample larger than the population. *)
Definition choice (a : list nat) (size : nat) (replace : bool) (g : rng)
  : result (list nat * rng) :=
  let pop_size := length a in
  if (pop_size =? 0) && negb (size =? 0) then Raise ValueError
  else if replace then
    if pop_size =? 0 then Raise ValueError
    else
      let '(idx, g') := randint pop_size size g in
      r ← take_at a idx; Ok (r, g')
  else
    if pop_size <? size then Raise ValueError
    else
      let '(p, g') := permutation pop_size g in
      r ← take_at a (take size p); Ok (r, g').

(** ** [get_data_loaders] *)

(** [np.where(np.array(labels) == class_idx)[0]] *)
Definition np_where_eq (labels : list nat) (class_idx : nat) : list nat :=
  filter (λ i, labels !! i = Some class_idx) (seq 0 (length labels)).

Definition labels_of (ds : dataset) : list nat := (samples ds).*2.

(** The per-class summary: [dataset.classes[class_idx]] is read for every
    [class_idx] below [len(np.bincount(labels))]. *)
Definition print_class_counts (cls : list string) (labels : list nat)
  : result unit :=
  if bool_decide (Forall (λ l, l < length cls) labels) then Ok ()
  else Raise IndexError.

Record DataLoader : Type := {
  dl_dataset : dataset;
  dl_batch_size : nat;
  dl_sampler : list nat
}.

(** [DataLoader(dataset, batch_size=..., sampler=SubsetRandomSampler(idx))] *)
Definition mk_loader (ds : dataset) (batch_size : nat) (idx : list nat)
  : result DataLoader :=
  if batch_size =? 0 then Raise ValueError
  else Ok {| dl_dataset := ds; dl_batch_size := batch_size;
             dl_sampler := idx |}.

(** The body of the loop over [class_idx]. *)
Definition sample_class (ds : dataset) (num_img_per_class class_idx : nat)
    (g : rng) : result (list nat * rng) :=
  let class_indices := np_where_eq (labels_of ds) class_idx in
  if length class_indices <? num_img_per_class
  then choice class_indices num_img_per_class true g
  else choice class_indices num_img_per_class false g.

Fixpoint balanced_loop (ds : dataset) (num_img_per_class : nat)
    (class_idxs : list nat) (indices : list nat) (g : rng)
  : result (list nat * rng) :=
  match class_idxs with
  | [] => Ok (indices, g)
  | class_idx :: rest =>
      '(class_indices, g') ← sample_class ds num_img_per_class class_idx g;
      balanced_loop ds num_img_per_class rest (indices ++ class_indices) g'
  end.

(** The pool before shuffling. *)
Definition balanced_indices (ds : dataset) (num_img_per_class : nat) (g : rng)
  : result (list nat * rng) :=
  balanced_loop ds num_img_per_class (seq 0 (length (classes ds))) [] g.

(** [int(0.8 * len(indices))] *)
Definition split_point (n : nat) : nat :=
  Z.to_nat (py_int (split_fraction * float_of_nat n)%float).

(** Everything after the construction of the dataset. *)
Definition loaders_of (ds : dataset) (batch_size num_img_per_class : nat)
    (g : rng) : result (DataLoader * DataLoader * rng) :=
  _ ← print_class_counts (classes ds) (labels_of ds);
  '(indices, g1) ← balanced_indices ds num_img_per_class g;
  let '(indices, g2) := shuffle indices g1 in
  let split := split_point (length indices) in
  let train_indices := take split indices in
  let val_indices := drop split indices in
  train_loader ← mk_loader ds batch_size train_indices;
  val_loader ← mk_loader ds batch_size val_indices;
  sampled ← mapM (λ idx, snd <$> __getitem__ ds idx) indices;
  _ ← print_class_counts (classes ds) sampled;
  Ok (train_loader, val_loader, g2).

Definition get_data_loaders (data_dir : string)
    (listing : option (list fs_entry)) (batch_size num_img_per_class : nat)
    (g : rng) : result (DataLoader * DataLoader * rng) :=
  ds ← CustomImageFolder data_dir listing;
  loaders_of ds batch_size num_img_per_class g.

(** ** The batch provider

    [SubsetRandomSampler] yields its indices in a fresh random order on every
    pass; [BatchSampler] groups them, the last batch possibly shorter. *)

Fixpoint batch_sampler (batch_size : nat) (batch idxs : list nat)
  : list (list nat) :=
  match idxs with
  | [] => if bool_decide (0 < length batch) then [batch] else []
  | idx :: rest =>
      let batch' := batch ++ [idx] in
      if length batch' =? batch_size
      then batch' :: batch_sampler batch_size [] rest
      else batch_sampler batch_size batch' rest
  end.

Definition loader_iter (dl : DataLoader) (g : rng) : list (list nat) * rng :=
  let '(order, g') := shuffle (dl_sampler dl) g in
  (batch_sampler (dl_batch_size dl) [] order, g').

(** [len(loader)] *)
Definition loader_len (dl : DataLoader) : nat :=
  (length (dl_sampler dl) + dl_batch_size dl - 1) / dl_batch_size dl.

(** Collating one batch calls [dataset[idx]] for each of its indices. *)
Definition fetch (ds : dataset) (idxs : list nat)
  : result (list (string * nat)) :=
  mapM (__getitem__ ds) idxs.

(** ** The opaque collaborators

    [M] is the joint mutable state of model, optimizer and scheduler, [W] a
    parameter snapshot ([state_dict]). [forward] stands for the forward
    pass, the criterion and the arg-max: it returns [loss.item()] and
    [torch.sum(preds == labels.data).item()]. *)

Record collaborators (M W : Type) : Type := {
  state_dict : M → W;
  load_state_dict : M → W → M;
  model_train : M → M;
  model_eval : M → M;
  zero_grad : M → M;
  forward : bool → M → list (string * nat) → M * float * nat;
  backward : M → M;
  optimizer_step : M → M;
  scheduler_step : M → M;
  get_last_lr : M → float
}.
Arguments state_dict {M W} _ _.
Arguments load_state_dict {M W} _ _ _.
Arguments model_train {M W} _ _.
Arguments model_eval {M W} _ _.
Arguments zero_grad {M W} _ _.
Arguments forward {M W} _ _ _ _.
Arguments backward {M W} _ _.
Arguments optimizer_step {M W} _ _.
Arguments scheduler_step {M W} _ _.
Arguments get_last_lr {M W} _ _.

(** ** The trace of a run: every call on a collaborator, in program order *)

Inductive checkpoint_file : Type :=
  | BestModel (epoch : nat) (loss : float)
  | FinalModel.

Inductive event (W : Type) : Type :=
  | OneCycleLR (epochs steps_per_epoch : nat)
  | ModelTrain
  | ModelEval
  | ZeroGrad
  | Forward (grad_enabled : bool) (batch : list (string * nat))
  | Backward
  | OptimizerStep
  | SchedulerStep
  | AddScalar (tag : string) (value : float) (step : nat)
  | TorchSave (file : checkpoint_file) (w : W)
  | LoadStateDict (w : W).
Arguments OneCycleLR {W} _ _.
Arguments ModelTrain {W}.
Arguments ModelEval {W}.
Arguments ZeroGrad {W}.
Arguments Forward {W} _ _.
Arguments Backward {W}.
Arguments OptimizerStep {W}.
Arguments SchedulerStep {W}.
Arguments AddScalar {W} _ _ _.
Arguments TorchSave {W} _ _.
Arguments LoadStateDict {W} _.

(** A loop whose body may raise and reports the events it caused. *)
Fixpoint run_loop {S X E : Type} (body : S → X → result (S * list E))
    (s : S) (xs : list X) : result (S * list E) :=
  match xs with
  | [] => Ok (s, [])
  | x :: xs' =>
      '(s1, e1) ← body s x;
      '(s2, e2) ← run_loop body s1 xs';
      Ok (s2, e1 ++ e2)
  end.

(** [x / n] for a float [x] and an int [n]; [a / b] for two ints. *)
Definition float_div_int (x : float) (n : nat) : result float :=
  if n =? 0 then Raise ZeroDivisionError else Ok (x / float_of_nat n)%float.

Definition int_div_int (a b : nat) : result float :=
  if b =? 0 then Raise ZeroDivisionError
  else Ok (float_of_nat a / float_of_nat b)%float.

(** ** [train_model] *)

Section Training.
Context {M W : Type} (ops : collaborators M W).

(** Running totals of one phase: model state, loss sum, correct count. *)
Definition totals : Type := M * float * nat.

(** One training batch (the body of the loop over [progress_bar]). *)
Definition train_batch (ds : dataset) (epoch n_batches : nat)
    (acc : totals) (b : nat * list nat) : result (totals * list (event W)) :=
  let '(m, running_loss, running_corrects) := acc in
  let '(batch_idx, idxs) := b in
  inputs ← fetch ds idxs;
  let m := zero_grad ops m in
  let '(m, loss, corrects) := forward ops true m inputs in
  let m := backward ops m in
  let m := optimizer_step ops m in
  let m := scheduler_step ops m in
  let running_loss :=
    (running_loss + loss * float_of_nat (length inputs))%float in
  let running_corrects := running_corrects + corrects in
  let step := epoch * n_batches + batch_idx in
  Ok ((m, running_loss, running_corrects),
      [ZeroGrad; Forward true inputs; Backward; OptimizerStep; SchedulerStep;
       AddScalar "Training Loss" loss step;
       AddScalar "Learning Rate" (get_last_lr ops m) step]).

(** One validation batch (the body of the loop over [val_loader]). *)
Definition val_batch (ds : dataset) (acc : totals) (idxs : list nat)
  : result (totals * list (event W)) :=
  let '(m, val_loss, val_corrects) := acc in
  inputs ← fetch ds idxs;
  let '(m, loss, corrects) := forward ops false m inputs in
  let val_loss := (val_loss + loss * float_of_nat (length inputs))%float in
  let val_corrects := val_corrects + corrects in
  Ok ((m, val_loss, val_corrects), [Forward false inputs]).

Record train_state : Type := {
  ts_model : M;
  ts_rng : rng;
  best_model_wts : W;
  best_loss : float
}.

(** The body of the loop over [epoch]. *)
Definition epoch_body (train_loader val_loader : DataLoader)
    (st : train_state) (epoch : nat)
  : result (train_state * list (event W)) :=
  let m := model_train ops (ts_model st) in
  let '(batches, g1) := loader_iter train_loader (ts_rng st) in
  '(m, running_loss, running_corrects, train_events) ←
    run_loop (train_batch (dl_dataset train_loader) epoch
                          (loader_len train_loader))
             (m, 0%float, 0) (imap (λ i b, (i, b)) batches);
  epoch_loss ← float_div_int running_loss (__len__ (dl_dataset train_loader));
  epoch_acc ←
    int_div_int running_corrects (__len__ (dl_dataset train_loader));
  let m := model_eval ops m in
  let '(vbatches, g2) := loader_iter val_loader g1 in
  '(m, val_loss, val_corrects, val_events) ←
    run_loop (val_batch (dl_dataset val_loader)) (m, 0%float, 0) vbatches;
  val_loss ← float_div_int val_loss (__len__ (dl_dataset val_loader));
  val_acc ← int_div_int val_corrects (__len__ (dl_dataset val_loader));
  let events :=
    [ModelTrain] ++ train_events ++
    [AddScalar "Epoch Training Loss" epoch_loss epoch;
     AddScalar "Epoch Training Accuracy" epoch_acc epoch;
     ModelEval] ++ val_events ++
    [AddScalar "Validation Loss" val_loss epoch;
     AddScalar "Validation Accuracy" val_acc epoch] in
  if (val_loss <? best_loss st)%float then
    Ok ({| ts_model := m; ts_rng := g2;
           best_model_wts := state_dict ops m; best_loss := val_loss |},
        events ++ [TorchSave (BestModel epoch val_loss) (state_dict ops m)])
  else
    Ok ({| ts_model := m; ts_rng := g2;
           best_model_wts := best_model_wts st; best_loss := best_loss st |},
        events).

Definition initial_state (m : M) (g : rng) : train_state :=
  {| ts_model := m; ts_rng := g;
     best_model_wts := state_dict ops m; best_loss := infinity |}.

Definition train_model (m : M) (train_loader val_loader : DataLoader)
    (num_epochs : nat) (g : rng) : result (M * list (event W)) :=
  '(st, events) ←
    run_loop (epoch_body train_loader val_loader) (initial_state m g)
             (seq 0 num_epochs);
  Ok (load_state_dict ops (ts_model st) (best_model_wts st),
      events ++ [LoadStateDict (best_model_wts st)]).

(** [main]. [m] is the freshly built model with its optimizer; [g_np] and
    [g_torch] are numpy's and torch's generators. [OneCycleLR] rejects a
    schedule with no epoch or no step per epoch. *)
Definition main (m : M) (data_dir : string)
    (listing : option (list fs_entry))
    (batch_size num_img_per_class num_epochs : nat) (g_np g_torch : rng)
  : result (list (event W)) :=
  '(train_loader, val_loader, _) ←
    get_data_loaders data_dir listing batch_size num_img_per_class g_np;
  if (num_epochs =? 0) || (loader_len train_loader =? 0)
  then Raise ValueError
  else
    '(m, events) ←
      train_model m train_loader val_loader num_epochs g_torch;
    Ok ([OneCycleLR num_epochs (loader_len train_loader)] ++ events ++
        [TorchSave FinalModel (state_dict ops m)]).

End Training.

(** The constants of the script. *)
Definition num_img_per_class : nat := 4000.
Definition batch_size : nat := 16.
Definition num_epochs : nat := 150.
Definition num_classes : nat := 6.

(** * Vocabulary of the statements

    The definitions below are not part of the script: they name what the
    properties talk about (counts, listings, readings of the trace) and
    fix the concrete inputs used in examples. *)

(** ** The sampler *)

(** The raw number of catalog entries of a class
    ([np.bincount(labels)[class_idx]]). *)
Definition class_count (ds : dataset) (class_idx : nat) : nat :=
  length (np_where_eq (labels_of ds) class_idx).

(** What one class contributes to the pool: [k] positions whose label is
    [c], pairwise distinct when the class has at least [k] entries; a class
    that contributes anything has an entry, unless the quota is zero. *)
Definition class_sample_ok (ds : dataset) (k c : nat) (part : list nat)
  : Prop :=
  length part = k ∧
  Forall (λ i, labels_of ds !! i = Some c) part ∧
  (k ≤ class_count ds c → NoDup part) ∧
  (0 < class_count ds c ∨ k = 0).

(** Why a call of [loaders_of] can end without loaders: a batch size of
    zero, a label outside the class list, or a class without entries while
    the quota is positive. *)
Definition no_loaders_reason (ds : dataset) (bs k : nat) : Prop :=
  bs = 0 ∨
  ¬ Forall (λ l, l < length (classes ds)) (labels_of ds) ∨
  (0 < k ∧ ∃ c, c < length (classes ds) ∧ class_count ds c = 0).

(** [int(0.8 * n)] on integers, and a check that it is the floor of
    [4 * n / 5] for [fuel] consecutive values of [n]. *)
Definition split_point_Z (n : Z) : Z :=
  py_int (split_fraction * PrimFloat.of_uint63 (Uint63.of_Z n))%float.

Fixpoint split_check (fuel : nat) (n : Z) : bool :=
  match fuel with
  | 0 => true
  | S fuel' =>
      (split_point_Z n =? 4 * n / 5)%Z && split_check fuel' (n + 1)%Z
  end.

(** A loader whose catalog is not empty and whose indices are positions of
    that catalog. *)
Definition loader_in_range (dl : DataLoader) : Prop :=
  0 < __len__ (dl_dataset dl) ∧
  Forall (λ i, i < __len__ (dl_dataset dl)) (dl_sampler dl).

(** [len(loader)], counted on the batches actually produced. *)
Definition batches_per_epoch (dl : DataLoader) : nat :=
  length (batch_sampler (dl_batch_size dl) [] (dl_sampler dl)).

(** ** The catalog *)

Abbreviation la := String.list_ascii_of_string.

(** Every file below a directory, paired with the path of the directory it
    lies in, as [os.walk] reports them. *)
Definition tree_files (top : string) (cs : list fs_entry)
  : list (string * string) :=
  flat_map (λ it : walk_item, (λ f, (it.1.1, f)) <$> it.2) (walk top cs).

(** The files below the class directory [name] of the root listing [es]. *)
Definition class_files (dir : string) (es : list fs_entry) (name : string)
  : list (string * string) :=
  match lookup_dir name es with
  | Some cs => tree_files (path_join dir name) cs
  | None => []
  end.

(** The files below all class directories of the root. *)
Definition root_class_files (dir : string) (es : list fs_entry)
  : list (string * string) :=
  flat_map (λ e, match e with
                 | Dir n cs => tree_files (path_join dir n) cs
                 | File _ => []
                 end) es.

(** A file qualifies when its name ends, ignoring case, with one of the
    extensions. *)
Definition qualifying (rf : string * string) : bool := _is_image_file rf.2.

(** The listing of one class: its directories in the order of the sorted
    walk, each with its qualifying file names in sorted order. *)
Definition class_listing (dir : string) (es : list fs_entry) (name : string)
  : list (string * list string) :=
  match lookup_dir name es with
  | Some cs =>
      (λ it : walk_item,
         (it.1.1, filter (λ f, _is_image_file f) (sorted_str it.2)))
      <$> sorted_walk (walk (path_join dir name) cs)
  | None => []
  end.

(** A listing read directory by directory: as (directory, file name) pairs
    and as catalog entries of class [class_index]. *)
Definition listing_files (items : list (string * list string))
  : list (string * string) :=
  flat_map (λ it, (λ f, (it.1, f)) <$> it.2) items.

Definition listing_entries (class_index : nat)
    (items : list (string * list string)) : list (string * nat) :=
  (λ rf, (path_join rf.1 rf.2, class_index)) <$> listing_files items.

(** ** Readings of a trace *)

Definition is_scheduler_step {W} (e : event W) : bool :=
  match e with SchedulerStep => true | _ => false end.

(** A forward pass with gradients enabled: one per training batch. *)
Definition is_training_batch {W} (e : event W) : bool :=
  match e with Forward true _ => true | _ => false end.

Definition count_events {W} (p : event W → bool) (t : list (event W)) : nat :=
  length (filter (λ e, p e) t).

(** The values recorded under a tag, in the order of the trace. *)
Definition scalar_of {W} (tag : string) (e : event W) : option float :=
  match e with
  | AddScalar tag' v _ => if bool_decide (tag' = tag) then Some v else None
  | _ => None
  end.

Definition scalar_values {W} (tag : string) (t : list (event W)) : list float :=
  omap (scalar_of tag) t.

(** The validation losses reported, one per epoch. *)
Definition val_loss_of {W} (e : event W) : option float :=
  match e with
  | AddScalar tag v _ =>
      if bool_decide (tag = "Validation Loss") then Some v else None
  | _ => None
  end.

Definition val_losses {W} (t : list (event W)) : list float :=
  omap val_loss_of t.

(** Everything written with [torch.save], in order, and among it the best
    checkpoints with their epoch and loss. *)
Definition disk_write_of {W} (e : event W) : option (checkpoint_file * W) :=
  match e with
  | TorchSave file w => Some (file, w)
  | _ => None
  end.

Definition disk_writes {W} (t : list (event W)) : list (checkpoint_file * W) :=
  omap disk_write_of t.

Definition best_checkpoint_of {W} (fw : checkpoint_file * W)
  : option (nat * float * W) :=
  match fw.1 with
  | BestModel epoch loss => Some (epoch, loss, fw.2)
  | FinalModel => None
  end.

Definition best_checkpoints {W} (t : list (event W))
  : list (nat * float * W) :=
  omap best_checkpoint_of (disk_writes t).

(** The number of samples that went through the model with ([true]) or
    without ([false]) gradients. *)
Definition batch_size_of {W} (grad : bool) (e : event W) : option nat :=
  match e with
  | Forward grad' batch =>
      if bool_decide (grad' = grad) then Some (length batch) else None
  | _ => None
  end.

Definition samples_seen {W} (grad : bool) (t : list (event W)) : nat :=
  sum_list (omap (batch_size_of grad) t).

(** ** The placement of scheduler steps

    A monitor that reads a trace from left to right. It knows whether the
    model is in training mode, whether a training batch has been processed
    and is still owed its scheduler step, and whether the preceding call
    was [optimizer.step()]. It rejects a scheduler step that is not owed,
    that does not directly follow the optimizer step or that falls outside
    training mode, and a batch or a change of mode while a step is owed. *)

Record monitor : Type := {
  in_training : bool;
  step_due : bool;
  after_optimizer : bool
}.

Definition monitor_step {W} (s : monitor) (e : event W) : option monitor :=
  match e with
  | ModelTrain =>
      if step_due s then None
      else Some {| in_training := true; step_due := false;
                   after_optimizer := false |}
  | ModelEval =>
      if step_due s then None
      else Some {| in_training := false; step_due := false;
                   after_optimizer := false |}
  | Forward true _ =>
      if in_training s && negb (step_due s)
      then Some {| in_training := true; step_due := true;
                   after_optimizer := false |}
      else None
  | Forward false _ =>
      if step_due s then None
      else Some {| in_training := in_training s; step_due := false;
                   after_optimizer := false |}
  | OptimizerStep =>
      Some {| in_training := in_training s; step_due := step_due s;
              after_optimizer := true |}
  | SchedulerStep =>
      if in_training s && step_due s && after_optimizer s
      then Some {| in_training := true; step_due := false;
                   after_optimizer := false |}
      else None
  | _ =>
      Some {| in_training := in_training s; step_due := step_due s;
              after_optimizer := false |}
  end.

Fixpoint monitor_run {W} (s : monitor) (t : list (event W)) : option monitor :=
  match t with
  | [] => Some s
  | e :: t' =>
      match monitor_step s e with
      | Some s' => monitor_run s' t'
      | None => None
      end
  end.

Definition monitor_start : monitor :=
  {| in_training := false; step_due := false; after_optimizer := false |}.

(** The monitor accepts the trace and no step is owed at its end. *)
Definition schedule_respected {W} (t : list (event W)) : bool :=
  match monitor_run monitor_start t with
  | Some s => negb (step_due s)
  | None => false
  end.

(** ** The checkpoint rule *)

(** The losses of the checkpoints that the rule "save when strictly below
    the best so far" prescribes for a sequence of validation losses, and the
    best loss it ends with. *)
Fixpoint expected_saves (best : float) (vs : list float) : list float :=
  match vs with
  | [] => []
  | v :: vs' =>
      if (v <? best)%float then v :: expected_saves v vs'
      else expected_saves best vs'
  end.

Fixpoint running_best (best : float) (vs : list float) : float :=
  match vs with
  | [] => best
  | v :: vs' => running_best (if (v <? best)%float then v else best) vs'
  end.

(** Every element is strictly below all the elements before it. *)
Definition strictly_decreasing (l : list float) : Prop :=
  StronglySorted (λ a b, (b <? a)%float = true) l.

(** [x] is [y] or strictly below it. *)
Definition not_above (x y : float) : Prop := x = y ∨ (x <? y)%float = true.

(** ** Invariants of the loops *)

(** The events of one phase over [n] batches: in training, [n] batches each
    with its scheduler step; in validation, none; in both, no validation
    loss, nothing written to disk, and a monitor that is not owed a step
    before is not owed one after. *)
Definition phase_ok {W} (training : bool) (n : nat) (t : list (event W))
  : Prop :=
  count_events is_scheduler_step t = (if training then n else 0) ∧
  count_events is_training_batch t = (if training then n else 0) ∧
  val_losses t = [] ∧
  disk_writes t = [] ∧
  ∀ s, in_training s = training → step_due s = false →
       ∃ s', monitor_run s t = Some s' ∧
             in_training s' = training ∧ step_due s' = false.

(** The events of [n] epochs that take the loop state from [st] to [st']. *)
Definition epochs_ok {M W : Type} (tl : DataLoader)
    (st st' : train_state (M := M) (W := W))
    (n : nat) (evs : list (event W)) : Prop :=
  let saved := (best_checkpoints evs).*1.*2 in
  count_events is_scheduler_step evs = n * batches_per_epoch tl ∧
  count_events is_training_batch evs = n * batches_per_epoch tl ∧
  (∀ s, step_due s = false →
        ∃ s', monitor_run s evs = Some s' ∧ step_due s' = false) ∧
  length (val_losses evs) = n ∧
  saved = expected_saves (best_loss st) (val_losses evs) ∧
  best_loss st' = running_best (best_loss st) (val_losses evs) ∧
  Forall (λ l, (l <? best_loss st)%float = true) saved ∧
  Forall (λ l, not_above (best_loss st') l) saved ∧
  strictly_decreasing saved ∧
  not_above (best_loss st') (best_loss st) ∧
  Forall (λ v, (v <? best_loss st')%float = false) (val_losses evs) ∧
  match last (best_checkpoints evs) with
  | Some (e, l, w) => best_loss st' = l ∧ best_model_wts st' = w
  | None => best_loss st' = best_loss st ∧
            best_model_wts st' = best_model_wts st
  end ∧
  Forall (λ c, AddScalar "Validation Loss" c.1.2 c.1.1 ∈ evs)
         (best_checkpoints evs).

(** ** Concrete inputs *)

(** A generator. *)
Definition example_rng : rng := {| stream := λ n, 7 * n + 3; cursor := 0 |}.

(** Collaborators whose model keeps the number of optimizer steps as its
    only parameter, predicts every label correctly and reports a loss of one
    half on every batch. *)
Definition example_ops : collaborators nat nat :=
  {| state_dict := λ m, m;
     load_state_dict := λ _ w, w;
     model_train := λ m, m;
     model_eval := λ m, m;
     zero_grad := λ m, m;
     forward := λ _ m batch, (m, 0.5%float, length batch);
     backward := λ m, m;
     optimizer_step := S;
     scheduler_step := λ m, m;
     get_last_lr := λ _, 0%float |}.

(** Root listings: two classes with nested directories, upper-case and
    hidden names; two classes of four images; a class without images. *)
Definition example_tree : list fs_entry :=
  [ File "readme.txt";
    Dir "oak" [ File "b.JPG"; File "a.png";
                Dir "sub" [ File "z.gif"; File "notes.md" ] ];
    Dir "ash" [ File "x.jpeg"; File ".bmp"; Dir "x.jpg" [] ] ].

Definition two_classes_of_four : list fs_entry :=
  [ Dir "ash" [File "1.png"; File "2.png"; File "3.png"; File "4.png"];
    Dir "oak" [File "1.png"; File "2.png"; File "3.png"; File "4.png"] ].

Definition tree_with_empty_class : list fs_entry :=
  [ Dir "oak" [File "a.png"]; Dir "ash" [File "notes.txt"] ].

(** ** Further readings of a catalog, a sampler and a trace *)

(** [np.bincount(sampled_labels)[class_idx]]: how many of the positions
    [idxs] carry the label [class_idx]. *)
Definition sampled_count (ds : dataset) (idxs : list nat) (class_idx : nat)
  : nat :=
  length (filter (λ i, labels_of ds !! i = Some class_idx) idxs).

(** Every index of the loader's sampler is a position of its catalog. *)
Definition indices_in_range (dl : DataLoader) : Prop :=
  Forall (λ i, i < __len__ (dl_dataset dl)) (dl_sampler dl).

(** The step indices recorded under a tag, in the order of the trace. *)
Definition scalar_step_of {W} (tag : string) (e : event W) : option nat :=
  match e with
  | AddScalar tag' _ step => if bool_decide (tag' = tag) then Some step else None
  | _ => None
  end.

Definition scalar_steps {W} (tag : string) (t : list (event W)) : list nat :=
  omap (scalar_step_of tag) t.

(** The disk write that stores a best checkpoint. *)
Definition checkpoint_write {W} (c : nat * float * W) : checkpoint_file * W :=
  (BestModel c.1.1 c.1.2, c.2).

(** The first failure of an epoch on a pair of loaders, in the order in
    which the epoch meets them: collating the training batches reads every
    index of the training sampler, then the training totals are divided by
    the size of the catalog, then the same for validation. *)
Definition first_failure (tl vl : DataLoader) : option py_error :=
  if decide (indices_in_range tl) then
    if __len__ (dl_dataset tl) =? 0 then Some ZeroDivisionError
    else if decide (indices_in_range vl) then
      if __len__ (dl_dataset vl) =? 0 then Some ZeroDivisionError else None
    else Some IndexError
  else Some IndexError.

(** The step indices that [n] epochs starting at epoch [a] give to the
    records of their training batches, with [nb] the value of
    [len(train_loader)] and [k] the number of batches of a pass. *)
Definition batch_steps (nb k a n : nat) : list nat :=
  flat_map (λ epoch, (λ i, epoch * nb + i) <$> seq 0 k) (seq a n).

(** ** Directory trees as a file system holds them *)

(** A name that a directory can hold: not empty, without separator. *)
Definition valid_name (n : string) : bool :=
  negb (bool_decide (n = "")) && bool_decide ("/"%char ∉ la n).

(** Valid names, distinct among the entries of one directory, at every
    depth. *)
Fixpoint wf_entry (e : fs_entry) : bool :=
  match e with
  | File n => valid_name n
  | Dir n cs =>
      valid_name n && bool_decide (NoDup (entry_name <$> cs)) &&
      forallb wf_entry cs
  end.

Definition wf_listing (es : list fs_entry) : bool :=
  bool_decide (NoDup (entry_name <$> es)) && forallb wf_entry es.

(** A directory path as [os.walk] hands it on: not empty, and not ending
    with the separator. *)
Definition clean_path (p : string) : bool :=
  negb (bool_decide (p = "")) && negb (endswith p "/").

(** Python's order on pairs (directory path, file name), strict: the
    directory decides, then the name. *)
Definition file_lt (x y : string * string) : Prop :=
  ((x.1 ≤ y.1)%string ∧ x.1 ≠ y.1) ∨
  (x.1 = y.1 ∧ (x.2 ≤ y.2)%string ∧ x.2 ≠ y.2).

(** [example_tree] as another file system could list it. *)
Definition example_tree_reordered : list fs_entry :=
  [ Dir "ash" [ Dir "x.jpg" []; File ".bmp"; File "x.jpeg" ];
    File "readme.txt";
    Dir "oak" [ Dir "sub" [ File "notes.md"; File "z.gif" ];
                File "a.png"; File "b.JPG" ] ].

(** ** The mode of the model *)

(** Calls that compute gradients or change the parameters, the optimizer or
    the schedule. *)
Definition is_update {W} (e : event W) : bool :=
  match e with
  | ZeroGrad | Backward | OptimizerStep | SchedulerStep => true
  | _ => false
  end.

Definition is_backward {W} (e : event W) : bool :=
  match e with Backward => true | _ => false end.

(** A forward pass without gradients: one per validation batch. *)
Definition is_eval_batch {W} (e : event W) : bool :=
  match e with Forward false _ => true | _ => false end.

(** A monitor of the mode of the model. [model.train()] and [model.eval()]
    switch the mode; the monitor rejects an update and a forward pass with
    gradients while the model is in evaluation mode, and a forward pass
    without gradients while it is in training mode. *)
Definition mode_step {W} (training : bool) (e : event W) : option bool :=
  match e with
  | ModelTrain => Some true
  | ModelEval => Some false
  | Forward grad _ =>
      if bool_decide (grad = training) then Some training else None
  | _ => if is_update e && negb training then None else Some training
  end.

Fixpoint mode_run {W} (training : bool) (t : list (event W)) : option bool :=
  match t with
  | [] => Some training
  | e :: t' =>
      match mode_step training e with
      | Some training' => mode_run training' t'
      | None => None
      end
  end.

(** The number of samples of every batch that went through the model. *)
Definition batch_sizes {W} (t : list (event W)) : list nat :=
  omap (λ e, match e with Forward _ batch => Some (length batch) | _ => None end)
       t.

(** * Properties *)

(** ** The generator and the shuffle *)

Lemma rand_below_lt bound g : 0 < bound → (rand_below bound g).1 < bound.
Proof. intros Hb. simpl. apply Nat.mod_upper_bound. lia. Qed.

Lemma insert_head_perm {A} (l : list A) j (x y : A) :
  l !! j = Some y → y :: <[j := x]> l ≡ₚ x :: l.
Proof.
  revert j. induction l as [|a l IH]; intros [|j] Hj; simplify_eq/=.
  - apply perm_swap.
  - rewrite (perm_swap a y), (IH _ Hj). apply perm_swap.
Qed.

Lemma swap_perm {A} (x : list A) i j : swap x i j ≡ₚ x.
Proof.
  unfold swap.
  destruct (x !! i) as [a|] eqn:Hi; [|done].
  destruct (x !! j) as [b|] eqn:Hj; [|done].
  revert i j Hi Hj.
  induction x as [|c x IH]; intros [|i] [|j] Hi Hj; simplify_eq/=; try done.
  - by apply insert_head_perm.
  - by apply insert_head_perm.
  - f_equiv. by apply IH.
Qed.

Lemma shuffle_loop_perm {A} i (x : list A) g : (shuffle_loop i x g).1 ≡ₚ x.
Proof.
  revert x g. induction i as [|i IH]; intros x g; [done|].
  cbn [shuffle_loop]. destruct (rand_below (S (S i)) g) as [j g'].
  rewrite IH. apply swap_perm.
Qed.

Lemma shuffle_perm {A} (x : list A) g : (shuffle x g).1 ≡ₚ x.
Proof. apply shuffle_loop_perm. Qed.

Lemma permutation_perm n g : (permutation n g).1 ≡ₚ seq 0 n.
Proof. apply shuffle_perm. Qed.

(** ** [np.random.choice] *)

Lemma randint_spec high size g :
  0 < high →
  length (randint high size g).1 = size ∧
  Forall (λ i, i < high) (randint high size g).1.
Proof.
  intros Hh. revert g. induction size as [|size IH]; intros g; [by split|].
  cbn [randint].
  pose proof (rand_below_lt high g Hh) as Hr.
  destruct (rand_below high g) as [r g1].
  specialize (IH g1). destruct (randint high size g1) as [rs g2].
  simpl in *. destruct IH as [IH1 IH2]. split; [by rewrite IH1|].
  by constructor.
Qed.

Lemma take_at_ok a idx :
  Forall (λ i, i < length a) idx →
  ∃ r, take_at a idx = Ok r ∧ Forall2 (λ i y, a !! i = Some y) idx r.
Proof.
  intros Hidx. unfold take_at.
  destruct (mapM (λ i, a !! i) idx) as [r|] eqn:Hm.
  - exists r. split; [done|]. by apply mapM_Some.
  - exfalso. apply mapM_None_1 in Hm.
    apply Exists_exists in Hm as (i & Hi & Hnone).
    rewrite Forall_forall in Hidx. specialize (Hidx i Hi).
    apply lookup_ge_None in Hnone. lia.
Qed.

Lemma lookups_elem_of (a idx r : list nat) :
  Forall2 (λ i y, a !! i = Some y) idx r → Forall (λ y, y ∈ a) r.
Proof.
  induction 1 as [|i y idx r Hy _ IH]; constructor; [|done].
  by eapply list_elem_of_lookup_2.
Qed.

Lemma lookups_NoDup (a idx r : list nat) :
  Forall2 (λ i y, a !! i = Some y) idx r → NoDup a → NoDup idx → NoDup r.
Proof.
  intros HF Ha Hidx. apply NoDup_alt. intros i j y Hi Hj.
  destruct (Forall2_lookup_r _ _ _ _ _ HF Hi) as (ni & Hni & Hai).
  destruct (Forall2_lookup_r _ _ _ _ _ HF Hj) as (nj & Hnj & Haj).
  assert (ni = nj) as -> by exact (NoDup_lookup a ni nj y Ha Hai Haj).
  exact (NoDup_lookup idx i j nj Hidx Hni Hnj).
Qed.

(** What [choice] returns, and when it raises. *)
Lemma choice_cases a size repl g :
  match choice a size repl g with
  | Ok (r, _) =>
      length r = size ∧ Forall (λ y, y ∈ a) r ∧
      (repl = false → NoDup a → NoDup r) ∧ (0 < length a ∨ size = 0)
  | Raise e =>
      e = ValueError ∧
      (length a = 0 ∧ (0 < size ∨ repl = true) ∨
       repl = false ∧ length a < size)
  end.
Proof.
  unfold choice.
  destruct ((length a =? 0) && negb (size =? 0)) eqn:Hempty.
  { apply andb_true_iff in Hempty as [Hpop%Nat.eqb_eq Hsz%negb_true_iff].
    apply Nat.eqb_neq in Hsz. split; [done|]. left. split; [done|]. left; lia. }
  assert (0 < length a ∨ size = 0) as Hne.
  { apply andb_false_iff in Hempty as [Hpop%Nat.eqb_neq|Hsz%negb_false_iff].
    - left; lia.
    - right. by apply Nat.eqb_eq. }
  destruct repl.
  - (* with replacement *)
    destruct (length a =? 0) eqn:Hpop;
      [apply Nat.eqb_eq in Hpop|apply Nat.eqb_neq in Hpop].
    { split; [done|]. left. split; [done|]. by right. }
    destruct (randint_spec (length a) size g) as [Hl Hf]; [lia|].
    destruct (randint (length a) size g) as [idx g'].
    destruct (take_at_ok a idx Hf) as (r & -> & HF). cbn.
    split_and!; [|by eapply lookups_elem_of|done|done].
    by rewrite <- (Forall2_length _ _ _ HF).
  - (* without replacement *)
    destruct (length a <? size) eqn:Hlt;
      [apply Nat.ltb_lt in Hlt|apply Nat.ltb_ge in Hlt].
    { split; [done|]. by right. }
    pose proof (permutation_perm (length a) g) as Hp.
    destruct (permutation (length a) g) as [p g']. simpl in Hp.
    assert (Forall (λ i, i < length a) (take size p)) as Hf.
    { apply Forall_take. rewrite Hp. apply Forall_forall.
      intros i Hi%elem_of_seq. lia. }
    assert (NoDup (take size p)) as Hnd.
    { eapply sublist_NoDup; [|apply sublist_take]. rewrite Hp. apply NoDup_seq. }
    destruct (take_at_ok a _ Hf) as (r & -> & HF). cbn.
    split_and!; [|by eapply lookups_elem_of| |done].
    + rewrite <- (Forall2_length _ _ _ HF), length_take.
      rewrite (Permutation_length Hp), length_seq. lia.
    + intros _ Ha. by eapply lookups_NoDup.
Qed.

(** ** The balanced pool *)

Lemma elem_of_np_where_eq labels c i :
  i ∈ np_where_eq labels c ↔ labels !! i = Some c.
Proof.
  unfold np_where_eq. rewrite list_elem_of_filter, elem_of_seq.
  split; [by intros [? _]|]. intros Hi. split; [done|].
  apply lookup_lt_Some in Hi. lia.
Qed.

Lemma NoDup_np_where_eq labels c : NoDup (np_where_eq labels c).
Proof. apply NoDup_filter, NoDup_seq. Qed.

Lemma sample_class_cases ds k c g :
  match sample_class ds k c g with
  | Ok (part, _) => class_sample_ok ds k c part
  | Raise e => e = ValueError ∧ class_count ds c = 0 ∧ 0 < k
  end.
Proof.
  unfold sample_class, class_sample_ok, class_count.
  set (ci := np_where_eq (labels_of ds) c).
  destruct (length ci <? k) eqn:Hlt;
    [apply Nat.ltb_lt in Hlt|apply Nat.ltb_ge in Hlt].
  - pose proof (choice_cases ci k true g) as Hc.
    destruct (choice ci k true g) as [[part g']|e].
    + destruct Hc as (Hl & Hin & _ & Hne). split_and!; [done| |lia|done].
      eapply Forall_impl; [exact Hin|]. intros i Hi.
      by apply elem_of_np_where_eq.
    + destruct Hc as (-> & [[H0 _]|[? _]]); [|done]. split_and!; [done..|lia].
  - pose proof (choice_cases ci k false g) as Hc.
    destruct (choice ci k false g) as [[part g']|e].
    + destruct Hc as (Hl & Hin & Hnd & Hne). split_and!; [done| | |done].
      * eapply Forall_impl; [exact Hin|]. intros i Hi.
        by apply elem_of_np_where_eq.
      * intros _. apply Hnd; [done|]. apply NoDup_np_where_eq.
    + destruct Hc as (-> & [[H0 [Hk|?]]|[_ ?]]); [|done|lia].
      split_and!; [done..|lia].
Qed.

Lemma balanced_loop_ok ds k cs acc g pool g' :
  balanced_loop ds k cs acc g = Ok (pool, g') →
  ∃ parts, pool = acc ++ concat parts ∧
           Forall2 (class_sample_ok ds k) cs parts.
Proof.
  revert acc g. induction cs as [|c cs IH]; intros acc g Hrun; simpl in Hrun.
  - simplify_eq. exists []. by rewrite app_nil_r.
  - pose proof (sample_class_cases ds k c g) as Hc.
    destruct (sample_class ds k c g) as [[part g1]|e]; [|done].
    simpl in Hrun. apply IH in Hrun as (parts & -> & HF).
    exists (part :: parts). simpl. rewrite app_assoc. split; [done|].
    by constructor.
Qed.

Lemma balanced_loop_raise ds k cs acc g e :
  balanced_loop ds k cs acc g = Raise e →
  e = ValueError ∧ 0 < k ∧ ∃ c, c ∈ cs ∧ class_count ds c = 0.
Proof.
  revert acc g. induction cs as [|c cs IH]; intros acc g Hrun; simpl in Hrun;
    [done|].
  pose proof (sample_class_cases ds k c g) as Hc.
  destruct (sample_class ds k c g) as [[part g1]|e1]; simpl in Hrun.
  - apply IH in Hrun as (-> & Hk & c' & Hc' & H0).
    split_and!; [done..|]. exists c'. split; [by right|done].
  - simplify_eq. destruct Hc as (-> & H0 & Hk).
    split_and!; [done..|]. exists c. split; [by left|done].
Qed.

Lemma concat_parts_length {A} (k : nat) (parts : list (list A)) :
  Forall (λ part, length part = k) parts →
  length (concat parts) = length parts * k.
Proof.
  induction 1 as [|part parts Hp _ IH]; [done|].
  simpl. rewrite length_app, Hp, IH. lia.
Qed.

(** The pool: one part per class, in class order. *)
Lemma balanced_indices_ok ds k g pool g' :
  balanced_indices ds k g = Ok (pool, g') →
  ∃ parts, pool = concat parts ∧
           Forall2 (class_sample_ok ds k) (seq 0 (length (classes ds))) parts ∧
           length pool = length (classes ds) * k.
Proof.
  intros (parts & -> & HF)%balanced_loop_ok. exists parts.
  split_and!; [done..|]. simpl.
  rewrite (concat_parts_length k).
  - by rewrite <- (Forall2_length _ _ _ HF), length_seq.
  - eapply Forall2_Forall_r; [exact HF|]. apply Forall_forall.
    by intros c _ part (? & _).
Qed.

Lemma balanced_indices_in_range ds k g pool g' :
  balanced_indices ds k g = Ok (pool, g') →
  Forall (λ i, ∃ c, c < length (classes ds) ∧
                    labels_of ds !! i = Some c) pool.
Proof.
  intros (parts & -> & HF & _)%balanced_indices_ok.
  apply Forall_concat. apply Forall_forall. intros part Hpart.
  apply list_elem_of_lookup in Hpart as [c Hc].
  destruct (Forall2_lookup_r _ _ _ _ _ HF Hc) as (c' & Hc' & _ & Hlab & _).
  apply lookup_seq in Hc' as [-> Hlt].
  eapply Forall_impl; [exact Hlab|]. intros i Hi. by exists c.
Qed.

(** ** [get_data_loaders] *)

Lemma mapM_result_ok {A B} (f : A → result B) (h : A → B) (l : list A) :
  Forall (λ x, f x = Ok (h x)) l → mapM f l = Ok (h <$> l).
Proof.
  induction 1 as [|x l Hx _ IH]; [done|].
  cbn [mapM]. rewrite Hx. cbn. rewrite IH. done.
Qed.

Lemma getitem_label ds i c :
  labels_of ds !! i = Some c ↔ ∃ path, __getitem__ ds i = Ok (path, c).
Proof.
  unfold labels_of, __getitem__. rewrite list_lookup_fmap.
  destruct (samples ds !! i) as [[path c']|]; simpl; split.
  - intros [= ->]. by exists path.
  - by intros (? & [= _ ->]).
  - done.
  - by intros (? & ?).
Qed.

Lemma label_in_range ds i c : labels_of ds !! i = Some c → i < __len__ ds.
Proof.
  intros Hi%lookup_lt_Some. unfold labels_of in Hi.
  by rewrite length_fmap in Hi.
Qed.

(** The steps of a successful call. *)
Lemma loaders_of_inv ds bs k g tl vl g' :
  loaders_of ds bs k g = Ok (tl, vl, g') →
  ∃ pool g1 shuffled,
    balanced_indices ds k g = Ok (pool, g1) ∧
    shuffle pool g1 = (shuffled, g') ∧
    tl = {| dl_dataset := ds; dl_batch_size := bs;
            dl_sampler := take (split_point (length shuffled)) shuffled |} ∧
    vl = {| dl_dataset := ds; dl_batch_size := bs;
            dl_sampler := drop (split_point (length shuffled)) shuffled |} ∧
    0 < bs.
Proof.
  unfold loaders_of. intros Hrun.
  destruct (print_class_counts (classes ds) (labels_of ds)); [|done].
  cbn in Hrun.
  destruct (balanced_indices ds k g) as [[pool g1]|]; [|done]. cbn in Hrun.
  destruct (shuffle pool g1) as [shuffled g2] eqn:Hsh.
  unfold mk_loader in Hrun.
  destruct (bs =? 0) eqn:Hbs; [done|]. apply Nat.eqb_neq in Hbs.
  cbn in Hrun.
  destruct (mapM _ shuffled) as [sampled|]; [|done]. cbn in Hrun.
  destruct (print_class_counts (classes ds) sampled); [|done].
  cbn in Hrun. simplify_eq.
  exists pool, g1, shuffled. split_and!; [done..|lia].
Qed.

(** A call succeeds when the labels fit the class list, the batch size is
    positive and no class is empty. *)
Lemma loaders_of_succeeds ds bs k g :
  Forall (λ l, l < length (classes ds)) (labels_of ds) →
  0 < bs →
  (∀ c, c < length (classes ds) → 0 < class_count ds c ∨ k = 0) →
  ∃ tl vl g', loaders_of ds bs k g = Ok (tl, vl, g').
Proof.
  intros Hlab Hbs Hne. unfold loaders_of, print_class_counts.
  rewrite (bool_decide_eq_true_2 _ Hlab). cbn.
  destruct (balanced_indices ds k g) as [[pool g1]|e] eqn:Hpool.
  2:{ apply balanced_loop_raise in Hpool as (_ & Hk & c & Hc & H0).
      apply elem_of_seq in Hc. destruct (Hne c) as [?|?]; lia. }
  cbn. pose proof (balanced_indices_in_range _ _ _ _ _ Hpool) as Hrange.
  pose proof (shuffle_perm pool g1) as Hperm.
  destruct (shuffle pool g1) as [shuffled g2]. simpl in Hperm.
  rewrite <- Hperm in Hrange.
  unfold mk_loader. destruct (bs =? 0) eqn:E; [apply Nat.eqb_eq in E; lia|].
  cbn.
  rewrite (mapM_result_ok _ (λ i, default 0 (labels_of ds !! i))).
  2:{ eapply Forall_impl; [exact Hrange|]. intros i (c & _ & Hi). cbv beta.
      rewrite Hi. apply getitem_label in Hi as [path ->]. done. }
  cbn. rewrite bool_decide_eq_true_2; [by eauto|].
  apply Forall_fmap. eapply Forall_impl; [exact Hrange|].
  intros i (c & Hc & Hi). unfold compose. by rewrite Hi.
Qed.

Lemma loaders_of_raise ds bs k g e :
  loaders_of ds bs k g = Raise e → no_loaders_reason ds bs k.
Proof.
  intros Hrun. unfold no_loaders_reason.
  destruct (decide (bs = 0)) as [|Hbs]; [by left|].
  destruct (decide (Forall (λ l, l < length (classes ds)) (labels_of ds)))
    as [Hlab|]; [|by right; left].
  destruct (decide (Exists (λ c, class_count ds c = 0 ∧ 0 < k)
                           (seq 0 (length (classes ds))))) as [Hex|Hall].
  - right; right. apply Exists_exists in Hex as (c & Hc%elem_of_seq & H0 & Hk).
    split; [done|]. exists c. split; [lia|done].
  - exfalso. destruct (loaders_of_succeeds ds bs k g Hlab) as (tl & vl & g' & Hok);
      [lia| |congruence].
    intros c Hc. destruct (decide (0 < class_count ds c)) as [|H0]; [by left|].
    destruct (decide (k = 0)) as [|Hk]; [by right|].
    exfalso. apply Hall, Exists_exists. exists c.
    rewrite elem_of_seq. lia.
Qed.

Lemma elem_of_concat {A} (x : A) (ls : list (list A)) :
  x ∈ concat ls ↔ ∃ l, x ∈ l ∧ l ∈ ls.
Proof.
  induction ls as [|l ls IH]; simpl.
  - split; [by intros ?%elem_of_nil|]. by intros (? & _ & ?%elem_of_nil).
  - rewrite elem_of_app, IH. split.
    + intros [?|(l' & ? & ?)]; [exists l|exists l']; split; try done;
        by constructor.
    + intros (l' & Hx & [->|?]%elem_of_cons); [by left|]. right. by exists l'.
Qed.

Lemma parts_NoDup ds k cs parts :
  Forall2 (class_sample_ok ds k) cs parts →
  NoDup cs → (∀ c, c ∈ cs → k ≤ class_count ds c) →
  NoDup (concat parts).
Proof.
  induction 1 as [|c part cs parts Hpart HF IH]; intros Hnd Hk; simpl.
  { constructor. }
  apply NoDup_cons in Hnd as [Hc Hnd].
  destruct Hpart as (_ & Hlab & Hdistinct & _).
  apply NoDup_app. split_and!.
  - apply Hdistinct, Hk. by left.
  - intros i Hi Hi'. apply elem_of_concat in Hi' as (part' & Hi' & Hpart').
    apply list_elem_of_lookup in Hpart' as [n Hn].
    destruct (Forall2_lookup_r _ _ _ _ _ HF Hn) as (c' & Hc' & _ & Hlab' & _).
    rewrite Forall_forall in Hlab, Hlab'.
    specialize (Hlab _ Hi). specialize (Hlab' _ Hi').
    assert (c = c') as -> by congruence.
    apply Hc. by eapply list_elem_of_lookup_2.
  - apply IH; [done|]. intros c' Hc'. apply Hk. by right.
Qed.

(** C1 (amended): the training and validation index lists together are a
    rearrangement of the balanced pool, so their sizes add up to
    [num_classes * num_img_per_class]; they share no index whenever every
    class has at least [num_img_per_class] entries. *)
Theorem C1_split_rearranges_pool ds bs k g :
  match loaders_of ds bs k g with
  | Ok (tl, vl, _) =>
      ∃ pool g1,
        balanced_indices ds k g = Ok (pool, g1) ∧
        dl_sampler tl ++ dl_sampler vl ≡ₚ pool ∧
        length (dl_sampler tl) + length (dl_sampler vl)
          = length (classes ds) * k ∧
        ((∀ c, c < length (classes ds) → k ≤ class_count ds c) →
         NoDup pool ∧ ∀ i, i ∈ dl_sampler tl → i ∉ dl_sampler vl)
  | Raise _ => no_loaders_reason ds bs k
  end.
Proof.
  destruct (loaders_of ds bs k g) as [[[tl vl] g']|e] eqn:Hrun;
    [|by eapply loaders_of_raise].
  apply loaders_of_inv in Hrun
    as (pool & g1 & shuffled & Hpool & Hsh & -> & -> & _).
  pose proof (shuffle_perm pool g1) as Hperm. rewrite Hsh in Hperm.
  simpl in Hperm. exists pool, g1. cbn [dl_sampler].
  destruct (balanced_indices_ok _ _ _ _ _ Hpool) as (parts & Hcat & HF & Hlen).
  split_and!; [done|by rewrite take_drop| |].
  - rewrite <- length_app, take_drop, Hperm. done.
  - intros Hbig.
    assert (NoDup pool) as Hnd.
    { rewrite Hcat. eapply parts_NoDup; [exact HF|apply NoDup_seq|].
      intros c Hc%elem_of_seq. apply Hbig. lia. }
    split; [done|].
    assert (NoDup (take (split_point (length shuffled)) shuffled ++
                   drop (split_point (length shuffled)) shuffled)) as Hnd'.
    { by rewrite take_drop, Hperm. }
    apply NoDup_app in Hnd' as (_ & Hdisj & _). exact Hdisj.
Qed.

(** C1, as stated, fails: one class with a single image and a quota of two
    puts catalog position 0 into both index lists. *)
Lemma C1_counterexample :
  match get_data_loaders "data/" (Some [Dir "ash" [File "a.png"]]) 16 2
                         example_rng with
  | Ok (tl, vl, _) =>
      dl_sampler tl = [0] ∧ dl_sampler vl = [0] ∧
      ¬ (∀ i, i ∈ dl_sampler tl → i ∉ dl_sampler vl)
  | Raise _ => False
  end.
Proof.
  vm_compute. split_and!; [done..|].
  intros H. apply (H 0); by left.
Qed.

(** C2 (amended): a class with at least one entry contributes exactly
    [num_img_per_class] positions of that class, pairwise distinct when it
    has at least that many entries, and the pool then has
    [num_classes * num_img_per_class] elements; a class without entries makes
    the sampler raise [ValueError] when the quota is positive. *)
Theorem C2_class_quota ds k g :
  (∀ c g1,
     match sample_class ds k c g1 with
     | Ok (part, _) =>
         (0 < class_count ds c ∨ k = 0) ∧
         length part = k ∧
         Forall (λ i, labels_of ds !! i = Some c) part ∧
         (k ≤ class_count ds c → NoDup part)
     | Raise e => e = ValueError ∧ class_count ds c = 0 ∧ 0 < k
     end) ∧
  match balanced_indices ds k g with
  | Ok (pool, _) =>
      ∃ parts,
        pool = concat parts ∧
        Forall2 (class_sample_ok ds k) (seq 0 (length (classes ds))) parts ∧
        length pool = length (classes ds) * k
  | Raise e =>
      e = ValueError ∧ 0 < k ∧
      ∃ c, c < length (classes ds) ∧ class_count ds c = 0
  end.
Proof.
  split.
  - intros c g1. pose proof (sample_class_cases ds k c g1) as Hc.
    destruct (sample_class ds k c g1) as [[part g2]|]; [|done].
    destruct Hc as (? & ? & ? & ?). done.
  - destruct (balanced_indices ds k g) as [[pool g']|e] eqn:Hpool.
    + by eapply balanced_indices_ok.
    + apply balanced_loop_raise in Hpool as (-> & Hk & c & Hc%elem_of_seq & H0).
      split_and!; [done..|]. exists c. split; [lia|done].
Qed.

(** C2, as stated, fails for a class directory without images: it has raw
    count 0, below the quota 1, and no sample is produced. *)
Lemma C2_counterexample :
  match CustomImageFolder "data/" (Some [Dir "ash" []]) with
  | Ok ds =>
      classes ds = ["ash"] ∧ class_count ds 0 = 0 ∧
      sample_class ds 1 0 example_rng = Raise ValueError ∧
      balanced_indices ds 1 example_rng = Raise ValueError
  | Raise _ => False
  end.
Proof. vm_compute. done. Qed.

(** C10: every index drawn for a class, and hence every element of the
    training and validation index lists, is a position of the catalog whose
    entry carries the class it was drawn for; [__getitem__] does not raise on
    it. The sampler only fails to draw for a class without entries. *)
Theorem C10_sampled_indices_in_range ds bs k g :
  (∀ c g1,
     match sample_class ds k c g1 with
     | Ok (part, _) =>
         Forall (λ i, i < __len__ ds ∧
                      ∃ path, __getitem__ ds i = Ok (path, c)) part
     | Raise e => e = ValueError ∧ class_count ds c = 0 ∧ 0 < k
     end) ∧
  match loaders_of ds bs k g with
  | Ok (tl, vl, _) =>
      Forall (λ i, i < __len__ ds ∧
                   ∃ path c, c < length (classes ds) ∧
                             __getitem__ ds i = Ok (path, c))
             (dl_sampler tl ++ dl_sampler vl)
  | Raise _ => no_loaders_reason ds bs k
  end.
Proof.
  split.
  - intros c g1. pose proof (sample_class_cases ds k c g1) as Hc.
    destruct (sample_class ds k c g1) as [[part g2]|]; [|done].
    destruct Hc as (_ & Hlab & _). eapply Forall_impl; [exact Hlab|].
    intros i Hi. split; [exact (label_in_range _ _ _ Hi)|].
    by apply getitem_label.
  - destruct (loaders_of ds bs k g) as [[[tl vl] g']|] eqn:Hrun;
      [|by eapply loaders_of_raise].
    apply loaders_of_inv in Hrun
      as (pool & g1 & shuffled & Hpool & Hsh & -> & -> & _).
    simpl. rewrite take_drop.
    pose proof (shuffle_perm pool g1) as Hperm. rewrite Hsh in Hperm.
    simpl in Hperm. rewrite Hperm.
    eapply Forall_impl; [exact (balanced_indices_in_range _ _ _ _ _ Hpool)|].
    intros i (c & Hc & Hi). split; [exact (label_in_range _ _ _ Hi)|].
    apply getitem_label in Hi as [path Hp]. by exists path, c.
Qed.

Lemma split_check_sound fuel n :
  split_check fuel n = true →
  ∀ z, (n ≤ z < n + Z.of_nat fuel)%Z → split_point_Z z = (4 * z / 5)%Z.
Proof.
  revert n. induction fuel as [|fuel IH]; intros n Hc z Hz; [lia|].
  cbn [split_check] in Hc. apply andb_true_iff in Hc as [Hn Hrest].
  destruct (decide (z = n)) as [->|Hne].
  - by apply Z.eqb_eq.
  - apply (IH _ Hrest). lia.
Qed.

Lemma split_check_100000 : split_check (Z.to_nat 100001) 0 = true.
Proof. vm_compute. reflexivity. Qed.

(** For every length up to 100000 the float product truncates to the exact
    floor of four fifths of the length. *)
Lemma split_point_exact n :
  (Z.of_nat n ≤ 100000)%Z → split_point n = n * 4 / 5.
Proof.
  intros Hn. unfold split_point.
  change (py_int _) with (split_point_Z (Z.of_nat n)).
  rewrite (split_check_sound _ _ split_check_100000); [|lia].
  rewrite Z2Nat.inj_div by lia.
  rewrite Z2Nat.inj_mul by lia. rewrite Nat2Z.id.
  change (Z.to_nat 4) with 4. change (Z.to_nat 5) with 5.
  f_equal. lia.
Qed.

(** With the constants of the script and six classes the pool of 24000
    indices is cut at 19200. *)
Example script_split_point :
  Z.of_nat (split_point (num_classes * num_img_per_class)) = 19200%Z.
Proof. vm_compute. reflexivity. Qed.

(** C6: the shuffled pool is cut at [int(0.8 * len(pool))]; the prefix is the
    training list and the suffix the validation list. For pools of up to
    100000 indices the cut is the exact floor of four fifths of the length;
    a pool of 10 gives 8 and 2. *)
Theorem C6_split_position ds bs k g :
  match loaders_of ds bs k g with
  | Ok (tl, vl, g') =>
      ∃ pool g1 shuffled,
        balanced_indices ds k g = Ok (pool, g1) ∧
        shuffle pool g1 = (shuffled, g') ∧
        shuffled ≡ₚ pool ∧
        let split :=
          Z.to_nat (py_int (split_fraction *
                            float_of_nat (length shuffled))%float) in
        dl_sampler tl = take split shuffled ∧
        dl_sampler vl = drop split shuffled ∧
        ((Z.of_nat (length shuffled) ≤ 100000)%Z →
         split = length shuffled * 4 / 5) ∧
        (length shuffled = 10 →
         length (dl_sampler tl) = 8 ∧ length (dl_sampler vl) = 2)
  | Raise _ => no_loaders_reason ds bs k
  end.
Proof.
  destruct (loaders_of ds bs k g) as [[[tl vl] g']|e] eqn:Hrun;
    [|by eapply loaders_of_raise].
  apply loaders_of_inv in Hrun
    as (pool & g1 & shuffled & Hpool & Hsh & -> & -> & _).
  pose proof (shuffle_perm pool g1) as Hperm. rewrite Hsh in Hperm.
  simpl in Hperm. exists pool, g1, shuffled. cbn [dl_sampler].
  fold (split_point (length shuffled)).
  split_and!; [done..| |].
  - apply split_point_exact.
  - intros H10. rewrite length_take, length_drop, H10.
    change (split_point 10) with 8. lia.
Qed.

(** ** Paths and extensions *)

Lemma la_app a b : la (a +:+ b) = la a ++ la b.
Proof. induction a as [|c a IH]; [done|]. simpl. by rewrite <- IH. Qed.

Lemma la_lower s : la (lower s) = ascii_lower <$> la s.
Proof. induction s as [|c s IH]; [done|]. simpl. by rewrite IH. Qed.

Lemma la_inj a b : la a = la b → a = b.
Proof.
  intros H. rewrite <- (String.string_of_list_ascii_of_string a),
    <- (String.string_of_list_ascii_of_string b). by rewrite H.
Qed.

Lemma endswith_spec s suffix : endswith s suffix ↔ la suffix `suffix_of` la s.
Proof. unfold endswith. apply bool_decide_spec. Qed.

(** A joined path is the file name preceded by nothing or by a prefix that
    ends with the separator. *)
Lemma path_join_split a b :
  ∃ p, path_join a b = p +:+ b ∧ (p = "" ∨ endswith p "/").
Proof.
  unfold path_join. destruct (String.prefix "/" b).
  { exists "". split; [done|by left]. }
  destruct (bool_decide (a = "")) eqn:Ha.
  { apply bool_decide_eq_true in Ha as ->. exists "". split; [done|by left]. }
  destruct (endswith a "/") eqn:He; cbn [orb].
  { exists a. split; [done|right]. by rewrite He. }
  exists (a +:+ "/"). split.
  - apply la_inj. by rewrite !la_app, app_assoc.
  - right. apply endswith_spec. rewrite la_app. by apply suffix_app_r.
Qed.

Lemma suffix_after_separator (sep : ascii) (ext p f : list ascii) :
  sep ∉ ext → (p = [] ∨ [sep] `suffix_of` p) →
  ext `suffix_of` p ++ f ↔ ext `suffix_of` f.
Proof.
  intros Hsep Hp. split; [|apply suffix_app_r].
  intros Hext. destruct Hp as [->|[p' ->]]; [done|].
  destruct (suffix_weak_total ext f ((p' ++ [sep]) ++ f)) as [?|[q Hq]];
    [done|by apply suffix_app_r|done|].
  destruct Hext as [k Hk]. rewrite Hq in Hk.
  rewrite (app_assoc k q f) in Hk. apply app_inv_tail in Hk.
  destruct (decide (q = [])) as [->|Hne]; [by rewrite Hq|].
  exfalso. apply Hsep. rewrite Hq.
  destruct (exists_last Hne) as (q' & c & ->).
  rewrite app_assoc in Hk. apply app_inj_2 in Hk as [_ [= <-]]; [|done].
  rewrite !elem_of_app. left; right. by left.
Qed.

(** The test on the full path is a test on the file name. *)
Lemma is_image_file_path root fname :
  _is_image_file (path_join root fname) = _is_image_file fname.
Proof.
  destruct (path_join_split root fname) as (p & -> & Hp).
  unfold _is_image_file.
  assert (∀ ext, "/"%char ∉ la ext →
                 endswith (lower (p +:+ fname)) ext
                 = endswith (lower fname) ext) as Hext.
  { intros ext Hsep. apply bool_decide_ext.
    rewrite !la_lower, la_app, fmap_app.
    apply (suffix_after_separator "/"%char); [done|].
    destruct Hp as [->|Hp]; [by left|right].
    apply endswith_spec in Hp as [k Hk]. rewrite Hk, fmap_app.
    by apply suffix_app_r. }
  unfold extensions. cbn [existsb].
  rewrite !Hext; [done|..]; apply (bool_decide_unpack _); by vm_compute.
Qed.

(** A name passes the test exactly when, in lower case, it is some stem
    followed by one of the extensions. *)
Lemma is_image_file_spec fname :
  _is_image_file fname ↔
  ∃ ext stem, ext ∈ extensions ∧ lower fname = stem +:+ ext.
Proof.
  unfold _is_image_file. rewrite Is_true_true, existsb_exists. split.
  - intros (ext & Hin & He). apply Is_true_true, endswith_spec in He as [k Hk].
    exists ext, (String.string_of_list_ascii k). split.
    + by apply list_elem_of_In.
    + apply la_inj.
      by rewrite la_app, String.list_ascii_of_string_of_list_ascii.
  - intros (ext & stem & Hin & Hl). exists ext. split.
    + by apply list_elem_of_In.
    + apply Is_true_true, endswith_spec. exists (la stem).
      by rewrite Hl, la_app.
Qed.

Example is_image_file_upper_case : _is_image_file "b.JPG" = true.
Proof. reflexivity. Qed.

Example is_image_file_other_extension : _is_image_file "notes.md" = false.
Proof. reflexivity. Qed.

Example is_image_file_bare_extension : _is_image_file ".bmp" = true.
Proof. reflexivity. Qed.

(** ** Sorting *)

Lemma list_string_leb_total l1 l2 :
  list_string_leb l1 l2 = true ∨ list_string_leb l2 l1 = true.
Proof.
  revert l2. induction l1 as [|x l1 IH]; intros [|y l2]; simpl; auto.
  destruct (decide (x = y)) as [->|Hne].
  - rewrite !bool_decide_eq_true_2 by done. apply IH.
  - rewrite !bool_decide_eq_false_2 by done. apply String.leb_total.
Qed.

Global Instance walk_item_le_total : Total walk_item_le.
Proof.
  intros [[r1 d1] f1] [[r2 d2] f2]. unfold walk_item_le, walk_item_leb.
  destruct (decide (r1 = r2)) as [->|Hr].
  - rewrite !bool_decide_eq_true_2 by done.
    destruct (decide (d1 = d2)) as [->|Hd].
    + rewrite !bool_decide_eq_true_2 by done.
      destruct (list_string_leb_total f1 f2) as [->| ->]; auto.
    + rewrite !bool_decide_eq_false_2 by done.
      destruct (list_string_leb_total d1 d2) as [->| ->]; auto.
  - rewrite !bool_decide_eq_false_2 by done.
    destruct (String.leb_total r1 r2) as [->| ->]; auto.
Qed.

Lemma walk_item_le_root x y : walk_item_le x y → (x.1.1 ≤ y.1.1)%string.
Proof.
  destruct x as [[r1 d1] f1], y as [[r2 d2] f2].
  unfold walk_item_le, walk_item_leb. simpl.
  destruct (decide (r1 = r2)) as [->|Hr].
  - intros _. reflexivity.
  - by rewrite bool_decide_eq_false_2 by done.
Qed.

Lemma sorted_str_sorted l : StronglySorted (≤)%string (sorted_str l).
Proof. apply StronglySorted_merge_sort; apply _. Qed.

Lemma sorted_str_perm l : sorted_str l ≡ₚ l.
Proof. apply merge_sort_Permutation. Qed.

Lemma sorted_str_unique l1 l2 : l1 ≡ₚ l2 → sorted_str l1 = sorted_str l2.
Proof.
  intros Hp. apply (StronglySorted_unique (≤)%string);
    [apply sorted_str_sorted..|].
  by rewrite !sorted_str_perm.
Qed.

Lemma sorted_str_id l : StronglySorted (≤)%string l → sorted_str l = l.
Proof.
  intros Hs. apply (StronglySorted_unique (≤)%string);
    [apply sorted_str_sorted|done|apply sorted_str_perm].
Qed.

Lemma sorted_walk_roots l :
  StronglySorted (≤)%string ((λ it : walk_item, it.1.1) <$> sorted_walk l).
Proof.
  apply Sorted_StronglySorted; [apply _|].
  apply (Sorted_fmap _ walk_item_le); [apply walk_item_le_root|].
  apply Sorted_merge_sort; apply _.
Qed.

Lemma StronglySorted_sublist {A} (R : relation A) l1 l2 :
  l1 `sublist_of` l2 → StronglySorted R l2 → StronglySorted R l1.
Proof.
  induction 1 as [|x l1 l2 Hsub IH|x l1 l2 Hsub IH]; intros Hs.
  - constructor.
  - apply StronglySorted_cons in Hs as [Hall Hs].
    apply StronglySorted_cons. split; [|by apply IH].
    eapply Forall_forall. intros y Hy. rewrite Forall_forall in Hall.
    apply Hall. by eapply elem_of_sublist.
  - apply StronglySorted_cons in Hs as [_ Hs]. by apply IH.
Qed.

Lemma flat_map_Permutation {A B} (f : A → list B) l l' :
  l ≡ₚ l' → flat_map f l ≡ₚ flat_map f l'.
Proof.
  induction 1 as [|x l l' _ IH|x y l|l l' l'' _ IH1 _ IH2]; simpl.
  - done.
  - by rewrite IH.
  - rewrite !app_assoc. f_equiv. apply Permutation_app_comm.
  - by rewrite IH1.
Qed.

Lemma filter_flat_map {A B} (P : B → Prop) `{∀ x, Decision (P x)}
    (f : A → list B) l :
  filter P (flat_map f l) = flat_map (λ x, filter P (f x)) l.
Proof.
  induction l as [|x l IH]; simpl; [done|]. by rewrite filter_app, IH.
Qed.

Lemma filter_fmap_pair (root : string) (names : list string) :
  filter (λ rf, qualifying rf) ((λ f, (root, f)) <$> names)
  = (λ f, (root, f)) <$> filter (λ f, _is_image_file f) names.
Proof.
  induction names as [|f names IH]; [done|].
  rewrite fmap_cons. destruct (_is_image_file f) eqn:E.
  - rewrite !filter_cons_True, IH; [done|..];
      unfold qualifying; cbn [snd]; by rewrite E.
  - rewrite !filter_cons_False, IH; [done|..];
      unfold qualifying; cbn [snd]; rewrite E; simpl; tauto.
Qed.

(** ** The catalog *)

Lemma walk_item_samples_eq idx (it : walk_item) :
  walk_item_samples idx it
  = (λ f, (path_join it.1.1 f, idx))
    <$> filter (λ f, _is_image_file f) (sorted_str it.2).
Proof.
  destruct it as [[rt dirs] fnames]. unfold walk_item_samples. simpl.
  induction (sorted_str fnames) as [|f l IH]; [done|].
  cbn [omap list_omap]. rewrite is_image_file_path, IH.
  destruct (_is_image_file f) eqn:E.
  - rewrite filter_cons_True by (by rewrite E). done.
  - rewrite filter_cons_False by (rewrite E; simpl; tauto). done.
Qed.

Lemma class_samples_listing dir es c2i name idx :
  c2i !! name = Some idx →
  class_samples dir es c2i name
  = listing_entries idx (class_listing dir es name).
Proof.
  intros Hidx. unfold class_samples, class_listing, listing_entries.
  rewrite Hidx. destruct (lookup_dir name es) as [cs|]; [|done].
  induction (sorted_walk (walk (path_join dir name) cs)) as [|it l IH];
    [done|].
  cbn [flat_map fmap list_fmap listing_files]. fold (listing_files).
  rewrite fmap_app, IH, walk_item_samples_eq. f_equal.
  rewrite <- list_fmap_compose. done.
Qed.

Lemma class_listing_sorted dir es name :
  StronglySorted (≤)%string (class_listing dir es name).*1 ∧
  Forall (λ it, StronglySorted (≤)%string it.2 ∧
                Forall (λ f, _is_image_file f) it.2)
         (class_listing dir es name).
Proof.
  unfold class_listing. destruct (lookup_dir name es) as [cs|].
  2:{ split; constructor. }
  split.
  - rewrite <- list_fmap_compose. apply sorted_walk_roots.
  - apply Forall_fmap, Forall_forall. intros it _. simpl. split.
    + eapply StronglySorted_sublist; [apply sublist_filter|].
      apply sorted_str_sorted.
    + apply Forall_forall. by intros f [? _]%list_elem_of_filter.
Qed.

Lemma class_listing_files dir es name :
  listing_files (class_listing dir es name)
  ≡ₚ filter (λ rf, qualifying rf) (class_files dir es name).
Proof.
  unfold class_listing, class_files, tree_files, listing_files.
  destruct (lookup_dir name es) as [cs|]; [|done].
  rewrite filter_flat_map.
  rewrite <- (flat_map_Permutation _ _ _
               (merge_sort_Permutation walk_item_le
                  (walk (path_join dir name) cs))).
  fold (sorted_walk (walk (path_join dir name) cs)).
  induction (sorted_walk (walk (path_join dir name) cs)) as [|it l IH];
    [done|].
  cbn [flat_map fmap list_fmap]. rewrite IH. f_equiv. simpl.
  rewrite filter_fmap_pair. f_equiv. f_equiv. apply sorted_str_perm.
Qed.

Lemma enumerate_dict_from (l : list string) :
  ∀ n (m : gmap string nat) name i,
    NoDup l →
    (foldl (λ (m : gmap string nat) '(i, c), <[c := i]> m) m
           (imap (λ j c, (n + j, c)) l)) !! name = Some i ↔
    (∃ j, l !! j = Some name ∧ i = n + j) ∨
    ((name ∉ l) ∧ m !! name = Some i).
Proof.
  induction l as [|x l IH]; intros n m name i Hnd.
  - simpl. split.
    + intros Hm. right. split; [apply not_elem_of_nil|done].
    + intros [(j & Hj & _)|[_ Hm]]; [done|done].
  - apply NoDup_cons in Hnd as [Hx Hnd]. cbn [imap foldl].
    rewrite (imap_ext _ (λ j c, (S n + j, c))).
    2:{ intros j c _. simpl. f_equal. lia. }
    rewrite (IH (S n) _ name i Hnd).
    destruct (decide (name = x)) as [->|Hne].
    + rewrite lookup_insert_eq. split.
      * intros [(j & Hj & _)|[_ [= <-]]].
        { exfalso. apply Hx. by eapply list_elem_of_lookup_2. }
        left. exists 0. split; [done|lia].
      * intros [(j & Hj & ->)|[Hnot _]].
        { destruct j as [|j]; simpl in Hj.
          - right. split; [done|]. f_equal.
          - exfalso. apply Hx. by eapply list_elem_of_lookup_2. }
        exfalso. apply Hnot. by left.
    + rewrite lookup_insert_ne by done. split.
      * intros [(j & Hj & ->)|[Hnot Hm]].
        { left. exists (S j). split; [done|lia]. }
        right. split; [|done]. by apply not_elem_of_cons.
      * intros [(j & Hj & ->)|[Hnot Hm]].
        { destruct j as [|j]; simpl in Hj; [congruence|].
          left. exists j. split; [done|lia]. }
        right. split; [|done]. by apply not_elem_of_cons in Hnot as [_ ?].
Qed.

(** Names and indexes are in one-to-one correspondence. *)
Lemma enumerate_dict_lookup (cls : list string) name i :
  NoDup cls → enumerate_dict cls !! name = Some i ↔ cls !! i = Some name.
Proof.
  intros Hnd. unfold enumerate_dict.
  rewrite (enumerate_dict_from cls 0 ∅ name i Hnd). split.
  - intros [(j & Hj & ->)|[_ Hm]]; [done|]. by rewrite lookup_empty in Hm.
  - intros Hi. left. by exists i.
Qed.

Lemma enumerate_dict_keys (cls : list string) :
  NoDup cls → (map_to_list (enumerate_dict cls)).*1 ≡ₚ cls.
Proof.
  intros Hnd. apply NoDup_Permutation; [apply NoDup_fst_map_to_list|done|].
  intros name. rewrite list_elem_of_fmap. split.
  - intros ([k i] & -> & Hki%elem_of_map_to_list). simpl.
    apply enumerate_dict_lookup in Hki; [|done].
    by eapply list_elem_of_lookup_2.
  - intros [i Hi]%list_elem_of_lookup. exists (name, i). split; [done|].
    apply elem_of_map_to_list. by apply enumerate_dict_lookup.
Qed.

Lemma scandir_dirs_names es :
  ∀ n, n ∈ scandir_dirs es → n ∈ entry_name <$> es.
Proof.
  intros n (e & He & Hn)%list_elem_of_omap.
  apply list_elem_of_fmap. exists e. split; [|done].
  destruct e; by simplify_eq/=.
Qed.

Lemma scandir_dirs_NoDup es :
  NoDup (entry_name <$> es) → NoDup (scandir_dirs es).
Proof.
  induction es as [|e es IH]; [by constructor|].
  rewrite fmap_cons. intros [Hn Hnd]%NoDup_cons.
  destruct e as [n|n cs]; cbn; [by apply IH|].
  apply NoDup_cons. split; [|by apply IH].
  intros Hin%scandir_dirs_names. done.
Qed.

Lemma lookup_dir_Dir es n cs :
  NoDup (entry_name <$> es) → Dir n cs ∈ es → lookup_dir n es = Some cs.
Proof.
  intros Hnd Hin. unfold lookup_dir.
  destruct (list_find (λ e, entry_name e = n) es) as [[i e]|] eqn:Hfind.
  - apply list_find_Some in Hfind as (Hi & Hname & _).
    apply list_elem_of_lookup in Hin as [j Hj].
    assert (i = j) as ->.
    { apply (NoDup_lookup (entry_name <$> es) i j n Hnd);
        rewrite list_lookup_fmap; [by rewrite Hi; simpl; f_equal|].
      by rewrite Hj. }
    rewrite Hj in Hi. by injection Hi as <-.
  - exfalso. apply list_find_None in Hfind.
    rewrite Forall_forall in Hfind. by apply (Hfind _ Hin).
Qed.

Lemma root_class_files_eq dir es :
  NoDup (entry_name <$> es) →
  root_class_files dir es = flat_map (class_files dir es) (scandir_dirs es).
Proof.
  intros Hnd. unfold root_class_files.
  assert (∀ l, (∀ e, e ∈ l → e ∈ es) →
               flat_map (λ e, match e with
                              | Dir n cs => tree_files (path_join dir n) cs
                              | File _ => []
                              end) l
               = flat_map (class_files dir es) (scandir_dirs l)) as Hgen.
  { induction l as [|e l IH]; intros Hsub; [done|].
    assert (∀ e', e' ∈ l → e' ∈ es) as Hsub' by (intros; apply Hsub; by right).
    destruct e as [n|n cs]; [by apply IH|].
    change (tree_files (path_join dir n) cs ++
            flat_map (λ e, match e with
                           | Dir n cs => tree_files (path_join dir n) cs
                           | File _ => []
                           end) l
            = class_files dir es n ++
              flat_map (class_files dir es) (scandir_dirs l)).
    rewrite (IH Hsub'). f_equal. unfold class_files.
    rewrite (lookup_dir_Dir es n cs Hnd); [done|]. apply Hsub. by left. }
  by apply Hgen.
Qed.

Lemma find_classes_perm es es' :
  es' ≡ₚ es → _find_classes es' = _find_classes es.
Proof.
  intros Hp. unfold _find_classes.
  assert (sorted_str (scandir_dirs es') = sorted_str (scandir_dirs es)) as ->;
    [|done].
  apply sorted_str_unique. unfold scandir_dirs. by rewrite Hp.
Qed.

Lemma listing_entries_length idx items :
  length (listing_entries idx items) = length (listing_files items).
Proof. unfold listing_entries. by rewrite length_fmap. Qed.

Lemma flat_map_length_pointwise {A B C} (f : A → list B) (h : A → list C) l :
  (∀ x, x ∈ l → length (f x) = length (h x)) →
  length (flat_map f l) = length (flat_map h l).
Proof.
  induction l as [|x l IH]; intros Hfh; [done|].
  simpl. rewrite !length_app, IH, (Hfh x); [done|by left|].
  intros y Hy. apply Hfh. by right.
Qed.

(** How the catalog of a root directory is put together. *)
Lemma catalog_build dir es :
  NoDup (entry_name <$> es) →
  ∃ ds,
    CustomImageFolder dir (Some es) = Ok ds ∧
    classes ds = sorted_str (scandir_dirs es) ∧
    class_to_idx ds = enumerate_dict (classes ds) ∧
    NoDup (classes ds) ∧
    samples ds
      = flat_map (class_samples dir es (class_to_idx ds)) (classes ds).
Proof.
  intros Hnames.
  pose proof (scandir_dirs_NoDup es Hnames) as Hdirs.
  set (cls := sorted_str (scandir_dirs es)).
  assert (NoDup cls) as Hnd by (unfold cls; by rewrite sorted_str_perm).
  assert (sorted_str (map_to_list (enumerate_dict cls)).*1 = cls) as Hkeys.
  { rewrite (sorted_str_unique _ cls (enumerate_dict_keys cls Hnd)).
    apply sorted_str_id, sorted_str_sorted. }
  eexists. split; [reflexivity|]. cbn [classes class_to_idx samples].
  fold cls. unfold _make_dataset. by rewrite Hkeys.
Qed.

(** The entries of the class at position [i] of a duplicate-free class
    list. *)
Lemma class_samples_at dir es cls i name :
  NoDup cls → cls !! i = Some name →
  class_samples dir es (enumerate_dict cls) name
  = listing_entries i (class_listing dir es name).
Proof.
  intros Hnd Hi. apply class_samples_listing. by apply enumerate_dict_lookup.
Qed.

(** C9: for a root directory whose entries have pairwise distinct names, the
    catalog is built without error; its classes are the sub-directory names
    in sorted order, whatever the order of the directory listing; the index
    of a class is its position in that list and the name-to-index map is
    one-to-one; the entries are listed class by class, within a class
    directory by directory in sorted order and within a directory by sorted
    file name; they are exactly the files below the class directories whose
    name ends, ignoring case, with one of the five extensions, so the catalog
    has as many entries as there are such files. *)
Theorem C9_catalog_contents dir es :
  NoDup (entry_name <$> es) →
  ∃ ds,
    CustomImageFolder dir (Some es) = Ok ds ∧
    classes ds ≡ₚ scandir_dirs es ∧
    StronglySorted (≤)%string (classes ds) ∧
    (∀ name i, class_to_idx ds !! name = Some i ↔
               classes ds !! i = Some name) ∧
    (∀ es', es' ≡ₚ es → _find_classes es' = (classes ds, class_to_idx ds)) ∧
    samples ds
      = flat_map (class_samples dir es (class_to_idx ds)) (classes ds) ∧
    (∀ i name,
       classes ds !! i = Some name →
       class_samples dir es (class_to_idx ds) name
         = listing_entries i (class_listing dir es name) ∧
       StronglySorted (≤)%string (class_listing dir es name).*1 ∧
       Forall (λ it, StronglySorted (≤)%string it.2 ∧
                     Forall (λ f, _is_image_file f) it.2)
              (class_listing dir es name) ∧
       listing_files (class_listing dir es name)
         ≡ₚ filter (λ rf, qualifying rf) (class_files dir es name)) ∧
    (∀ rf, qualifying rf ↔
           ∃ ext stem, ext ∈ extensions ∧ lower rf.2 = stem +:+ ext) ∧
    length (samples ds)
      = length (filter (λ rf, qualifying rf) (root_class_files dir es)).
Proof.
  intros Hnames.
  destruct (catalog_build dir es Hnames)
    as (ds & Hds & Hcls & Hidx & Hnd & Hsamples).
  exists ds. split; [done|].
  assert (classes ds ≡ₚ scandir_dirs es) as Hperm
    by (rewrite Hcls; apply sorted_str_perm).
  rewrite Hidx.
  split_and!.
  - done.
  - rewrite Hcls. apply sorted_str_sorted.
  - intros name i. by apply enumerate_dict_lookup.
  - intros es' Hes'. rewrite (find_classes_perm es es' Hes').
    unfold _find_classes. by rewrite <- Hcls.
  - by rewrite Hsamples, Hidx.
  - intros i name Hi. split_and!.
    + by apply class_samples_at.
    + apply class_listing_sorted.
    + apply class_listing_sorted.
    + apply class_listing_files.
  - intros rf. apply is_image_file_spec.
  - rewrite Hsamples, Hidx.
    rewrite (root_class_files_eq dir es Hnames), filter_flat_map.
    rewrite <- (Permutation_length (flat_map_Permutation _ _ _ Hperm)).
    apply flat_map_length_pointwise. intros name [i Hi]%list_elem_of_lookup.
    rewrite (class_samples_at dir es _ i name Hnd Hi), listing_entries_length.
    apply Permutation_length, class_listing_files.
Qed.

(** An instance of C9 on a small tree. *)
Lemma C9_catalog_contents_witness :
  ∃ ds,
    CustomImageFolder "data/" (Some example_tree) = Ok ds ∧
    classes ds ≡ₚ scandir_dirs example_tree ∧
    StronglySorted (≤)%string (classes ds) ∧
    (∀ name i, class_to_idx ds !! name = Some i ↔
               classes ds !! i = Some name) ∧
    (∀ es', es' ≡ₚ example_tree →
            _find_classes es' = (classes ds, class_to_idx ds)) ∧
    samples ds
      = flat_map (class_samples "data/" example_tree (class_to_idx ds))
                 (classes ds) ∧
    (∀ i name,
       classes ds !! i = Some name →
       class_samples "data/" example_tree (class_to_idx ds) name
         = listing_entries i (class_listing "data/" example_tree name) ∧
       StronglySorted (≤)%string (class_listing "data/" example_tree name).*1 ∧
       Forall (λ it, StronglySorted (≤)%string it.2 ∧
                     Forall (λ f, _is_image_file f) it.2)
              (class_listing "data/" example_tree name) ∧
       listing_files (class_listing "data/" example_tree name)
         ≡ₚ filter (λ rf, qualifying rf)
                   (class_files "data/" example_tree name)) ∧
    (∀ rf, qualifying rf ↔
           ∃ ext stem, ext ∈ extensions ∧ lower rf.2 = stem +:+ ext) ∧
    length (samples ds)
      = length (filter (λ rf, qualifying rf)
                       (root_class_files "data/" example_tree)).
Proof.
  apply (C9_catalog_contents "data/" example_tree).
  apply (bool_decide_unpack _). vm_compute. exact I.
Defined.

(** The catalog of the small tree: hidden and upper-case names are kept,
    the directory named like an image is not an entry. *)
Example example_tree_catalog :
  match CustomImageFolder "data/" (Some example_tree) with
  | Ok ds =>
      classes ds = ["ash"; "oak"] ∧
      samples ds = [("data/ash/.bmp", 0); ("data/ash/x.jpeg", 0);
                    ("data/oak/a.png", 1); ("data/oak/b.JPG", 1);
                    ("data/oak/sub/z.gif", 1)]
  | Raise _ => False
  end.
Proof. vm_compute. by split. Qed.

(** ** What happens without classes or with an empty class *)

Lemma in_flat_map_elem_of {A B} (f : A → list B) l y :
  y ∈ flat_map f l ↔ ∃ x, x ∈ l ∧ y ∈ f x.
Proof.
  rewrite list_elem_of_In, in_flat_map. split.
  - intros (x & Hx & Hy). exists x. by rewrite !list_elem_of_In.
  - intros (x & Hx & Hy). exists x. by rewrite <- !list_elem_of_In.
Qed.

(** Every entry of a catalog carries the index of the class it was found
    under. *)
Lemma catalog_entry_class dir es ds path idx :
  NoDup (entry_name <$> es) →
  CustomImageFolder dir (Some es) = Ok ds →
  (path, idx) ∈ samples ds →
  ∃ name, classes ds !! idx = Some name ∧
          (path, idx) ∈ class_samples dir es (class_to_idx ds) name.
Proof.
  intros Hnames Hds Hin.
  destruct (catalog_build dir es Hnames)
    as (ds' & Hds' & _ & Hidx & Hnd & Hsamples).
  rewrite Hds in Hds'. injection Hds' as <-.
  rewrite Hsamples in Hin.
  apply in_flat_map_elem_of in Hin as (name & [i Hi]%list_elem_of_lookup & Hin).
  pose proof Hin as Hin'.
  rewrite Hidx, (class_samples_at dir es _ i name Hnd Hi) in Hin'.
  unfold listing_entries in Hin'.
  apply list_elem_of_fmap in Hin' as (rf & [= _ ->] & _).
  by exists name.
Qed.

Lemma catalog_labels_in_range dir es ds :
  NoDup (entry_name <$> es) →
  CustomImageFolder dir (Some es) = Ok ds →
  Forall (λ l, l < length (classes ds)) (labels_of ds).
Proof.
  intros Hnames Hds. unfold labels_of. apply Forall_fmap, Forall_forall.
  intros [path idx] Hin. simpl.
  destruct (catalog_entry_class dir es ds path idx Hnames Hds Hin)
    as (name & Hname & _).
  by eapply lookup_lt_Some.
Qed.

Lemma catalog_empty_class dir es ds i name :
  NoDup (entry_name <$> es) →
  CustomImageFolder dir (Some es) = Ok ds →
  classes ds !! i = Some name →
  filter (λ rf, qualifying rf) (class_files dir es name) = [] →
  class_count ds i = 0.
Proof.
  intros Hnames Hds Hi Hnone.
  destruct (catalog_build dir es Hnames)
    as (ds' & Hds' & _ & Hidx & Hnd & _).
  rewrite Hds in Hds'. injection Hds' as <-.
  pose proof (class_samples_at dir es _ i name Hnd Hi) as Heq.
  rewrite <- Hidx in Heq.
  pose proof (class_listing_files dir es name) as Hfiles.
  rewrite Hnone in Hfiles. apply Permutation_nil_r in Hfiles.
  unfold listing_entries in Heq. rewrite Hfiles in Heq.
  unfold class_count.
  destruct (np_where_eq (labels_of ds) i) as [|j js] eqn:Hw; [done|].
  exfalso.
  assert (j ∈ np_where_eq (labels_of ds) i) as Hj by (rewrite Hw; by left).
  apply elem_of_np_where_eq, getitem_label in Hj as [path Hp].
  unfold __getitem__ in Hp.
  destruct (samples ds !! j) as [item|] eqn:Hitem; [|done].
  injection Hp as ->. apply list_elem_of_lookup_2 in Hitem.
  destruct (catalog_entry_class dir es ds path i Hnames Hds Hitem)
    as (name' & Hname' & Hin).
  rewrite Hi in Hname'. injection Hname' as <-.
  rewrite Heq in Hin. by apply elem_of_nil in Hin.
Qed.

(** With labels that fit the class list, a call can only raise
    [ValueError]. *)
Lemma loaders_of_raise_ValueError ds bs k g e :
  Forall (λ l, l < length (classes ds)) (labels_of ds) →
  loaders_of ds bs k g = Raise e → e = ValueError.
Proof.
  intros Hlab. unfold loaders_of, print_class_counts.
  rewrite (bool_decide_eq_true_2 _ Hlab). cbn.
  destruct (balanced_indices ds k g) as [[pool g1]|e'] eqn:Hpool.
  2:{ apply balanced_loop_raise in Hpool as (-> & _). cbn. congruence. }
  cbn. pose proof (balanced_indices_in_range _ _ _ _ _ Hpool) as Hrange.
  pose proof (shuffle_perm pool g1) as Hperm.
  destruct (shuffle pool g1) as [shuffled g2]. simpl in Hperm.
  rewrite <- Hperm in Hrange.
  unfold mk_loader. destruct (bs =? 0) eqn:E; [cbn; congruence|].
  cbn.
  rewrite (mapM_result_ok _ (λ i, default 0 (labels_of ds !! i))).
  2:{ eapply Forall_impl; [exact Hrange|]. intros i (c & _ & Hi). cbv beta.
      rewrite Hi. apply getitem_label in Hi as [path ->]. done. }
  cbn. rewrite bool_decide_eq_true_2; [done|].
  apply Forall_fmap. eapply Forall_impl; [exact Hrange|].
  intros i (c & Hc & Hi). unfold compose. by rewrite Hi.
Qed.

Lemma balanced_indices_empty_class ds k g c :
  c < length (classes ds) → class_count ds c = 0 → 0 < k →
  balanced_indices ds k g = Raise ValueError.
Proof.
  intros Hc H0 Hk.
  destruct (balanced_indices ds k g) as [[pool g']|e] eqn:Hpool.
  - exfalso. apply balanced_indices_ok in Hpool as (parts & _ & HF & _).
    assert (seq 0 (length (classes ds)) !! c = Some c) as Hlook
      by (by apply lookup_seq).
    destruct (Forall2_lookup_l _ _ _ _ _ HF Hlook)
      as (part & _ & _ & _ & _ & [?|?]); lia.
  - by apply balanced_loop_raise in Hpool as (-> & _).
Qed.

Lemma loader_len_nil dl : dl_sampler dl = [] → loader_len dl = 0.
Proof.
  unfold loader_len. intros ->. simpl.
  destruct (dl_batch_size dl) as [|n]; [done|].
  apply Nat.div_small. lia.
Qed.

(** ** Batches *)

Lemma batch_sampler_length bs acc l :
  0 < bs → length acc < bs →
  length (batch_sampler bs acc l) = (length acc + length l + bs - 1) / bs.
Proof.
  intros Hbs. revert acc. induction l as [|x l IH]; intros acc Hacc.
  - cbn [batch_sampler length]. rewrite Nat.add_0_r.
    destruct acc as [|a acc]; cbn [length].
    + rewrite bool_decide_eq_false_2 by lia. simpl.
      symmetry. apply Nat.div_small. lia.
    + rewrite bool_decide_eq_true_2 by lia. simpl length in *.
      apply (Nat.div_unique _ _ _ (length acc)); lia.
  - cbn [batch_sampler]. rewrite length_app. cbn [length].
    destruct (length acc + 1 =? bs) eqn:E;
      [apply Nat.eqb_eq in E|apply Nat.eqb_neq in E].
    + cbn [length]. rewrite (IH []) by (simpl; lia). cbn [length].
      replace (length acc + S (length l) + bs - 1)
        with (1 * bs + (0 + length l + bs - 1)) by lia.
      rewrite Nat.div_add_l by lia. lia.
    + rewrite IH by (rewrite length_app; simpl; lia).
      rewrite length_app. cbn [length]. f_equal. lia.
Qed.

Lemma shuffle_length {A} (x : list A) g : length (shuffle x g).1 = length x.
Proof. apply Permutation_length, shuffle_perm. Qed.

Lemma batch_sampler_length_indep bs l : ∀ l' acc acc',
  length l = length l' → length acc = length acc' →
  length (batch_sampler bs acc l) = length (batch_sampler bs acc' l').
Proof.
  induction l as [|x l IH]; intros [|x' l'] acc acc' Hl Hacc;
    simplify_eq/=.
  - rewrite Hacc. by repeat case_bool_decide.
  - rewrite !length_app, Hacc. simpl.
    destruct (length acc' + 1 =? bs); simpl; [f_equal|];
      apply IH; rewrite ?length_app; simpl; lia.
Qed.

Lemma loader_iter_batches dl g :
  length (loader_iter dl g).1 = batches_per_epoch dl.
Proof.
  unfold loader_iter, batches_per_epoch.
  pose proof (shuffle_length (dl_sampler dl) g) as Hl.
  destruct (shuffle (dl_sampler dl) g) as [order g']. simpl in *.
  by apply batch_sampler_length_indep.
Qed.

Lemma batches_per_epoch_len dl :
  0 < dl_batch_size dl → batches_per_epoch dl = loader_len dl.
Proof.
  intros Hbs. unfold batches_per_epoch, loader_len.
  rewrite batch_sampler_length by (simpl; lia). done.
Qed.

Lemma batch_sampler_elements bs acc l :
  ∀ b i, b ∈ batch_sampler bs acc l → i ∈ b → i ∈ acc ∨ i ∈ l.
Proof.
  revert acc. induction l as [|x l IH]; intros acc b i Hb Hi.
  - cbn [batch_sampler] in Hb. case_bool_decide; [|by apply elem_of_nil in Hb].
    apply list_elem_of_singleton in Hb as ->. by left.
  - cbn [batch_sampler] in Hb.
    destruct (length (acc ++ [x]) =? bs).
    + apply elem_of_cons in Hb as [->|Hb].
      * apply elem_of_app in Hi as [?|Hx]; [by left|right].
        apply list_elem_of_singleton in Hx as ->. by left.
      * destruct (IH [] b i Hb Hi) as [H|H]; [by apply elem_of_nil in H|].
        right. by right.
    + destruct (IH _ b i Hb Hi) as [H|H].
      * apply elem_of_app in H as [?|Hx]; [by left|right].
        apply list_elem_of_singleton in Hx as ->. by left.
      * right. by right.
Qed.

Lemma loader_iter_elements dl g :
  ∀ b i, b ∈ (loader_iter dl g).1 → i ∈ b → i ∈ dl_sampler dl.
Proof.
  intros b i. unfold loader_iter.
  pose proof (shuffle_perm (dl_sampler dl) g) as Hp.
  destruct (shuffle (dl_sampler dl) g) as [order g']. simpl in *.
  intros Hb Hi. destruct (batch_sampler_elements _ _ _ _ _ Hb Hi) as [H|H].
  - by apply elem_of_nil in H.
  - by rewrite <- Hp.
Qed.

(** ** Traces of the training loop *)

Lemma count_events_app {W} (p : event W → bool) t1 t2 :
  count_events p (t1 ++ t2) = count_events p t1 + count_events p t2.
Proof. unfold count_events. by rewrite filter_app, length_app. Qed.

Lemma count_events_cons {W} (p : event W → bool) e t :
  count_events p (e :: t) = (if p e then 1 else 0) + count_events p t.
Proof.
  unfold count_events. rewrite filter_cons.
  destruct (p e) eqn:E; simpl; [|done].
  destruct (decide (Is_true true)) as [|[]]; done.
Qed.

Lemma val_losses_app {W} (t1 t2 : list (event W)) :
  val_losses (t1 ++ t2) = val_losses t1 ++ val_losses t2.
Proof. apply omap_app. Qed.

Lemma disk_writes_app {W} (t1 t2 : list (event W)) :
  disk_writes (t1 ++ t2) = disk_writes t1 ++ disk_writes t2.
Proof. apply omap_app. Qed.

Lemma best_checkpoints_app {W} (t1 t2 : list (event W)) :
  best_checkpoints (t1 ++ t2) = best_checkpoints t1 ++ best_checkpoints t2.
Proof. unfold best_checkpoints. by rewrite disk_writes_app, omap_app. Qed.

Lemma monitor_run_app {W} s (t1 t2 : list (event W)) :
  monitor_run s (t1 ++ t2)
  = match monitor_run s t1 with
    | Some s' => monitor_run s' t2
    | None => None
    end.
Proof.
  revert s. induction t1 as [|e t1 IH]; intros s; [done|].
  simpl. destruct (monitor_step s e); [apply IH|done].
Qed.

Lemma phase_ok_nil {W} training : phase_ok (W := W) training 0 [].
Proof.
  unfold phase_ok. split_and!; [by destruct training..|done|done|].
  intros s ? ?. by exists s.
Qed.

Lemma phase_ok_app {W} training n1 n2 (t1 t2 : list (event W)) :
  phase_ok training n1 t1 → phase_ok training n2 t2 →
  phase_ok training (n1 + n2) (t1 ++ t2).
Proof.
  intros (Hs1 & Hb1 & Hv1 & Hc1 & Hm1) (Hs2 & Hb2 & Hv2 & Hc2 & Hm2).
  unfold phase_ok.
  rewrite !count_events_app, val_losses_app, disk_writes_app.
  rewrite Hs1, Hs2, Hb1, Hb2, Hv1, Hv2, Hc1, Hc2.
  split_and!; [by destruct training..|done|done|].
  intros s Ht Hd. destruct (Hm1 s Ht Hd) as (s1 & Hr1 & Ht1 & Hd1).
  destruct (Hm2 s1 Ht1 Hd1) as (s2 & Hr2 & Ht2 & Hd2).
  exists s2. by rewrite monitor_run_app, Hr1.
Qed.

Section TrainingFacts.
Context {M W : Type} (ops : collaborators M W).

Lemma train_batch_events ds epoch nb acc b acc' evs :
  train_batch ops ds epoch nb acc b = Ok (acc', evs) →
  ∃ inputs loss lr step,
    fetch ds b.2 = Ok inputs ∧
    evs = [ZeroGrad; Forward true inputs; Backward; OptimizerStep;
           SchedulerStep; AddScalar "Training Loss" loss step;
           AddScalar "Learning Rate" lr step].
Proof.
  unfold train_batch. destruct acc as [[m rl] rc], b as [bi idxs].
  destruct (fetch ds idxs) as [inputs|] eqn:Hf; [|done]. cbn.
  destruct (forward ops true (zero_grad ops m) inputs) as [[m' loss] c].
  intros [= <- <-]. by eexists inputs, _, _, _.
Qed.

Lemma train_batch_phase ds epoch nb acc b acc' evs :
  train_batch ops ds epoch nb acc b = Ok (acc', evs) →
  phase_ok true 1 evs.
Proof.
  intros (inputs & loss & lr & step & _ & ->)%train_batch_events.
  unfold phase_ok. split_and!; [done..|].
  intros [t d a] Ht Hd. simpl in *. subst. by eexists.
Qed.

Lemma val_batch_phase ds acc idxs acc' evs :
  val_batch ops ds acc idxs = Ok (acc', evs) → phase_ok false 0 evs.
Proof.
  unfold val_batch. destruct acc as [[m vl] vc].
  destruct (fetch ds idxs) as [inputs|]; [|done]. cbn.
  destruct (forward ops false m inputs) as [[m' loss] c].
  intros [= <- <-]. unfold phase_ok. split_and!; [done..|].
  intros [t d a] Ht Hd. simpl in *. subst. by eexists.
Qed.

Lemma train_loop_phase ds epoch nb l acc acc' evs :
  run_loop (train_batch ops ds epoch nb) acc l = Ok (acc', evs) →
  phase_ok true (length l) evs.
Proof.
  revert acc acc' evs. induction l as [|b l IH]; intros acc acc' evs Hrun.
  - injection Hrun as <- <-. apply phase_ok_nil.
  - cbn [run_loop] in Hrun.
    destruct (train_batch ops ds epoch nb acc b) as [[acc1 e1]|] eqn:Hb;
      [|done]. cbn in Hrun.
    destruct (run_loop _ acc1 l) as [[acc2 e2]|] eqn:Hl; [|done].
    injection Hrun as <- <-.
    apply (phase_ok_app true 1 (length l)).
    + by eapply train_batch_phase.
    + by eapply IH.
Qed.

Lemma val_loop_phase ds l acc acc' evs :
  run_loop (val_batch ops ds) acc l = Ok (acc', evs) →
  phase_ok false 0 evs.
Proof.
  revert acc acc' evs. induction l as [|b l IH]; intros acc acc' evs Hrun.
  - injection Hrun as <- <-. apply phase_ok_nil.
  - cbn [run_loop] in Hrun.
    destruct (val_batch ops ds acc b) as [[acc1 e1]|] eqn:Hb; [|done].
    cbn in Hrun.
    destruct (run_loop _ acc1 l) as [[acc2 e2]|] eqn:Hl; [|done].
    injection Hrun as <- <-.
    apply (phase_ok_app false 0 0).
    + by eapply val_batch_phase.
    + by eapply IH.
Qed.

(** The steps of one successful epoch. *)
Lemma epoch_body_inv tl vl st epoch st' evs :
  epoch_body ops tl vl st epoch = Ok (st', evs) →
  ∃ tev vev epoch_loss epoch_acc v val_acc m2 g2,
    phase_ok true (batches_per_epoch tl) tev ∧
    phase_ok false 0 vev ∧
    0 < __len__ (dl_dataset tl) ∧ 0 < __len__ (dl_dataset vl) ∧
    evs = ([ModelTrain] ++ tev ++
           [AddScalar "Epoch Training Loss" epoch_loss epoch;
            AddScalar "Epoch Training Accuracy" epoch_acc epoch;
            ModelEval] ++ vev ++
           [AddScalar "Validation Loss" v epoch;
            AddScalar "Validation Accuracy" val_acc epoch]) ++
          (if (v <? best_loss st)%float
           then [TorchSave (BestModel epoch v) (state_dict ops m2)]
           else []) ∧
    st' = {| ts_model := m2; ts_rng := g2;
             best_model_wts :=
               if (v <? best_loss st)%float then state_dict ops m2
               else best_model_wts st;
             best_loss :=
               if (v <? best_loss st)%float then v else best_loss st |}.
Proof.
  unfold epoch_body.
  destruct (loader_iter tl (ts_rng st)) as [batches g1] eqn:Hit.
  destruct (run_loop _ _ _) as [[[[m1 rl] rc] tev]|] eqn:Htrain; [|done].
  cbn. unfold float_div_int, int_div_int.
  destruct (__len__ (dl_dataset tl) =? 0) eqn:Hlen; [done|].
  apply Nat.eqb_neq in Hlen. cbn.
  destruct (loader_iter vl g1) as [vbatches g2] eqn:Hvit.
  destruct (run_loop _ _ vbatches) as [[[[m2 vls] vc] vev]|] eqn:Hval;
    [|done].
  cbn. destruct (__len__ (dl_dataset vl) =? 0) eqn:Hvlen; [done|].
  apply Nat.eqb_neq in Hvlen. cbn.
  intros Hres.
  apply train_loop_phase in Htrain. rewrite length_imap in Htrain.
  pose proof (loader_iter_batches tl (ts_rng st)) as Hnb.
  rewrite Hit in Hnb. simpl in Hnb. rewrite Hnb in Htrain.
  apply val_loop_phase in Hval.
  exists tev, vev,
    (rl / float_of_nat (__len__ (dl_dataset tl)))%float,
    (float_of_nat rc / float_of_nat (__len__ (dl_dataset tl)))%float,
    (vls / float_of_nat (__len__ (dl_dataset vl)))%float,
    (float_of_nat vc / float_of_nat (__len__ (dl_dataset vl)))%float, m2, g2.
  split_and!; [done|done|lia|lia|..].
  - destruct (_ <? _)%float; injection Hres as <- <-;
      rewrite ?app_nil_r; reflexivity.
  - destruct (_ <? _)%float; by injection Hres as <- <-.
Qed.

End TrainingFacts.

(** ** Order of floats *)

Lemma SFltb_irrefl x : SFltb x x = false.
Proof.
  unfold SFltb, SFcompare.
  destruct x as [s|s| |s m e]; try (by destruct s).
  - reflexivity.
  - rewrite Z.compare_refl.
    change (Pos.compare_cont Eq m m) with (Pos.compare m m).
    rewrite Pos.compare_refl. by destruct s.
Qed.

Ltac order_cases :=
  repeat match goal with
    | H : context [Z.compare ?a ?b] |- _ =>
        destruct (Z.compare_spec a b); subst
    | |- context [Z.compare ?a ?b] =>
        destruct (Z.compare_spec a b); subst
    | H : context [Pos.compare_cont Eq ?a ?b] |- _ =>
        change (Pos.compare_cont Eq a b) with (Pos.compare a b) in H;
        destruct (Pos.compare_spec a b); subst
    | |- context [Pos.compare_cont Eq ?a ?b] =>
        change (Pos.compare_cont Eq a b) with (Pos.compare a b);
        destruct (Pos.compare_spec a b); subst
    end.

Lemma SFltb_trans x y z :
  SFltb x y = true → SFltb y z = true → SFltb x z = true.
Proof.
  unfold SFltb, SFcompare.
  destruct x as [sx|sx| |sx mx ex], y as [sy|sy| |sy my ey],
    z as [sz|sz| |sz mz ez];
    try destruct sx; try destruct sy; try destruct sz;
    try discriminate; try reflexivity;
    intros H1 H2; order_cases; simpl in *;
    try discriminate; try reflexivity; try lia.
Qed.

Lemma float_ltb_irrefl (x : float) : (x <? x)%float = false.
Proof. rewrite ltb_spec. apply SFltb_irrefl. Qed.

Lemma float_ltb_trans (x y z : float) :
  (x <? y)%float = true → (y <? z)%float = true → (x <? z)%float = true.
Proof. rewrite !ltb_spec. apply SFltb_trans. Qed.

Lemma not_above_trans x y z : not_above x y → not_above y z → not_above x z.
Proof.
  intros [->|Hxy] [->|Hyz]; [by left|by right|by right|].
  right. by eapply float_ltb_trans.
Qed.

Lemma below_not_above x y z :
  (x <? y)%float = true → not_above y z → (x <? z)%float = true.
Proof. intros Hxy [->|Hyz]; [done|]. by eapply float_ltb_trans. Qed.

Lemma not_below_not_above v x y :
  (v <? y)%float = false → not_above x y → (v <? x)%float = false.
Proof.
  intros Hvy Hxy. destruct (v <? x)%float eqn:Hvx; [|done].
  by rewrite (below_not_above v x y Hvx Hxy) in Hvy.
Qed.

Lemma expected_saves_app best l1 l2 :
  expected_saves best (l1 ++ l2)
  = expected_saves best l1 ++ expected_saves (running_best best l1) l2.
Proof.
  revert best. induction l1 as [|v l1 IH]; intros best; [done|].
  simpl. destruct (v <? best)%float; simpl; by rewrite IH.
Qed.

Lemma running_best_app best l1 l2 :
  running_best best (l1 ++ l2) = running_best (running_best best l1) l2.
Proof. revert best. induction l1 as [|v l1 IH]; intros best; [done|]. apply IH. Qed.

(** ** The loop over epochs *)

Section EpochFacts.
Context {M W : Type}.

Lemma epochs_ok_nil tl (st : @train_state M W) : epochs_ok tl st st 0 [].
Proof.
  unfold epochs_ok. simpl.
  split_and!; try done; try (by constructor); try (by left).
  intros s ?. by exists s.
Qed.

Lemma epochs_ok_app tl (st st1 st2 : @train_state M W) n1 n2 e1 e2 :
  epochs_ok tl st st1 n1 e1 → epochs_ok tl st1 st2 n2 e2 →
  epochs_ok tl st st2 (n1 + n2) (e1 ++ e2).
Proof.
  intros (Hs1 & Hb1 & Hm1 & Hl1 & He1 & Hr1 & Hlt1 & Hge1 & Hd1 & Hna1 & Hv1
          & Hlast1 & Hin1)
         (Hs2 & Hb2 & Hm2 & Hl2 & He2 & Hr2 & Hlt2 & Hge2 & Hd2 & Hna2 & Hv2
          & Hlast2 & Hin2).
  unfold epochs_ok. cbn zeta.
  rewrite !count_events_app, val_losses_app, best_checkpoints_app, !fmap_app.
  split_and!.
  - lia.
  - lia.
  - intros s Hd. destruct (Hm1 s Hd) as (s1 & Hrun1 & Hd1').
    destruct (Hm2 s1 Hd1') as (s2 & Hrun2 & Hd2').
    exists s2. by rewrite monitor_run_app, Hrun1.
  - rewrite length_app. lia.
  - by rewrite expected_saves_app, <- Hr1, He1, He2.
  - by rewrite running_best_app, <- Hr1.
  - apply Forall_app. split; [done|].
    eapply Forall_impl; [exact Hlt2|]. intros l Hl. simpl in *.
    by eapply below_not_above.
  - apply Forall_app. split; [|done].
    eapply Forall_impl; [exact Hge1|]. intros l Hl. simpl in *.
    by eapply not_above_trans.
  - apply StronglySorted_app. split_and!; [|done|done].
    intros x1 x2 Hx1 Hx2. rewrite Forall_forall in Hlt2, Hge1.
    eapply below_not_above; [by apply Hlt2|by apply Hge1].
  - by eapply not_above_trans.
  - apply Forall_app. split; [|done].
    eapply Forall_impl; [exact Hv1|]. intros v Hv. simpl in *.
    by eapply not_below_not_above.
  - destruct (best_checkpoints e2) as [|c2 cs2] eqn:Hc2 using rev_ind.
    + rewrite app_nil_r. destruct Hlast2 as [Hbl Hbw]. simpl in Hbl, Hbw.
      rewrite Hbl, Hbw. exact Hlast1.
    + rewrite app_assoc, last_snoc. by rewrite last_snoc in Hlast2.
  - apply Forall_app. split.
    + eapply Forall_impl; [exact Hin1|]. intros c Hc. simpl in *.
      apply elem_of_app. by left.
    + eapply Forall_impl; [exact Hin2|]. intros c Hc. simpl in *.
      apply elem_of_app. by right.
Qed.

End EpochFacts.

Section LoopFacts.
Context {M W : Type} (ops : collaborators M W).

Lemma epoch_body_ok tl vl st epoch st' evs :
  epoch_body ops tl vl st epoch = Ok (st', evs) →
  epochs_ok tl st st' 1 evs ∧
  0 < __len__ (dl_dataset tl) ∧ 0 < __len__ (dl_dataset vl) ∧
  ∃ v, val_losses evs = [v] ∧
       AddScalar "Validation Loss" v epoch ∈ evs ∧
       disk_writes evs
       = (if (v <? best_loss st)%float
          then [(BestModel epoch v, state_dict ops (ts_model st'))]
          else []) ∧
       best_loss st' = (if (v <? best_loss st)%float then v else best_loss st) ∧
       best_model_wts st'
       = (if (v <? best_loss st)%float then state_dict ops (ts_model st')
          else best_model_wts st).
Proof.
  intros Hrun.
  apply epoch_body_inv in Hrun
    as (tev & vev & el & ea & v & va & m2 & g2 & Htr & Hva & Hl1 & Hl2
        & -> & ->).
  destruct Htr as (Hts & Htb & Htv & Htc & Htm).
  destruct Hva as (Hvs & Hvb & Hvv & Hvc & Hvm).
  assert (AddScalar "Validation Loss" v epoch
            ∈ ([ModelTrain] ++ tev ++
               [AddScalar "Epoch Training Loss" el epoch;
                AddScalar "Epoch Training Accuracy" ea epoch; ModelEval]
               ++ vev ++
               [AddScalar "Validation Loss" v epoch;
                AddScalar "Validation Accuracy" va epoch]) ++
              (if (v <? best_loss st)%float
               then [TorchSave (BestModel epoch v) (state_dict ops m2)]
               else @nil (event W))) as Hin.
  { rewrite !elem_of_app. left. right. right. right. right. by left. }
  assert (val_losses
            (([ModelTrain] ++ tev ++
              [AddScalar "Epoch Training Loss" el epoch;
               AddScalar "Epoch Training Accuracy" ea epoch; ModelEval]
              ++ vev ++
              [AddScalar "Validation Loss" v epoch;
               AddScalar "Validation Accuracy" va epoch]) ++
             (if (v <? best_loss st)%float
              then [TorchSave (BestModel epoch v) (state_dict ops m2)]
              else @nil (event W))) = [v]) as Hvl.
  { rewrite !val_losses_app, Htv, Hvv. by destruct (v <? best_loss st)%float. }
  assert (disk_writes
            (([ModelTrain] ++ tev ++
              [AddScalar "Epoch Training Loss" el epoch;
               AddScalar "Epoch Training Accuracy" ea epoch; ModelEval]
              ++ vev ++
              [AddScalar "Validation Loss" v epoch;
               AddScalar "Validation Accuracy" va epoch]) ++
             (if (v <? best_loss st)%float
              then [TorchSave (BestModel epoch v) (state_dict ops m2)]
              else @nil (event W)))
          = (if (v <? best_loss st)%float
             then [(BestModel epoch v, state_dict ops m2)] else [])) as Hck.
  { rewrite !disk_writes_app, Htc, Hvc.
    by destruct (v <? best_loss st)%float. }
  split; [|split_and!; [done|done|]; exists v; by split_and!].
  unfold epochs_ok, best_checkpoints. cbn zeta. rewrite Hvl, Hck.
  cbn [best_loss best_model_wts].
  split_and!.
  - rewrite !count_events_app, Hts, Hvs.
    destruct (v <? best_loss st)%float; rewrite !count_events_cons;
      unfold count_events; simpl; lia.
  - rewrite !count_events_app, Htb, Hvb.
    destruct (v <? best_loss st)%float; rewrite !count_events_cons;
      unfold count_events; simpl; lia.
  - intros [t d a] Hd. simpl in Hd. subst d.
    rewrite monitor_run_app. cbn [app monitor_run monitor_step step_due].
    rewrite monitor_run_app.
    destruct (Htm {| in_training := true; step_due := false;
                     after_optimizer := false |} eq_refl eq_refl)
      as ([t1 d1 a1] & -> & Ht1 & Hd1). simpl in Ht1, Hd1. subst.
    cbn [app monitor_run monitor_step step_due in_training].
    rewrite monitor_run_app.
    destruct (Hvm {| in_training := false; step_due := false;
                     after_optimizer := false |} eq_refl eq_refl)
      as ([t2 d2 a2] & -> & Ht2 & Hd2). simpl in Ht2, Hd2. subst.
    cbn [app monitor_run monitor_step step_due in_training].
    destruct (v <? best_loss st)%float; by eexists.
  - done.
  - cbn [expected_saves]. by destruct (v <? best_loss st)%float.
  - done.
  - destruct (v <? best_loss st)%float eqn:Hv; by repeat constructor.
  - destruct (v <? best_loss st)%float eqn:Hv; repeat constructor.
  - destruct (v <? best_loss st)%float eqn:Hv; by repeat constructor.
  - destruct (v <? best_loss st)%float eqn:Hv; [by right|by left].
  - destruct (v <? best_loss st)%float eqn:Hv; repeat constructor; [|done].
    apply float_ltb_irrefl.
  - by destruct (v <? best_loss st)%float.
  - destruct (v <? best_loss st)%float; [|by constructor].
    constructor; [exact Hin|by constructor].
Qed.

(** The loop over [epoch]. *)
Lemma epochs_loop_ok tl vl n : ∀ a st st' evs,
  run_loop (epoch_body ops tl vl) st (seq a n) = Ok (st', evs) →
  epochs_ok tl st st' n evs.
Proof.
  induction n as [|n IH]; intros a st st' evs Hrun.
  - injection Hrun as <- <-. apply epochs_ok_nil.
  - cbn [seq run_loop] in Hrun.
    destruct (epoch_body ops tl vl st a) as [[st1 e1]|] eqn:Hep; [|done].
    cbn in Hrun.
    destruct (run_loop _ st1 (seq (S a) n)) as [[st2 e2]|] eqn:Hrest;
      [|done].
    injection Hrun as <- <-.
    apply (epochs_ok_app tl st st1 st2 1 n).
    + by apply (epoch_body_ok tl vl st a).
    + by eapply IH.
Qed.

End LoopFacts.

(** ** A run that reaches the training loop completes it *)

Section Totality.
Context {M W : Type} (ops : collaborators M W).

Lemma fetch_ok ds idxs :
  Forall (λ i, i < __len__ ds) idxs → ∃ inputs, fetch ds idxs = Ok inputs.
Proof.
  intros Hidx. unfold fetch.
  exists ((λ i, default ("", 0) (samples ds !! i)) <$> idxs).
  apply mapM_result_ok. eapply Forall_impl; [exact Hidx|].
  intros i Hi. cbv beta. unfold __getitem__.
  by destruct (lookup_lt_is_Some_2 _ _ Hi) as [item ->].
Qed.

Lemma train_batch_succeeds ds epoch nb acc (b : nat * list nat) :
  Forall (λ i, i < __len__ ds) b.2 →
  ∃ acc' evs, train_batch ops ds epoch nb acc b = Ok (acc', evs).
Proof.
  intros Hb. unfold train_batch. destruct acc as [[m rl] rc], b as [bi idxs].
  destruct (fetch_ok ds idxs Hb) as [inputs ->]. cbn.
  destruct (forward ops true (zero_grad ops m) inputs) as [[m' loss] c].
  by eexists _, _.
Qed.

Lemma val_batch_succeeds ds acc (b : list nat) :
  Forall (λ i, i < __len__ ds) b →
  ∃ acc' evs, val_batch ops ds acc b = Ok (acc', evs).
Proof.
  intros Hb. unfold val_batch. destruct acc as [[m rl] rc].
  destruct (fetch_ok ds b Hb) as [inputs ->]. cbn.
  destruct (forward ops false m inputs) as [[m' loss] c].
  by eexists _, _.
Qed.

Lemma train_loop_succeeds ds epoch nb l acc :
  Forall (λ b : nat * list nat, Forall (λ i, i < __len__ ds) b.2) l →
  ∃ acc' evs, run_loop (train_batch ops ds epoch nb) acc l = Ok (acc', evs).
Proof.
  intros Hl. revert acc. induction Hl as [|b l Hb _ IH]; intros acc.
  { by eexists _, _. }
  cbn [run_loop].
  destruct (train_batch_succeeds ds epoch nb acc b Hb) as (acc1 & e1 & ->).
  cbn. destruct (IH acc1) as (acc' & evs & ->). cbn. by eexists _, _.
Qed.

Lemma val_loop_succeeds ds l acc :
  Forall (λ b : list nat, Forall (λ i, i < __len__ ds) b) l →
  ∃ acc' evs, run_loop (val_batch ops ds) acc l = Ok (acc', evs).
Proof.
  intros Hl. revert acc. induction Hl as [|b l Hb _ IH]; intros acc.
  { by eexists _, _. }
  cbn [run_loop].
  destruct (val_batch_succeeds ds acc b Hb) as (acc1 & e1 & ->).
  cbn. destruct (IH acc1) as (acc' & evs & ->). cbn. by eexists _, _.
Qed.

Lemma loader_iter_in_range dl g :
  loader_in_range dl →
  Forall (λ b : list nat, Forall (λ i, i < __len__ (dl_dataset dl)) b)
         (loader_iter dl g).1.
Proof.
  intros [_ Hr]. apply Forall_forall. intros b Hb.
  apply Forall_forall. intros i Hi. rewrite Forall_forall in Hr.
  apply Hr. by eapply loader_iter_elements.
Qed.

Lemma epoch_body_succeeds tl vl st epoch :
  loader_in_range tl → loader_in_range vl →
  ∃ st' evs, epoch_body ops tl vl st epoch = Ok (st', evs).
Proof.
  intros Htl Hvl. unfold epoch_body.
  pose proof (loader_iter_in_range tl (ts_rng st) Htl) as Hb.
  destruct (loader_iter tl (ts_rng st)) as [batches g1]. simpl in Hb.
  edestruct (train_loop_succeeds (dl_dataset tl) epoch (loader_len tl)
               (imap (λ i b, (i, b)) batches))
    as ([[m1 rl] rc] & tev & ->).
  { apply Forall_forall. intros [i b] Hin.
    apply elem_of_lookup_imap_1 in Hin as (j & b' & [= -> ->] & Hj).
    rewrite Forall_forall in Hb. apply Hb. by eapply list_elem_of_lookup_2. }
  cbn. unfold float_div_int, int_div_int.
  destruct Htl as [Hlt _], Hvl as [Hlv Hvr].
  destruct (__len__ (dl_dataset tl) =? 0) eqn:E;
    [apply Nat.eqb_eq in E; lia|]. cbn.
  pose proof (loader_iter_in_range vl g1 (conj Hlv Hvr)) as Hvb.
  destruct (loader_iter vl g1) as [vbatches g2]. simpl in Hvb.
  edestruct (val_loop_succeeds (dl_dataset vl) vbatches)
    as ([[m2 vls] vc] & vev & ->); [done|].
  cbn. destruct (__len__ (dl_dataset vl) =? 0) eqn:E';
    [apply Nat.eqb_eq in E'; lia|]. cbn.
  destruct (_ <? _)%float; by eexists _, _.
Qed.

Lemma epochs_loop_succeeds tl vl n : ∀ a st,
  loader_in_range tl → loader_in_range vl →
  ∃ st' evs, run_loop (epoch_body ops tl vl) st (seq a n) = Ok (st', evs).
Proof.
  induction n as [|n IH]; intros a st Htl Hvl; [by eexists _, _|].
  cbn [seq run_loop].
  destruct (epoch_body_succeeds tl vl st a Htl Hvl) as (st1 & e1 & ->). cbn.
  destruct (IH (S a) st1 Htl Hvl) as (st2 & e2 & ->). cbn. by eexists _, _.
Qed.

Lemma train_model_succeeds m tl vl n g :
  loader_in_range tl → loader_in_range vl →
  ∃ m' evs, train_model ops m tl vl n g = Ok (m', evs).
Proof.
  intros Htl Hvl. unfold train_model.
  destruct (epochs_loop_succeeds tl vl n 0 (initial_state ops m g) Htl Hvl)
    as (st & evs & ->). cbn. by eexists _, _.
Qed.

(** The steps of a successful [train_model]. *)
Lemma train_model_inv m tl vl n g m' events :
  train_model ops m tl vl n g = Ok (m', events) →
  ∃ st evs,
    run_loop (epoch_body ops tl vl) (initial_state ops m g) (seq 0 n)
      = Ok (st, evs) ∧
    m' = load_state_dict ops (ts_model st) (best_model_wts st) ∧
    events = evs ++ [LoadStateDict (best_model_wts st)].
Proof.
  unfold train_model.
  destruct (run_loop _ _ _) as [[st evs]|]; [|done]. cbn.
  intros [= <- <-]. by exists st, evs.
Qed.

End Totality.

(** ** [main] *)

Lemma get_data_loaders_inv dir listing bs k g tl vl g' :
  get_data_loaders dir listing bs k g = Ok (tl, vl, g') →
  ∃ es ds, listing = Some es ∧
           CustomImageFolder dir (Some es) = Ok ds ∧
           loaders_of ds bs k g = Ok (tl, vl, g').
Proof.
  unfold get_data_loaders. destruct listing as [es|]; [|done].
  destruct (CustomImageFolder dir (Some es)) as [ds|] eqn:Hds; [|done].
  cbn. intros Hrun. by exists es, ds.
Qed.

Lemma loader_len_pos dl :
  0 < dl_batch_size dl → dl_sampler dl ≠ [] → 0 < loader_len dl.
Proof.
  intros Hbs Hne. unfold loader_len.
  destruct (dl_sampler dl) as [|i l]; [done|]. simpl.
  apply Nat.div_str_pos. lia.
Qed.

Lemma loader_len_pos_inv dl : 0 < loader_len dl → dl_sampler dl ≠ [].
Proof. intros Hpos Hnil. rewrite (loader_len_nil dl Hnil) in Hpos. lia. Qed.

(** The loaders handed to the training loop only hold catalog positions. *)
Lemma loaders_of_in_range ds bs k g tl vl g' :
  loaders_of ds bs k g = Ok (tl, vl, g') →
  dl_sampler tl ≠ [] →
  loader_in_range tl ∧ loader_in_range vl ∧ 0 < dl_batch_size tl.
Proof.
  intros Hrun Hne.
  apply loaders_of_inv in Hrun
    as (pool & g1 & shuffled & Hpool & Hsh & -> & -> & Hbs).
  pose proof (shuffle_perm pool g1) as Hperm. rewrite Hsh in Hperm.
  simpl in Hperm, Hne.
  assert (Forall (λ i, i < __len__ ds) shuffled) as Hall.
  { rewrite Hperm.
    eapply Forall_impl; [exact (balanced_indices_in_range _ _ _ _ _ Hpool)|].
    intros i (c & _ & Hi). exact (label_in_range _ _ _ Hi). }
  assert (0 < __len__ ds) as Hlen.
  { destruct (take _ shuffled) as [|i l] eqn:Ht; [done|].
    assert (i ∈ shuffled) as Hi.
    { eapply elem_of_sublist; [|apply sublist_take]. rewrite Ht. by left. }
    rewrite Forall_forall in Hall. specialize (Hall i Hi). lia. }
  unfold loader_in_range. simpl. split_and!; try done.
  - by apply Forall_take.
  - by apply Forall_drop.
Qed.

Section MainFacts.
Context {M W : Type} (ops : collaborators M W).

Lemma main_inv m dir listing bs k epochs g1 g2 events :
  main ops m dir listing bs k epochs g1 g2 = Ok events →
  ∃ tl vl g' m' tev,
    get_data_loaders dir listing bs k g1 = Ok (tl, vl, g') ∧
    0 < epochs ∧ 0 < loader_len tl ∧ 0 < dl_batch_size tl ∧
    train_model ops m tl vl epochs g2 = Ok (m', tev) ∧
    events = [OneCycleLR epochs (loader_len tl)] ++ tev ++
             [TorchSave FinalModel (state_dict ops m')].
Proof.
  unfold main.
  destruct (get_data_loaders dir listing bs k g1) as [[[tl vl] g']|] eqn:Hdl;
    [|done]. cbn.
  destruct (epochs =? 0) eqn:He; [done|]. apply Nat.eqb_neq in He.
  destruct (loader_len tl =? 0) eqn:Hl; [done|]. apply Nat.eqb_neq in Hl.
  cbn [orb].
  destruct (train_model ops m tl vl epochs g2) as [[m' tev]|] eqn:Htm; [|done].
  cbn. intros [= <-]. exists tl, vl, g', m', tev.
  split_and!; [done|lia|lia| |done|done].
  apply get_data_loaders_inv in Hdl as (es & ds & _ & _ & Hlo).
  destruct (loaders_of_in_range ds bs k g1 tl vl g' Hlo) as (_ & _ & ?);
    [|done].
  apply loader_len_pos_inv. lia.
Qed.

(** A run completes as soon as the loaders exist, an epoch is requested and
    the training list is not empty. *)
Lemma main_succeeds m dir listing bs k epochs g1 g2 tl vl g' :
  get_data_loaders dir listing bs k g1 = Ok (tl, vl, g') →
  0 < epochs → dl_sampler tl ≠ [] →
  ∃ events, main ops m dir listing bs k epochs g1 g2 = Ok events.
Proof.
  intros Hdl He Hne. unfold main. rewrite Hdl. cbn.
  apply get_data_loaders_inv in Hdl as (es & ds & _ & _ & Hlo).
  destruct (loaders_of_in_range ds bs k g1 tl vl g' Hlo Hne)
    as (Htl & Hvl & Hbs).
  pose proof (loader_len_pos tl Hbs Hne) as Hlen.
  destruct (epochs =? 0) eqn:E; [apply Nat.eqb_eq in E; lia|].
  destruct (loader_len tl =? 0) eqn:E'; [apply Nat.eqb_eq in E'; lia|].
  cbn [orb].
  destruct (train_model_succeeds ops m tl vl epochs g2 Htl Hvl)
    as (m' & tev & ->).
  cbn. by eexists.
Qed.

(** When the pool is empty, [main] stops with [ValueError] before the
    training loop. *)
Lemma main_no_training_batch m dir listing bs k epochs g1 g2 tl vl g' :
  get_data_loaders dir listing bs k g1 = Ok (tl, vl, g') →
  dl_sampler tl = [] →
  main ops m dir listing bs k epochs g1 g2 = Raise ValueError.
Proof.
  intros Hdl Hnil. unfold main. rewrite Hdl. cbn.
  rewrite (loader_len_nil tl Hnil). by rewrite orb_true_r.
Qed.

End MainFacts.

(** ** The claims about the training loop *)

(** C5: the best validation loss starts at +infinity; an epoch writes a best
    checkpoint exactly when its validation loss is strictly below the best
    seen so far, and writes nothing to disk otherwise; the losses of the best
    checkpoints of a run, in the order they were written, are strictly
    decreasing. A run of [train_model] only fails on a loader that holds a
    position outside its catalog or whose catalog is empty. *)
Theorem C5_best_checkpoint_rule {M W} (ops : collaborators M W) m tl vl n g :
  best_loss (initial_state ops m g) = infinity ∧
  (∀ st epoch,
     match epoch_body ops tl vl st epoch with
     | Ok (st', evs) =>
         ∃ v, val_losses evs = [v] ∧
              disk_writes evs
              = (if (v <? best_loss st)%float
                 then [(BestModel epoch v, state_dict ops (ts_model st'))]
                 else []) ∧
              best_loss st'
              = (if (v <? best_loss st)%float then v else best_loss st)
     | Raise _ => True
     end) ∧
  match train_model ops m tl vl n g with
  | Ok (_, events) =>
      length (val_losses events) = n ∧
      (best_checkpoints events).*1.*2
        = expected_saves infinity (val_losses events) ∧
      strictly_decreasing (best_checkpoints events).*1.*2
  | Raise _ => ¬ (loader_in_range tl ∧ loader_in_range vl)
  end.
Proof.
  split_and!.
  - done.
  - intros st epoch.
    destruct (epoch_body ops tl vl st epoch) as [[st' evs]|] eqn:Hep; [|done].
    apply epoch_body_ok in Hep as (_ & _ & _ & v & Hv & _ & Hw & Hb & _).
    by exists v.
  - destruct (train_model ops m tl vl n g) as [[m' events]|] eqn:Hrun.
    + apply train_model_inv in Hrun as (st & evs & Hloop & _ & ->).
      apply epochs_loop_ok in Hloop
        as (_ & _ & _ & Hlen & Hexp & _ & _ & _ & Hdec & _).
      rewrite val_losses_app, best_checkpoints_app, !app_nil_r.
      done.
    + intros [Htl Hvl].
      destruct (train_model_succeeds ops m tl vl n g Htl Hvl)
        as (m' & evs & Hok).
      congruence.
Qed.

(** C7: in a run of [main] the schedule is built for
    [num_epochs * len(train_loader)] steps and stepped exactly that many
    times: once per training batch, directly after the optimizer step of
    that batch, and never during validation. The same holds for any call
    of [train_model], counted on the batches its loader produces. *)
Theorem C7_scheduler_steps {M W} (ops : collaborators M W)
    m dir listing bs k epochs g1 g2 :
  (∀ tl vl g,
     match train_model ops m tl vl epochs g with
     | Ok (_, events) =>
         count_events is_scheduler_step events
           = epochs * batches_per_epoch tl ∧
         count_events is_training_batch events
           = epochs * batches_per_epoch tl ∧
         schedule_respected events = true
     | Raise _ => ¬ (loader_in_range tl ∧ loader_in_range vl)
     end) ∧
  match main ops m dir listing bs k epochs g1 g2 with
  | Ok events =>
      ∃ steps_per_epoch,
        head events = Some (OneCycleLR epochs steps_per_epoch) ∧
        count_events is_scheduler_step events = epochs * steps_per_epoch ∧
        count_events is_training_batch events = epochs * steps_per_epoch ∧
        schedule_respected events = true
  | Raise _ =>
      ∀ tl vl g',
        get_data_loaders dir listing bs k g1 = Ok (tl, vl, g') →
        epochs = 0 ∨ dl_sampler tl = []
  end.
Proof.
  assert (∀ tl vl g m' events,
            train_model ops m tl vl epochs g = Ok (m', events) →
            count_events is_scheduler_step events
              = epochs * batches_per_epoch tl ∧
            count_events is_training_batch events
              = epochs * batches_per_epoch tl ∧
            ∀ s, step_due s = false →
                 ∃ s', monitor_run s events = Some s' ∧ step_due s' = false)
    as Htrain.
  { intros tl vl g m' events Hrun.
    apply train_model_inv in Hrun as (st & evs & Hloop & _ & ->).
    apply epochs_loop_ok in Hloop as (Hs & Hb & Hm & _).
    rewrite !count_events_app, Hs, Hb, !count_events_cons.
    unfold count_events at 1 2. simpl. split_and!; [lia|lia|].
    intros s Hd. destruct (Hm s Hd) as ([t d a] & Hrun & Hd').
    simpl in Hd'. subst. rewrite monitor_run_app, Hrun. simpl. by eexists. }
  split.
  - intros tl vl g.
    destruct (train_model ops m tl vl epochs g) as [[m' events]|] eqn:Hrun.
    + destruct (Htrain _ _ _ _ _ Hrun) as (Hs & Hb & Hm).
      split_and!; [done|done|]. unfold schedule_respected.
      destruct (Hm monitor_start eq_refl) as (s' & -> & ->). done.
    + intros [Htl Hvl].
      destruct (train_model_succeeds ops m tl vl epochs g Htl Hvl)
        as (m' & evs & Hok).
      congruence.
  - destruct (main ops m dir listing bs k epochs g1 g2) as [events|] eqn:Hmain.
    + apply main_inv in Hmain
        as (tl & vl & g' & m' & tev & _ & _ & _ & Hbs & Hrun & ->).
      destruct (Htrain _ _ _ _ _ Hrun) as (Hs & Hb & Hm).
      rewrite (batches_per_epoch_len tl Hbs) in Hs, Hb.
      exists (loader_len tl). split_and!; [done|..].
      * rewrite !count_events_app, Hs, !count_events_cons.
        unfold count_events at 1 2. simpl. lia.
      * rewrite !count_events_app, Hb, !count_events_cons.
        unfold count_events at 1 2. simpl. lia.
      * unfold schedule_respected. cbn [app monitor_run monitor_step].
        cbn [monitor_start step_due in_training].
        rewrite monitor_run_app.
        destruct (Hm {| in_training := false; step_due := false;
                        after_optimizer := false |} eq_refl)
          as ([t d a] & -> & Hd). simpl in Hd. subst. done.
    + intros tl vl g' Hdl.
      destruct (decide (epochs = 0)) as [|He]; [by left|right].
      destruct (dl_sampler tl) as [|i l] eqn:Hs; [done|exfalso].
      destruct (main_succeeds ops m dir listing bs k epochs g1 g2 tl vl g' Hdl)
        as (events & Hok); [lia|by rewrite Hs|congruence].
Qed.

Lemma get_data_loaders_of dir es ds bs k g :
  CustomImageFolder dir (Some es) = Ok ds →
  get_data_loaders dir (Some es) bs k g = loaders_of ds bs k g.
Proof. intros Hds. unfold get_data_loaders. by rewrite Hds. Qed.

Lemma loaders_of_pool_empty ds bs k g tl vl g' :
  length (classes ds) * k = 0 →
  loaders_of ds bs k g = Ok (tl, vl, g') →
  dl_sampler tl = [] ∧ dl_sampler vl = [].
Proof.
  intros Hzero Hrun.
  apply loaders_of_inv in Hrun
    as (pool & g1 & shuffled & Hpool & Hsh & -> & -> & _).
  apply balanced_indices_ok in Hpool as (parts & _ & _ & Hlen).
  pose proof (shuffle_perm pool g1) as Hperm. rewrite Hsh in Hperm.
  simpl in Hperm. rewrite Hzero in Hlen.
  apply nil_length_inv in Hlen as ->. apply Permutation_nil_r in Hperm as ->.
  by rewrite take_nil, drop_nil.
Qed.

(** C8: [main] ends by saving as final artifact the parameters that
    [train_model] restored, and these are the parameters of the last best
    checkpoint written, whose validation loss no epoch of the run undercuts;
    when no epoch improved on +infinity they are the parameters the model
    started with. The model's [state_dict] is assumed to return what
    [load_state_dict] stored. *)
Theorem C8_final_artifact_is_best {M W} (ops : collaborators M W)
    m dir listing bs k epochs g1 g2 :
  (∀ m' w, state_dict ops (load_state_dict ops m' w) = w) →
  match main ops m dir listing bs k epochs g1 g2 with
  | Ok events =>
      ∃ final,
        last events = Some (TorchSave FinalModel final) ∧
        LoadStateDict final ∈ events ∧
        length (val_losses events) = epochs ∧
        match last (best_checkpoints events) with
        | Some (e, l, w) =>
            final = w ∧
            AddScalar "Validation Loss" l e ∈ events ∧
            Forall (λ v, (v <? l)%float = false) (val_losses events)
        | None =>
            final = state_dict ops m ∧
            Forall (λ v, (v <? infinity)%float = false) (val_losses events)
        end
  | Raise _ =>
      ∀ tl vl g',
        get_data_loaders dir listing bs k g1 = Ok (tl, vl, g') →
        epochs = 0 ∨ dl_sampler tl = []
  end.
Proof.
  intros Hroundtrip.
  destruct (main ops m dir listing bs k epochs g1 g2) as [events|] eqn:Hmain.
  - apply main_inv in Hmain
      as (tl & vl & g' & m' & tev & _ & _ & _ & _ & Hrun & ->).
    apply train_model_inv in Hrun as (st & evs & Hloop & -> & ->).
    apply epochs_loop_ok in Hloop
      as (_ & _ & _ & Hlen & _ & _ & _ & _ & _ & _ & Hlow & Hlast & Hin).
    rewrite Hroundtrip. exists (best_model_wts st).
    assert (val_losses ([OneCycleLR epochs (loader_len tl)] ++
              (evs ++ [LoadStateDict (best_model_wts st)]) ++
              [TorchSave FinalModel (best_model_wts st)]) = val_losses evs)
      as ->.
    { rewrite !val_losses_app. simpl. by rewrite !app_nil_r. }
    assert (best_checkpoints ([OneCycleLR epochs (loader_len tl)] ++
              (evs ++ [LoadStateDict (best_model_wts st)]) ++
              [TorchSave FinalModel (best_model_wts st)])
            = best_checkpoints evs) as ->.
    { rewrite !best_checkpoints_app. simpl. by rewrite !app_nil_r. }
    split_and!.
    + by rewrite !app_assoc, last_snoc.
    + rewrite !elem_of_app. right. left. right. by left.
    + done.
    + destruct (last (best_checkpoints evs)) as [[[e l] w]|] eqn:Hl.
      * destruct Hlast as [Hbl Hbw]. split_and!; [done| |by rewrite <- Hbl].
        apply last_Some in Hl as [cs Hcs]. rewrite Hcs in Hin.
        apply Forall_app in Hin as [_ Hin]. apply Forall_cons in Hin as [Hin _].
        simpl in Hin. rewrite !elem_of_app. right. left. left. exact Hin.
      * destruct Hlast as [Hbl Hbw]. simpl in Hbl, Hbw.
        split; [done|]. by rewrite <- Hbl.
  - intros tl vl g' Hdl.
    destruct (decide (epochs = 0)) as [|He]; [by left|right].
    destruct (dl_sampler tl) as [|i l] eqn:Hs; [done|exfalso].
    destruct (main_succeeds ops m dir listing bs k epochs g1 g2 tl vl g' Hdl)
      as (events & Hok); [lia|by rewrite Hs|congruence].
Qed.

(** An instance of C8: three epochs over the small tree. *)
Lemma C8_final_artifact_is_best_witness :
  match main example_ops 0 "data/" (Some example_tree) 2 4 3
             example_rng example_rng with
  | Ok events =>
      ∃ final,
        last events = Some (TorchSave FinalModel final) ∧
        LoadStateDict final ∈ events ∧
        length (val_losses events) = 3 ∧
        match last (best_checkpoints events) with
        | Some (e, l, w) =>
            final = w ∧
            AddScalar "Validation Loss" l e ∈ events ∧
            Forall (λ v, (v <? l)%float = false) (val_losses events)
        | None =>
            final = state_dict example_ops 0 ∧
            Forall (λ v, (v <? infinity)%float = false) (val_losses events)
        end
  | Raise _ =>
      ∀ tl vl g',
        get_data_loaders "data/" (Some example_tree) 2 4 example_rng
          = Ok (tl, vl, g') →
        3 = 0 ∨ dl_sampler tl = []
  end.
Proof.
  apply (C8_final_artifact_is_best example_ops 0 "data/" (Some example_tree)
           2 4 3 example_rng example_rng).
  intros m' w. reflexivity.
Defined.

(** C3 (the code departs from the claim): a run over eight images, six for
    training and two for validation, with a model that predicts every label
    and a loss of one half on every batch. The reported figures are the
    totals divided by the size of the catalog: loss 3/8 and accuracy 6/8 in
    training, loss 1/8 and accuracy 2/8 in validation, where the totals
    divided by the number of samples of each subset are 1/2 and 1. *)
Theorem C3_epoch_metrics_divide_by_catalog_size :
  match main example_ops 0 "data/" (Some two_classes_of_four) 2 4 1
             example_rng example_rng with
  | Ok events =>
      samples_seen true events = 6 ∧
      samples_seen false events = 2 ∧
      scalar_values "Training Loss" events = [0.5; 0.5; 0.5]%float ∧
      scalar_values "Epoch Training Loss" events = [0.375%float] ∧
      scalar_values "Epoch Training Accuracy" events = [0.75%float] ∧
      scalar_values "Validation Loss" events = [0.125%float] ∧
      scalar_values "Validation Accuracy" events = [0.25%float] ∧
      ((0 + 0.5 * float_of_nat 2 + 0.5 * float_of_nat 2
          + 0.5 * float_of_nat 2) / float_of_nat 6 = 0.5)%float ∧
      (float_of_nat 6 / float_of_nat 6 = 1)%float
  | Raise _ => False
  end.
Proof. vm_compute. by split_and!. Qed.

Lemma loaders_of_empty_class ds bs k g c :
  Forall (λ l, l < length (classes ds)) (labels_of ds) →
  c < length (classes ds) → class_count ds c = 0 → 0 < k →
  loaders_of ds bs k g = Raise ValueError.
Proof.
  intros Hlab Hc H0 Hk. unfold loaders_of, print_class_counts.
  rewrite (bool_decide_eq_true_2 _ Hlab). cbn.
  by rewrite (balanced_indices_empty_class ds k g c Hc H0 Hk).
Qed.

Section NoCatalogError.
Context {M W : Type} (ops : collaborators M W).

Lemma main_raises m dir listing bs k epochs g1 g2 e :
  get_data_loaders dir listing bs k g1 = Raise e →
  main ops m dir listing bs k epochs g1 g2 = Raise e.
Proof. intros Hdl. unfold main. by rewrite Hdl. Qed.

Lemma main_empty_pool m dir es ds bs k epochs g1 g2 :
  CustomImageFolder dir (Some es) = Ok ds →
  Forall (λ l, l < length (classes ds)) (labels_of ds) →
  length (classes ds) * k = 0 →
  main ops m dir (Some es) bs k epochs g1 g2 = Raise ValueError.
Proof.
  intros Hds Hlab Hzero.
  destruct (get_data_loaders dir (Some es) bs k g1) as [[[tl vl] g']|e]
    eqn:Hdl.
  - eapply main_no_training_batch; [exact Hdl|].
    rewrite (get_data_loaders_of dir es ds bs k g1 Hds) in Hdl.
    by destruct (loaders_of_pool_empty ds bs k g1 tl vl g' Hzero Hdl).
  - rewrite (main_raises m dir (Some es) bs k epochs g1 g2 e Hdl). f_equal.
    rewrite (get_data_loaders_of dir es ds bs k g1 Hds) in Hdl.
    by eapply loaders_of_raise_ValueError.
Qed.

End NoCatalogError.

(** C4 (amended): building the catalog of a readable root directory does not
    raise: without class directories it yields a catalog with no class and
    no entry, and a class directory without qualifying files only leaves its
    class without entries. The run still ends before training, with
    [ValueError]: the sampler raises it for a class without entries when the
    quota is positive, and otherwise [main] raises it because no training
    batch exists. *)
Theorem C4_no_catalog_error {M W} (ops : collaborators M W)
    m dir es bs k epochs g1 g2 :
  NoDup (entry_name <$> es) →
  ∃ ds,
    CustomImageFolder dir (Some es) = Ok ds ∧
    (scandir_dirs es = [] → classes ds = [] ∧ samples ds = []) ∧
    (∀ i name,
       classes ds !! i = Some name →
       filter (λ rf, qualifying rf) (class_files dir es name) = [] →
       class_count ds i = 0 ∧
       (0 < k → get_data_loaders dir (Some es) bs k g1 = Raise ValueError)) ∧
    (scandir_dirs es = [] ∨
     (∃ i name, classes ds !! i = Some name ∧
                filter (λ rf, qualifying rf) (class_files dir es name) = []) →
     main ops m dir (Some es) bs k epochs g1 g2 = Raise ValueError).
Proof.
  intros Hnames.
  destruct (catalog_build dir es Hnames)
    as (ds & Hds & Hcls & _ & _ & Hsamples).
  exists ds. split; [done|].
  pose proof (catalog_labels_in_range dir es ds Hnames Hds) as Hlab.
  assert (scandir_dirs es = [] → classes ds = [] ∧ samples ds = []) as Hnone.
  { intros Hd. rewrite Hd in Hcls.
    split; [done|]. by rewrite Hsamples, Hcls. }
  assert (∀ i name,
            classes ds !! i = Some name →
            filter (λ rf, qualifying rf) (class_files dir es name) = [] →
            class_count ds i = 0 ∧
            (0 < k → get_data_loaders dir (Some es) bs k g1
                     = Raise ValueError)) as Hempty.
  { intros i name Hi Hq.
    pose proof (catalog_empty_class dir es ds i name Hnames Hds Hi Hq) as H0.
    split; [done|]. intros Hk.
    rewrite (get_data_loaders_of dir es ds bs k g1 Hds).
    apply (loaders_of_empty_class ds bs k g1 i); try done.
    by eapply lookup_lt_Some. }
  split_and!; [done|done|].
  intros [Hd|(i & name & Hi & Hq)].
  - apply (main_empty_pool ops m dir es ds); [done|done|].
    destruct (Hnone Hd) as [-> _]. done.
  - destruct (decide (k = 0)) as [->|Hk].
    + apply (main_empty_pool ops m dir es ds); [done|done|lia].
    + apply main_raises. apply (Hempty i name Hi Hq). lia.
Qed.

(** An instance of C4 on a tree with a class directory without images. *)
Lemma C4_no_catalog_error_witness :
  ∃ ds,
    CustomImageFolder "data/" (Some tree_with_empty_class) = Ok ds ∧
    (scandir_dirs tree_with_empty_class = [] →
     classes ds = [] ∧ samples ds = []) ∧
    (∀ i name,
       classes ds !! i = Some name →
       filter (λ rf, qualifying rf)
              (class_files "data/" tree_with_empty_class name) = [] →
       class_count ds i = 0 ∧
       (0 < 4 → get_data_loaders "data/" (Some tree_with_empty_class) 2 4
                                  example_rng = Raise ValueError)) ∧
    (scandir_dirs tree_with_empty_class = [] ∨
     (∃ i name, classes ds !! i = Some name ∧
                filter (λ rf, qualifying rf)
                       (class_files "data/" tree_with_empty_class name) = []) →
     main example_ops 0 "data/" (Some tree_with_empty_class) 2 4 3
          example_rng example_rng = Raise ValueError).
Proof.
  apply (C4_no_catalog_error example_ops 0 "data/" tree_with_empty_class
           2 4 3 example_rng example_rng).
  apply (bool_decide_unpack _). vm_compute. exact I.
Defined.

(** C4, as stated, fails: the catalog of a root without class directories,
    and that of a root whose only class directory holds no image, are built
    without any error. *)
Lemma C4_counterexample :
  CustomImageFolder "data/" (Some [])
  = Ok {| root := "data/"; classes := []; class_to_idx := ∅;
          samples := [] |} ∧
  match CustomImageFolder "data/" (Some [Dir "ash" [File "notes.txt"]]) with
  | Ok ds => classes ds = ["ash"] ∧ samples ds = []
  | Raise _ => False
  end.
Proof. vm_compute. by split_and!. Qed.

(** * Further properties of the script

    Properties read off the code that the written specification does not
    state: the layout of the catalog, the outcome of the sampler, the
    failures of the training loop and the records it leaves. *)

(** ** The catalog and the order of the root listing *)

Lemma NoDup_fmap_elem_eq {A B} (f : A → B) (l : list A) x y :
  NoDup (f <$> l) → x ∈ l → y ∈ l → f x = f y → x = y.
Proof.
  intros Hnd [i Hi]%list_elem_of_lookup [j Hj]%list_elem_of_lookup Heq.
  assert (i = j) as ->.
  { apply (NoDup_lookup (f <$> l) i j (f x) Hnd);
      rewrite list_lookup_fmap; [by rewrite Hi|by rewrite Hj, Heq]. }
  rewrite Hj in Hi. by injection Hi.
Qed.

Lemma lookup_dir_perm es es' n :
  NoDup (entry_name <$> es) → es' ≡ₚ es → lookup_dir n es' = lookup_dir n es.
Proof.
  intros Hnd Hp.
  assert (NoDup (entry_name <$> es')) as Hnd' by (by rewrite Hp).
  unfold lookup_dir at 2.
  destruct (list_find (λ e, entry_name e = n) es) as [[i e]|] eqn:Hfind.
  - apply list_find_Some in Hfind as (Hi & Hname & _).
    apply list_elem_of_lookup_2 in Hi.
    destruct e as [f|d cs].
    + unfold lookup_dir.
      destruct (list_find (λ e, entry_name e = n) es') as [[j e']|] eqn:Hf';
        [|done].
      apply list_find_Some in Hf' as (Hj & Hname' & _).
      apply list_elem_of_lookup_2 in Hj.
      assert (e' = File f) as ->; [|done].
      apply (NoDup_fmap_elem_eq entry_name es'); [done|done| |congruence].
      by rewrite Hp.
    + simpl in Hname. subst d. apply lookup_dir_Dir; [done|]. by rewrite Hp.
  - unfold lookup_dir.
    destruct (list_find (λ e, entry_name e = n) es') as [[j e']|] eqn:Hf';
      [|done].
    exfalso.
    apply list_find_Some in Hf' as (Hj & Hname' & _).
    apply list_elem_of_lookup_2 in Hj. rewrite Hp in Hj.
    apply list_find_None in Hfind. rewrite Forall_forall in Hfind.
    by apply (Hfind e').
Qed.

(** X1: the catalog does not depend on the order in which [os.scandir]
    lists the root directory: two listings of the same entries give the same
    classes, the same class indices and the same entries in the same order. *)
Theorem X1_catalog_independent_of_root_order dir es es' :
  NoDup (entry_name <$> es) → es' ≡ₚ es →
  CustomImageFolder dir (Some es') = CustomImageFolder dir (Some es).
Proof.
  intros Hnd Hp. unfold CustomImageFolder.
  rewrite (find_classes_perm es es' Hp).
  destruct (_find_classes es) as [cls c2i]. do 2 f_equal.
  unfold _make_dataset. apply flat_map_ext. intros name.
  unfold class_samples. by rewrite (lookup_dir_perm es es' name Hnd Hp).
Qed.

Lemma X1_catalog_independent_of_root_order_witness :
  CustomImageFolder "data/" (Some (reverse example_tree))
  = CustomImageFolder "data/" (Some example_tree).
Proof.
  apply (X1_catalog_independent_of_root_order "data/" example_tree
           (reverse example_tree)).
  - apply (bool_decide_unpack _). vm_compute. exact I.
  - apply reverse_Permutation.
Defined.

(** ** The layout of the catalog *)

Lemma filter_ext_in {A} (P Q : A → Prop) `{∀ x, Decision (P x)}
    `{∀ x, Decision (Q x)} (l : list A) :
  (∀ x, x ∈ l → P x ↔ Q x) → filter P l = filter Q l.
Proof.
  induction l as [|x l IH]; intros Hext; [done|].
  rewrite !filter_cons.
  rewrite IH by (intros y Hy; apply Hext; by right).
  destruct (decide (P x)) as [HP|HP], (decide (Q x)) as [HQ|HQ]; try done.
  - exfalso. apply HQ, Hext; [by left|done].
  - exfalso. apply HP, Hext; [by left|done].
Qed.

Lemma filter_all {A} (P : A → Prop) `{∀ x, Decision (P x)} (l : list A) :
  Forall P l → filter P l = l.
Proof.
  induction 1 as [|x l HP _ IH]; [done|].
  by rewrite filter_cons_True, IH.
Qed.

Lemma filter_none {A} (P : A → Prop) `{∀ x, Decision (P x)} (l : list A) :
  Forall (λ x, ¬ P x) l → filter P l = [].
Proof.
  induction 1 as [|x l HP _ IH]; [done|].
  by rewrite filter_cons_False.
Qed.

(** The positions that carry a label are as many as its occurrences. *)
Lemma np_where_eq_shift (labels : list nat) (c : nat) : ∀ off,
  length (filter (λ i, labels !! (i - off) = Some c)
                 (seq off (length labels)))
  = length (filter (λ x, x = c) labels).
Proof.
  induction labels as [|x labels IH]; intros off; [done|].
  cbn [length seq]. rewrite !filter_cons.
  rewrite (filter_ext_in (λ i, (x :: labels) !! (i - off) = Some c)
             (λ i, labels !! (i - S off) = Some c) (seq (S off) (length labels))).
  2:{ intros i [Hi _]%elem_of_seq.
      replace (i - off) with (S (i - S off)) by lia. done. }
  rewrite Nat.sub_diag. cbn [lookup list_lookup].
  destruct (decide (Some x = Some c)) as [Heq|Hne], (decide (x = c)) as [Hx|Hx];
    cbn [length]; rewrite ?IH; try done; congruence.
Qed.

Lemma np_where_eq_length (labels : list nat) (c : nat) :
  length (np_where_eq labels c) = length (filter (λ x, x = c) labels).
Proof.
  unfold np_where_eq. rewrite <- (np_where_eq_shift labels c 0).
  f_equal. apply filter_ext_in. intros i _. by rewrite Nat.sub_0_r.
Qed.

Lemma Forall_const_sorted (c : nat) (l : list nat) :
  Forall (λ x, x = c) l → StronglySorted le l.
Proof.
  induction 1 as [|x l -> Hall IH]; constructor; [done|].
  eapply Forall_impl; [exact Hall|]. simpl. lia.
Qed.

(** Blocks of entries, the block at position [i] labelled [off + i]: the
    labels never decrease, and a label occurs as often as its block is
    long. *)
Lemma labels_blocks (f : string → list (string * nat)) (l : list string) :
  ∀ off,
    (∀ i name, l !! i = Some name → Forall (λ e, e.2 = off + i) (f name)) →
    StronglySorted le (flat_map f l).*2 ∧
    Forall (λ x, off ≤ x) (flat_map f l).*2 ∧
    ∀ i name, l !! i = Some name →
              length (filter (λ x, x = off + i) (flat_map f l).*2)
              = length (f name).
Proof.
  induction l as [|a l IH]; intros off Hblocks.
  { split_and!; [constructor|constructor|]. intros i name Hi. done. }
  assert (Forall (λ x, x = off) (f a).*2) as Hhead.
  { apply Forall_fmap. specialize (Hblocks 0 a eq_refl).
    eapply Forall_impl; [exact Hblocks|]. intros e He. simpl in *. lia. }
  destruct (IH (S off)) as (Hsorted & Hlow & Hcount).
  { intros i name Hi. specialize (Hblocks (S i) name Hi).
    eapply Forall_impl; [exact Hblocks|]. intros e He. simpl in *. lia. }
  cbn [flat_map]. rewrite fmap_app. split_and!.
  - apply StronglySorted_app_2; [|by eapply Forall_const_sorted|done].
    intros x1 x2 Hx1 Hx2. rewrite Forall_forall in Hhead, Hlow.
    specialize (Hhead _ Hx1). specialize (Hlow _ Hx2). lia.
  - apply Forall_app. split; [|eapply Forall_impl; [exact Hlow|]; simpl; lia].
    eapply Forall_impl; [exact Hhead|]. simpl. lia.
  - intros [|i] name Hi.
    + injection Hi as ->. rewrite filter_app, length_app, Nat.add_0_r.
      rewrite (filter_all (λ x, x = off)) by done.
      rewrite (filter_none (λ x, x = off)).
      2:{ eapply Forall_impl; [exact Hlow|]. simpl. lia. }
      by rewrite length_fmap, Nat.add_0_r.
    + rewrite filter_app, length_app.
      rewrite (filter_none (λ x, x = off + S i)).
      2:{ eapply Forall_impl; [exact Hhead|]. simpl. lia. }
      replace (off + S i) with (S off + i) by lia.
      by rewrite (Hcount i name Hi).
Qed.

(** A catalog is the concatenation of one block per class, the block of
    the class at position [i] holding the entries of its listing, all
    labelled [i]. *)
Lemma catalog_blocks dir es ds :
  NoDup (entry_name <$> es) →
  CustomImageFolder dir (Some es) = Ok ds →
  samples ds = flat_map (class_samples dir es (class_to_idx ds)) (classes ds) ∧
  ∀ i name, classes ds !! i = Some name →
            class_samples dir es (class_to_idx ds) name
            = listing_entries i (class_listing dir es name).
Proof.
  intros Hnames Hds.
  destruct (catalog_build dir es Hnames)
    as (ds' & Hds' & _ & Hidx & Hnd & Hsamples).
  rewrite Hds in Hds'. injection Hds' as <-.
  split; [done|]. intros i name Hi.
  rewrite Hidx. by apply class_samples_at.
Qed.

Lemma listing_entries_labels idx items :
  Forall (λ e, e.2 = idx) (listing_entries idx items).
Proof. unfold listing_entries. apply Forall_fmap, Forall_forall. by intros. Qed.

Lemma catalog_labels_blocks dir es ds :
  NoDup (entry_name <$> es) →
  CustomImageFolder dir (Some es) = Ok ds →
  StronglySorted le (labels_of ds) ∧
  ∀ i name, classes ds !! i = Some name →
            length (filter (λ x, x = i) (labels_of ds))
            = length (listing_files (class_listing dir es name)).
Proof.
  intros Hnames Hds.
  destruct (catalog_blocks dir es ds Hnames Hds) as [Hsamples Hblock].
  destruct (labels_blocks (class_samples dir es (class_to_idx ds))
              (classes ds) 0) as (Hsorted & _ & Hcount).
  { intros i name Hi. rewrite (Hblock i name Hi). apply listing_entries_labels. }
  unfold labels_of. rewrite Hsamples. split; [done|].
  intros i name Hi. specialize (Hcount i name Hi). simpl in Hcount.
  rewrite Hcount, (Hblock i name Hi). apply listing_entries_length.
Qed.

(** The raw count of a class is the number of qualifying files below its
    directory. *)
Lemma catalog_class_count dir es ds i name :
  NoDup (entry_name <$> es) →
  CustomImageFolder dir (Some es) = Ok ds →
  classes ds !! i = Some name →
  class_count ds i
  = length (filter (λ rf, qualifying rf) (class_files dir es name)).
Proof.
  intros Hnames Hds Hi.
  destruct (catalog_labels_blocks dir es ds Hnames Hds) as [_ Hcount].
  unfold class_count. rewrite np_where_eq_length, (Hcount i name Hi).
  apply Permutation_length, class_listing_files.
Qed.

(** X2: the entries of a catalog are grouped by class, in the order of the
    class indices: along the catalog the label never decreases, so the
    entries of one class occupy consecutive positions. *)
Theorem X2_catalog_grouped_by_class dir es :
  NoDup (entry_name <$> es) →
  ∃ ds,
    CustomImageFolder dir (Some es) = Ok ds ∧
    StronglySorted le (labels_of ds) ∧
    ∀ i j path_i path_j c_i c_j,
      i ≤ j →
      __getitem__ ds i = Ok (path_i, c_i) →
      __getitem__ ds j = Ok (path_j, c_j) →
      c_i ≤ c_j.
Proof.
  intros Hnames.
  destruct (catalog_build dir es Hnames) as (ds & Hds & _).
  exists ds. split; [done|].
  destruct (catalog_labels_blocks dir es ds Hnames Hds) as [Hsorted _].
  split; [done|].
  intros i j pi pj ci cj Hij Hi Hj.
  assert (labels_of ds !! i = Some ci) as Hli
    by (apply getitem_label; by exists pi).
  assert (labels_of ds !! j = Some cj) as Hlj
    by (apply getitem_label; by exists pj).
  destruct (decide (i = j)) as [->|Hne].
  { rewrite Hli in Hlj. injection Hlj as ->. done. }
  assert (i < j) as Hlt by lia.
  rewrite <- (take_drop_middle _ _ _ Hlj) in Hsorted, Hli.
  rewrite lookup_app_l in Hli.
  2:{ rewrite length_take. apply lookup_lt_Some in Hlj. lia. }
  apply list_elem_of_lookup_2 in Hli.
  apply (StronglySorted_app_1_elem_of le _ _ ci cj Hsorted Hli). by left.
Qed.

Lemma X2_catalog_grouped_by_class_witness :
  ∃ ds,
    CustomImageFolder "data/" (Some example_tree) = Ok ds ∧
    StronglySorted le (labels_of ds) ∧
    ∀ i j path_i path_j c_i c_j,
      i ≤ j →
      __getitem__ ds i = Ok (path_i, c_i) →
      __getitem__ ds j = Ok (path_j, c_j) →
      c_i ≤ c_j.
Proof.
  apply (X2_catalog_grouped_by_class "data/" example_tree).
  apply (bool_decide_unpack _). vm_compute. exact I.
Defined.

(** X3: the number of entries that the catalog holds for a class (the
    count printed as the number of original images of the class) is the
    number of files below the class directory, at any depth, whose name
    passes the extension test; an index that is not a class index has no
    entry. *)
Theorem X3_class_count_is_number_of_image_files dir es :
  NoDup (entry_name <$> es) →
  ∃ ds,
    CustomImageFolder dir (Some es) = Ok ds ∧
    (∀ i name,
       classes ds !! i = Some name →
       class_count ds i
       = length (filter (λ rf, qualifying rf) (class_files dir es name))) ∧
    (∀ c, length (classes ds) ≤ c → class_count ds c = 0).
Proof.
  intros Hnames.
  destruct (catalog_build dir es Hnames) as (ds & Hds & _).
  exists ds. split; [done|]. split.
  - intros i name Hi. by apply (catalog_class_count dir es).
  - intros c Hc. unfold class_count. rewrite np_where_eq_length.
    rewrite (filter_none (λ x, x = c)); [done|].
    eapply Forall_impl; [apply (catalog_labels_in_range dir es ds Hnames Hds)|].
    simpl. lia.
Qed.

Lemma X3_class_count_is_number_of_image_files_witness :
  ∃ ds,
    CustomImageFolder "data/" (Some example_tree) = Ok ds ∧
    (∀ i name,
       classes ds !! i = Some name →
       class_count ds i
       = length (filter (λ rf, qualifying rf)
                        (class_files "data/" example_tree name))) ∧
    (∀ c, length (classes ds) ≤ c → class_count ds c = 0).
Proof.
  apply (X3_class_count_is_number_of_image_files "data/" example_tree).
  apply (bool_decide_unpack _). vm_compute. exact I.
Defined.

(** ** The extension test *)

Lemma ascii_lower_idemp c : ascii_lower (ascii_lower c) = ascii_lower c.
Proof. by destruct c as [[] [] [] [] [] [] [] []]. Qed.

Lemma lower_idemp s : lower (lower s) = lower s.
Proof.
  induction s as [|c s IH]; [done|]. cbn [lower].
  by rewrite ascii_lower_idemp, IH.
Qed.

(** X4: the extension test is applied to the joined path, and it sees only
    the file name: for every directory path the verdict on the path is the
    verdict on the name, so the name of a directory never makes a file
    qualify; and the verdict ignores the case of the name. *)
Theorem X4_extension_test_sees_file_name root fname :
  _is_image_file (path_join root fname) = _is_image_file fname ∧
  _is_image_file (lower fname) = _is_image_file fname ∧
  (_is_image_file (path_join root fname) ↔
   ∃ ext stem, ext ∈ extensions ∧ lower fname = stem +:+ ext).
Proof.
  assert (_is_image_file (path_join root fname) = _is_image_file fname)
    as Hpath by apply is_image_file_path.
  split_and!; [done| |].
  - unfold _is_image_file. by rewrite lower_idemp.
  - rewrite Hpath. apply is_image_file_spec.
Qed.

(** ** The outcome of the sampler *)

Lemma sampled_count_app ds l1 l2 c :
  sampled_count ds (l1 ++ l2) c = sampled_count ds l1 c + sampled_count ds l2 c.
Proof. unfold sampled_count. by rewrite filter_app, length_app. Qed.

Lemma sampled_count_perm ds l1 l2 c :
  l1 ≡ₚ l2 → sampled_count ds l1 c = sampled_count ds l2 c.
Proof. intros Hp. unfold sampled_count. by rewrite Hp. Qed.

Lemma sampled_count_own ds k c part :
  class_sample_ok ds k c part → sampled_count ds part c = k.
Proof.
  intros (Hlen & Hlab & _). unfold sampled_count.
  by rewrite (filter_all (λ i, labels_of ds !! i = Some c)).
Qed.

Lemma sampled_count_other ds k c c' part :
  class_sample_ok ds k c' part → c ≠ c' → sampled_count ds part c = 0.
Proof.
  intros (_ & Hlab & _) Hne. unfold sampled_count.
  rewrite (filter_none (λ i, labels_of ds !! i = Some c)); [done|].
  eapply Forall_impl; [exact Hlab|]. intros i Hi. cbv beta. congruence.
Qed.

(** In a pool made of one part per class, a class that was sampled is
    present with its quota, any other label is absent. *)
Lemma parts_sampled_count ds k cs parts c :
  Forall2 (class_sample_ok ds k) cs parts → NoDup cs →
  sampled_count ds (concat parts) c = if decide (c ∈ cs) then k else 0.
Proof.
  induction 1 as [|c' part cs parts Hok _ IH]; intros Hnd.
  { by rewrite decide_False by apply not_elem_of_nil. }
  apply NoDup_cons in Hnd as [Hnotin Hnd].
  cbn [concat]. rewrite sampled_count_app, (IH Hnd).
  destruct (decide (c = c')) as [->|Hne].
  - rewrite (sampled_count_own ds k c' part Hok).
    rewrite (decide_False (P := c' ∈ cs)) by done.
    rewrite decide_True by (by left). lia.
  - rewrite (sampled_count_other ds k c c' part Hok Hne).
    destruct (decide (c ∈ cs)) as [Hin|Hout].
    + by rewrite decide_True by (by right).
    + rewrite decide_False; [done|]. by intros [?|?]%elem_of_cons.
Qed.

Lemma loaders_of_samplers ds bs k g tl vl g' :
  loaders_of ds bs k g = Ok (tl, vl, g') →
  ∃ parts,
    dl_sampler tl ++ dl_sampler vl ≡ₚ concat parts ∧
    Forall2 (class_sample_ok ds k) (seq 0 (length (classes ds))) parts ∧
    length (dl_sampler tl ++ dl_sampler vl) = length (classes ds) * k ∧
    dl_sampler tl
    = take (split_point (length (classes ds) * k))
           (dl_sampler tl ++ dl_sampler vl) ∧
    dl_sampler vl
    = drop (split_point (length (classes ds) * k))
           (dl_sampler tl ++ dl_sampler vl).
Proof.
  intros (pool & g1 & shuffled & Hpool & Hsh & -> & -> & _)%loaders_of_inv.
  apply balanced_indices_ok in Hpool as (parts & -> & Hparts & Hlen).
  pose proof (shuffle_perm (concat parts) g1) as Hperm.
  rewrite Hsh in Hperm. simpl in Hperm.
  exists parts. cbn [dl_sampler]. rewrite take_drop.
  assert (length shuffled = length (classes ds) * k) as Hn
    by (by rewrite Hperm).
  rewrite <- Hn. by split_and!.
Qed.

(** X5: after sampling, the pool holds every class with exactly the quota:
    the count of sampled indices per class (printed as the number of images
    per class after sampling) is [num_img_per_class] for every class, and no
    sampled index carries another label. *)
Theorem X5_sampled_counts_are_balanced ds bs k g :
  match loaders_of ds bs k g with
  | Ok (tl, vl, _) =>
      ∀ c, sampled_count ds (dl_sampler tl ++ dl_sampler vl) c
           = if decide (c < length (classes ds)) then k else 0
  | Raise _ => no_loaders_reason ds bs k
  end.
Proof.
  destruct (loaders_of ds bs k g) as [[[tl vl] g']|e] eqn:Hrun;
    [|by eapply loaders_of_raise].
  intros c.
  destruct (loaders_of_samplers ds bs k g tl vl g' Hrun)
    as (parts & Hperm & Hparts & _).
  rewrite (sampled_count_perm ds _ _ c Hperm).
  rewrite (parts_sampled_count ds k _ parts c Hparts) by apply NoDup_seq.
  destruct (decide (c < length (classes ds))) as [Hc|Hc].
  - rewrite decide_True; [done|]. apply elem_of_seq. lia.
  - rewrite decide_False; [done|]. rewrite elem_of_seq. lia.
Qed.

Lemma catalog_classes_length dir es ds :
  CustomImageFolder dir (Some es) = Ok ds →
  classes ds ≡ₚ scandir_dirs es.
Proof.
  unfold CustomImageFolder, _find_classes. intros [= <-]. cbn [classes].
  apply sorted_str_perm.
Qed.

(** X6: for a readable root whose entries have distinct names,
    [get_data_loaders] returns loaders exactly when the batch size is
    positive and, unless the quota is zero, every class directory holds at
    least one image file; otherwise it raises [ValueError], and nothing
    else. *)
Theorem X6_get_data_loaders_outcome dir es bs k g :
  NoDup (entry_name <$> es) →
  ((∃ tl vl g', get_data_loaders dir (Some es) bs k g = Ok (tl, vl, g')) ↔
   0 < bs ∧
   (k = 0 ∨
    ∀ name, name ∈ scandir_dirs es →
            filter (λ rf, qualifying rf) (class_files dir es name) ≠ [])) ∧
  (∀ e, get_data_loaders dir (Some es) bs k g = Raise e → e = ValueError).
Proof.
  intros Hnames.
  destruct (catalog_build dir es Hnames) as (ds & Hds & _).
  rewrite (get_data_loaders_of dir es ds bs k g Hds).
  pose proof (catalog_labels_in_range dir es ds Hnames Hds) as Hlab.
  pose proof (catalog_classes_length dir es ds Hds) as Hcls.
  split; [split|].
  - intros (tl & vl & g' & Hrun).
    apply loaders_of_inv in Hrun
      as (pool & g1 & shuffled & Hpool & _ & _ & _ & Hbs).
    split; [done|].
    destruct (decide (k = 0)) as [|Hk]; [by left|right].
    intros name Hname. rewrite <- Hcls in Hname.
    apply list_elem_of_lookup in Hname as [i Hi].
    apply balanced_indices_ok in Hpool as (parts & _ & Hparts & _).
    assert (seq 0 (length (classes ds)) !! i = Some i) as Hseq.
    { apply lookup_seq. split; [done|]. by eapply lookup_lt_Some. }
    destruct (Forall2_lookup_l _ _ _ i i Hparts Hseq)
      as (part & _ & _ & _ & _ & Hcount).
    rewrite (catalog_class_count dir es ds i name Hnames Hds Hi) in Hcount.
    intros Hnil. rewrite Hnil in Hcount. simpl in Hcount. lia.
  - intros [Hbs Hquota]. apply loaders_of_succeeds; [done|done|].
    intros c Hc. destruct Hquota as [->|Hfiles]; [by right|left].
    apply lookup_lt_is_Some in Hc as [name Hname].
    rewrite (catalog_class_count dir es ds c name Hnames Hds Hname).
    assert (name ∈ scandir_dirs es) as Hin.
    { rewrite <- Hcls. by eapply list_elem_of_lookup_2. }
    specialize (Hfiles name Hin).
    destruct (filter _ _); [done|simpl; lia].
  - intros e. by apply loaders_of_raise_ValueError.
Qed.

Lemma X6_get_data_loaders_outcome_witness :
  ((∃ tl vl g', get_data_loaders "data/" (Some tree_with_empty_class) 2 4
                                 example_rng = Ok (tl, vl, g')) ↔
   0 < 2 ∧
   (4 = 0 ∨
    ∀ name, name ∈ scandir_dirs tree_with_empty_class →
            filter (λ rf, qualifying rf)
                   (class_files "data/" tree_with_empty_class name) ≠ [])) ∧
  (∀ e, get_data_loaders "data/" (Some tree_with_empty_class) 2 4 example_rng
        = Raise e → e = ValueError).
Proof.
  apply (X6_get_data_loaders_outcome "data/" tree_with_empty_class 2 4
           example_rng).
  apply (bool_decide_unpack _). vm_compute. exact I.
Defined.

Lemma split_arith n :
  n * 4 / 5 ≤ n ∧ (0 < n → n * 4 / 5 < n) ∧ (0 < n * 4 / 5 ↔ 2 ≤ n).
Proof.
  split_and!.
  - apply Nat.Div0.div_le_upper_bound. lia.
  - intros Hn. apply Nat.Div0.div_lt_upper_bound. lia.
  - split.
    + intros Hpos. destruct (decide (2 ≤ n)) as [|Hsmall]; [done|].
      assert (n * 4 / 5 = 0) as Hz; [|lia].
      apply Nat.div_small. lia.
    + intros Hn. apply (Nat.div_le_lower_bound (n * 4) 5 1); lia.
Qed.

(** The sizes of the two index lists. *)
Lemma get_data_loaders_sizes dir es bs k g tl vl g' :
  (Z.of_nat (length (scandir_dirs es) * k) ≤ 100000)%Z →
  get_data_loaders dir (Some es) bs k g = Ok (tl, vl, g') →
  length (dl_sampler tl) = length (scandir_dirs es) * k * 4 / 5 ∧
  length (dl_sampler vl)
  = length (scandir_dirs es) * k - length (scandir_dirs es) * k * 4 / 5.
Proof.
  intros Hbound Hdl.
  apply get_data_loaders_inv in Hdl as (es' & ds & [= <-] & Hds & Hrun).
  pose proof (catalog_classes_length dir es ds Hds) as Hcls.
  apply Permutation_length in Hcls.
  destruct (loaders_of_samplers ds bs k g tl vl g' Hrun)
    as (parts & _ & _ & Hlen & Htl & Hvl).
  rewrite Hcls in Hlen, Htl, Hvl.
  rewrite (split_point_exact _ Hbound) in Htl, Hvl.
  set (n := length (scandir_dirs es) * k) in *. clearbody n.
  destruct (split_arith n) as (Hle & _).
  split.
  - rewrite Htl, length_take. lia.
  - rewrite Hvl, length_drop. lia.
Qed.

(** X7: for a pool of at most 100000 indices the training list has
    [floor(4 n / 5)] indices and the validation list the remaining ones,
    where [n] is the number of classes times the quota; the validation list
    is empty only when the pool is, and the training list is empty exactly
    when the pool has fewer than two indices. *)
Theorem X7_split_sizes dir es bs k g :
  NoDup (entry_name <$> es) →
  (Z.of_nat (length (scandir_dirs es) * k) ≤ 100000)%Z →
  match get_data_loaders dir (Some es) bs k g with
  | Ok (tl, vl, _) =>
      let n := length (scandir_dirs es) * k in
      length (dl_sampler tl) = n * 4 / 5 ∧
      length (dl_sampler vl) = n - n * 4 / 5 ∧
      (0 < n → dl_sampler vl ≠ []) ∧
      (dl_sampler tl ≠ [] ↔ 2 ≤ n)
  | Raise e => e = ValueError
  end.
Proof.
  intros Hnames Hbound.
  destruct (get_data_loaders dir (Some es) bs k g) as [[[tl vl] g']|e] eqn:Hrun.
  2:{ destruct (catalog_build dir es Hnames) as (ds & Hds & _).
      rewrite (get_data_loaders_of dir es ds bs k g Hds) in Hrun.
      eapply loaders_of_raise_ValueError; [|exact Hrun].
      by apply (catalog_labels_in_range dir es). }
  destruct (get_data_loaders_sizes dir es bs k g tl vl g' Hbound Hrun)
    as [Hntl Hnvl].
  set (n := length (scandir_dirs es) * k) in *. clearbody n.
  destruct (split_arith n) as (Hle & Hlt & Hpos).
  cbv zeta. split_and!; [done|done| |].
  - intros Hn Hnil. rewrite Hnil in Hnvl.
    change (length (@nil nat)) with 0 in Hnvl. specialize (Hlt Hn). lia.
  - rewrite <- Hpos, <- Hntl.
    destruct (dl_sampler tl); cbn [length]; split; try done; lia.
Qed.

Lemma X7_split_sizes_witness :
  match get_data_loaders "data/" (Some two_classes_of_four) 2 4 example_rng with
  | Ok (tl, vl, _) =>
      let n := length (scandir_dirs two_classes_of_four) * 4 in
      length (dl_sampler tl) = n * 4 / 5 ∧
      length (dl_sampler vl) = n - n * 4 / 5 ∧
      (0 < n → dl_sampler vl ≠ []) ∧
      (dl_sampler tl ≠ [] ↔ 2 ≤ n)
  | Raise e => e = ValueError
  end.
Proof.
  apply (X7_split_sizes "data/" two_classes_of_four 2 4 example_rng).
  - apply (bool_decide_unpack _). vm_compute. exact I.
  - vm_compute. discriminate.
Defined.

(** ** One pass over a loader *)

Lemma batch_sampler_concat bs : ∀ l acc,
  concat (batch_sampler bs acc l) = acc ++ l.
Proof.
  induction l as [|x l IH]; intros acc; cbn [batch_sampler].
  - rewrite app_nil_r. case_bool_decide as Hlen; cbn [concat].
    + by rewrite app_nil_r.
    + destruct acc; [done|]. simpl in Hlen. lia.
  - destruct (length (acc ++ [x]) =? bs); cbn [concat]; rewrite IH.
    + by rewrite <- app_assoc.
    + by rewrite <- app_assoc.
Qed.

(** The batches of one pass hold every index of the sampler exactly as
    often as the sampler does. *)
Lemma loader_iter_concat dl g : concat (loader_iter dl g).1 ≡ₚ dl_sampler dl.
Proof.
  unfold loader_iter.
  pose proof (shuffle_perm (dl_sampler dl) g) as Hp.
  destruct (shuffle (dl_sampler dl) g) as [order g']. simpl in *.
  by rewrite batch_sampler_concat.
Qed.

Lemma Forall_concat_iff {A} (P : A → Prop) (ls : list (list A)) :
  Forall (Forall P) ls ↔ Forall P (concat ls).
Proof.
  induction ls as [|l ls IH]; cbn [concat].
  - split; constructor.
  - rewrite Forall_cons, Forall_app, IH. done.
Qed.

Lemma loader_iter_range dl g :
  Forall (Forall (λ i, i < __len__ (dl_dataset dl))) (loader_iter dl g).1
  ↔ indices_in_range dl.
Proof.
  unfold indices_in_range.
  by rewrite Forall_concat_iff, (loader_iter_concat dl g).
Qed.

Lemma imap_pair_fst {A} (l : list A) : ∀ off,
  (imap (λ i b, (off + i, b)) l).*1 = seq off (length l).
Proof.
  induction l as [|x l IH]; intros off; [done|].
  rewrite imap_cons. cbn [fmap list_fmap length seq fst].
  rewrite Nat.add_0_r. f_equal.
  rewrite <- (IH (S off)). f_equal. apply imap_ext. intros i y _. simpl.
  f_equal. lia.
Qed.

Lemma imap_pair_snd {A} (l : list A) : ∀ off,
  (imap (λ i b, (off + i, b)) l).*2 = l.
Proof.
  induction l as [|x l IH]; intros off; [done|].
  rewrite imap_cons. cbn [fmap list_fmap snd]. f_equal.
  rewrite <- (IH (S off)) at 2. f_equal. apply imap_ext. intros i y _. simpl.
  f_equal. lia.
Qed.

(** ** Readings of a trace, piecewise *)

Lemma samples_seen_app {W} grad (t1 t2 : list (event W)) :
  samples_seen grad (t1 ++ t2) = samples_seen grad t1 + samples_seen grad t2.
Proof. unfold samples_seen. by rewrite omap_app, sum_list_with_app. Qed.

Lemma scalar_steps_app {W} tag (t1 t2 : list (event W)) :
  scalar_steps tag (t1 ++ t2) = scalar_steps tag t1 ++ scalar_steps tag t2.
Proof. apply omap_app. Qed.

(** ** The outcome of collating a batch *)

Lemma fetch_cases ds idxs :
  match fetch ds idxs with
  | Ok inputs =>
      length inputs = length idxs ∧ Forall (λ i, i < __len__ ds) idxs
  | Raise e => e = IndexError ∧ ¬ Forall (λ i, i < __len__ ds) idxs
  end.
Proof.
  unfold fetch. induction idxs as [|i idxs IH]; [by split; [|constructor]|].
  cbn [mapM].
  destruct (__getitem__ ds i) as [item|e] eqn:Hi; cbn;
    unfold __getitem__ in Hi;
    destruct (samples ds !! i) as [item'|] eqn:Hl; simplify_eq.
  - apply lookup_lt_Some in Hl.
    destruct (mapM (__getitem__ ds) idxs) as [inputs|e]; cbn.
    + destruct IH as [Hlen Hall]. split; [by rewrite Hlen|by constructor].
    + destruct IH as [-> Hnot]. split; [done|].
      by intros [_ Hall]%Forall_cons.
  - apply lookup_ge_None in Hl. split; [done|].
    intros [Hlt _]%Forall_cons. unfold __len__ in Hlt. lia.
Qed.

(** ** The outcome and the records of the loops *)

Lemma imap_pair_fst0 {A} (l : list A) :
  (imap (λ i b, (i, b)) l).*1 = seq 0 (length l).
Proof. exact (imap_pair_fst l 0). Qed.

Lemma imap_pair_snd0 {A} (l : list A) : (imap (λ i b, (i, b)) l).*2 = l.
Proof. exact (imap_pair_snd l 0). Qed.

Lemma first_failure_None tl vl :
  first_failure tl vl = None ↔ loader_in_range tl ∧ loader_in_range vl.
Proof.
  unfold first_failure, loader_in_range.
  destruct (decide (indices_in_range tl)) as [Ht|Ht].
  2:{ split; [done|]. by intros [[_ H] _]. }
  destruct (__len__ (dl_dataset tl) =? 0) eqn:E1.
  { apply Nat.eqb_eq in E1. split; [done|]. intros [[H _] _]. lia. }
  apply Nat.eqb_neq in E1.
  destruct (decide (indices_in_range vl)) as [Hv|Hv].
  2:{ split; [done|]. by intros [_ [_ H]]. }
  destruct (__len__ (dl_dataset vl) =? 0) eqn:E2.
  { apply Nat.eqb_eq in E2. split; [done|]. intros [_ [H _]]. lia. }
  apply Nat.eqb_neq in E2.
  split; [|done]. intros _. split; (split; [lia|done]).
Qed.

Section LoopOutcome.
Context {M W : Type} (ops : collaborators M W).

Lemma train_batch_cases ds epoch nb acc (b : nat * list nat) :
  match train_batch ops ds epoch nb acc b with
  | Ok (_, evs) =>
      Forall (λ i, i < __len__ ds) b.2 ∧
      samples_seen true evs = length b.2 ∧
      samples_seen false evs = 0 ∧
      scalar_steps "Training Loss" evs = [epoch * nb + b.1] ∧
      scalar_steps "Learning Rate" evs = [epoch * nb + b.1] ∧
      (∀ tag, tag ≠ "Training Loss" → tag ≠ "Learning Rate" →
              scalar_steps tag evs = [])
  | Raise e => e = IndexError ∧ ¬ Forall (λ i, i < __len__ ds) b.2
  end.
Proof.
  unfold train_batch. destruct acc as [[m rl] rc], b as [bi idxs].
  pose proof (fetch_cases ds idxs) as Hf.
  destruct (fetch ds idxs) as [inputs|e]; cbn; [|done].
  destruct (forward ops true (zero_grad ops m) inputs) as [[m' loss] c].
  destruct Hf as [Hlen Hall].
  split_and!; [done| |done|done|done|].
  - unfold samples_seen. cbn. rewrite bool_decide_eq_true_2 by done. cbn. lia.
  - intros tag H1 H2. unfold scalar_steps. cbn.
    by rewrite !bool_decide_eq_false_2 by done.
Qed.

Lemma val_batch_cases ds acc (b : list nat) :
  match val_batch ops ds acc b with
  | Ok (_, evs) =>
      Forall (λ i, i < __len__ ds) b ∧
      samples_seen false evs = length b ∧
      samples_seen true evs = 0 ∧
      (∀ tag, scalar_steps tag evs = [])
  | Raise e => e = IndexError ∧ ¬ Forall (λ i, i < __len__ ds) b
  end.
Proof.
  unfold val_batch. destruct acc as [[m rl] rc].
  pose proof (fetch_cases ds b) as Hf.
  destruct (fetch ds b) as [inputs|e]; cbn; [|done].
  destruct (forward ops false m inputs) as [[m' loss] c].
  destruct Hf as [Hlen Hall].
  split_and!; [done| |done|done].
  unfold samples_seen. cbn. rewrite bool_decide_eq_true_2 by done. cbn. lia.
Qed.

Lemma train_loop_cases ds epoch nb l : ∀ acc,
  match run_loop (train_batch ops ds epoch nb) acc l with
  | Ok (_, evs) =>
      Forall (Forall (λ i, i < __len__ ds)) l.*2 ∧
      samples_seen true evs = length (concat l.*2) ∧
      samples_seen false evs = 0 ∧
      scalar_steps "Training Loss" evs = (λ i, epoch * nb + i) <$> l.*1 ∧
      scalar_steps "Learning Rate" evs = (λ i, epoch * nb + i) <$> l.*1 ∧
      (∀ tag, tag ≠ "Training Loss" → tag ≠ "Learning Rate" →
              scalar_steps tag evs = [])
  | Raise e => e = IndexError ∧ ¬ Forall (Forall (λ i, i < __len__ ds)) l.*2
  end.
Proof.
  induction l as [|b l IH]; intros acc.
  { cbn. by split_and!. }
  cbn [run_loop].
  pose proof (train_batch_cases ds epoch nb acc b) as Hb.
  destruct (train_batch ops ds epoch nb acc b) as [[acc1 e1]|e]; cbn.
  2:{ destruct Hb as [-> Hnot]. split; [done|]. by intros [??]%Forall_cons. }
  specialize (IH acc1).
  destruct (run_loop (train_batch ops ds epoch nb) acc1 l) as [[acc2 e2]|e];
    cbn.
  2:{ destruct IH as [-> Hnot]. split; [done|]. by intros [??]%Forall_cons. }
  destruct Hb as (Hb1 & Hb2 & Hb3 & Hb4 & Hb5 & Hb6).
  destruct IH as (Hl1 & Hl2 & Hl3 & Hl4 & Hl5 & Hl6).
  rewrite !samples_seen_app, !scalar_steps_app.
  rewrite Hb2, Hb3, Hb4, Hb5, Hl2, Hl3, Hl4, Hl5.
  split_and!; [by constructor|by rewrite length_app|done|done|done|].
  intros tag H1 H2. by rewrite scalar_steps_app, Hb6, Hl6.
Qed.

Lemma val_loop_cases ds l : ∀ acc,
  match run_loop (val_batch ops ds) acc l with
  | Ok (_, evs) =>
      Forall (Forall (λ i, i < __len__ ds)) l ∧
      samples_seen false evs = length (concat l) ∧
      samples_seen true evs = 0 ∧
      (∀ tag, scalar_steps tag evs = [])
  | Raise e => e = IndexError ∧ ¬ Forall (Forall (λ i, i < __len__ ds)) l
  end.
Proof.
  induction l as [|b l IH]; intros acc.
  { cbn. by split_and!. }
  cbn [run_loop].
  pose proof (val_batch_cases ds acc b) as Hb.
  destruct (val_batch ops ds acc b) as [[acc1 e1]|e]; cbn.
  2:{ destruct Hb as [-> Hnot]. split; [done|]. by intros [??]%Forall_cons. }
  specialize (IH acc1).
  destruct (run_loop (val_batch ops ds) acc1 l) as [[acc2 e2]|e]; cbn.
  2:{ destruct IH as [-> Hnot]. split; [done|]. by intros [??]%Forall_cons. }
  destruct Hb as (Hb1 & Hb2 & Hb3 & Hb4).
  destruct IH as (Hl1 & Hl2 & Hl3 & Hl4).
  rewrite !samples_seen_app, Hb2, Hb3, Hl2, Hl3.
  split_and!; [by constructor|by rewrite length_app|done|].
  intros tag. by rewrite scalar_steps_app, Hb4, Hl4.
Qed.

End LoopOutcome.

Section EpochOutcome.
Context {M W : Type} (ops : collaborators M W).

(** A successful epoch, with the two passes it made. *)
Lemma epoch_body_runs tl vl st epoch st' evs :
  epoch_body ops tl vl st epoch = Ok (st', evs) →
  ∃ batches g1 vbatches g2 acc1 tev acc2 vev el ea v va,
    loader_iter tl (ts_rng st) = (batches, g1) ∧
    run_loop (train_batch ops (dl_dataset tl) epoch (loader_len tl))
             (model_train ops (ts_model st), 0%float, 0)
             (imap (λ i b, (i, b)) batches) = Ok (acc1, tev) ∧
    loader_iter vl g1 = (vbatches, g2) ∧
    run_loop (val_batch ops (dl_dataset vl))
             (model_eval ops acc1.1.1, 0%float, 0) vbatches
      = Ok (acc2, vev) ∧
    0 < __len__ (dl_dataset tl) ∧ 0 < __len__ (dl_dataset vl) ∧
    evs = ([ModelTrain] ++ tev ++
           [AddScalar "Epoch Training Loss" el epoch;
            AddScalar "Epoch Training Accuracy" ea epoch;
            ModelEval] ++ vev ++
           [AddScalar "Validation Loss" v epoch;
            AddScalar "Validation Accuracy" va epoch]) ++
          (if (v <? best_loss st)%float
           then [TorchSave (BestModel epoch v) (state_dict ops acc2.1.1)]
           else []).
Proof.
  unfold epoch_body.
  destruct (loader_iter tl (ts_rng st)) as [batches g1] eqn:Hit.
  destruct (run_loop _ _ _) as [[[[m1 rl] rc] tev]|] eqn:Htrain; [|done].
  cbn. unfold float_div_int, int_div_int.
  destruct (__len__ (dl_dataset tl) =? 0) eqn:Hlen; [done|].
  apply Nat.eqb_neq in Hlen. cbn.
  destruct (loader_iter vl g1) as [vbatches g2] eqn:Hvit.
  destruct (run_loop _ _ vbatches) as [[[[m2 vls] vc] vev]|] eqn:Hval;
    [|done].
  cbn. destruct (__len__ (dl_dataset vl) =? 0) eqn:Hvlen; [done|].
  apply Nat.eqb_neq in Hvlen. cbn.
  intros Hres.
  exists batches, g1, vbatches, g2, (m1, rl, rc), tev, (m2, vls, vc), vev,
    (rl / float_of_nat (__len__ (dl_dataset tl)))%float,
    (float_of_nat rc / float_of_nat (__len__ (dl_dataset tl)))%float,
    (vls / float_of_nat (__len__ (dl_dataset vl)))%float,
    (float_of_nat vc / float_of_nat (__len__ (dl_dataset vl)))%float.
  split_and!; [done|done|done|done|lia|lia|].
  cbn [fst]. destruct (_ <? _)%float; injection Hres as <- <-;
    rewrite ?app_nil_r; reflexivity.
Qed.

(** A failing epoch fails at the first check that its loaders do not
    pass. *)
Lemma epoch_body_raise tl vl st epoch e :
  epoch_body ops tl vl st epoch = Raise e → first_failure tl vl = Some e.
Proof.
  unfold epoch_body, first_failure.
  pose proof (loader_iter_range tl (ts_rng st)) as Hr.
  destruct (loader_iter tl (ts_rng st)) as [batches g1]. simpl in Hr.
  pose proof (train_loop_cases ops (dl_dataset tl) epoch (loader_len tl)
                (imap (λ i b, (i, b)) batches)
                (model_train ops (ts_model st), 0%float, 0)) as Ht.
  rewrite imap_pair_snd0 in Ht.
  destruct (run_loop _ _ _) as [[[[m1 rl] rc] tev]|e1]; cbn.
  2:{ destruct Ht as [-> Hnot]. intros [= <-].
      rewrite decide_False; [done|]. by rewrite <- Hr. }
  destruct Ht as (Hin%Hr & _).
  rewrite (decide_True (P := indices_in_range tl)) by done.
  unfold float_div_int, int_div_int.
  destruct (__len__ (dl_dataset tl) =? 0); cbn; [by intros [= <-]|].
  pose proof (loader_iter_range vl g1) as Hvr.
  destruct (loader_iter vl g1) as [vbatches g2]. simpl in Hvr.
  pose proof (val_loop_cases ops (dl_dataset vl) vbatches
                (model_eval ops m1, 0%float, 0)) as Hv.
  destruct (run_loop _ _ vbatches) as [[[[m2 vls] vc] vev]|e2]; cbn.
  2:{ destruct Hv as [-> Hnot]. intros [= <-].
      rewrite decide_False; [done|]. by rewrite <- Hvr. }
  destruct Hv as (Hvin%Hvr & _).
  rewrite (decide_True (P := indices_in_range vl)) by done.
  destruct (__len__ (dl_dataset vl) =? 0); cbn; [by intros [= <-]|].
  by destruct (_ <? _)%float.
Qed.

(** The records of a successful epoch. *)
Lemma epoch_body_records tl vl st epoch st' evs :
  epoch_body ops tl vl st epoch = Ok (st', evs) →
  first_failure tl vl = None ∧
  samples_seen true evs = length (dl_sampler tl) ∧
  samples_seen false evs = length (dl_sampler vl) ∧
  scalar_steps "Training Loss" evs
  = (λ i, epoch * loader_len tl + i) <$> seq 0 (batches_per_epoch tl) ∧
  scalar_steps "Learning Rate" evs
  = (λ i, epoch * loader_len tl + i) <$> seq 0 (batches_per_epoch tl) ∧
  scalar_steps "Epoch Training Loss" evs = [epoch] ∧
  scalar_steps "Epoch Training Accuracy" evs = [epoch] ∧
  scalar_steps "Validation Loss" evs = [epoch] ∧
  scalar_steps "Validation Accuracy" evs = [epoch].
Proof.
  intros Hrun.
  destruct (epoch_body_runs tl vl st epoch st' evs Hrun)
    as (batches & g1 & vbatches & g2 & acc1 & tev & acc2 & vev &
        el & ea & v & va & Hit & Ht & Hvit & Hv & Hlt & Hlv & ->).
  pose proof (train_loop_cases ops (dl_dataset tl) epoch (loader_len tl)
                (imap (λ i b, (i, b)) batches)
                (model_train ops (ts_model st), 0%float, 0)) as Htc.
  rewrite Ht, imap_pair_snd0, imap_pair_fst0 in Htc.
  destruct Htc as (Ht1 & Ht2 & Ht3 & Ht4 & Ht5 & Ht6).
  pose proof (val_loop_cases ops (dl_dataset vl) vbatches
                (model_eval ops acc1.1.1, 0%float, 0)) as Hvc.
  rewrite Hv in Hvc. destruct Hvc as (Hv1 & Hv2 & Hv3 & Hv4).
  pose proof (loader_iter_range tl (ts_rng st)) as Hr.
  pose proof (loader_iter_concat tl (ts_rng st)) as Hc.
  pose proof (loader_iter_batches tl (ts_rng st)) as Hnb.
  rewrite Hit in Hr, Hc, Hnb. simpl in Hr, Hc, Hnb.
  pose proof (loader_iter_range vl g1) as Hvr.
  pose proof (loader_iter_concat vl g1) as Hvcat.
  rewrite Hvit in Hvr, Hvcat. simpl in Hvr, Hvcat.
  apply Permutation_length in Hc, Hvcat.
  rewrite Hnb in Ht4, Ht5. rewrite Hc in Ht2. rewrite Hvcat in Hv2.
  assert (∀ grad (save : list (event W)),
            save = [] ∨ (∃ w, save = [TorchSave (BestModel epoch v) w]) →
            samples_seen grad save = 0) as Hsave_seen.
  { intros grad save [->|[w ->]]; done. }
  assert (∀ tag (save : list (event W)),
            save = [] ∨ (∃ w, save = [TorchSave (BestModel epoch v) w]) →
            scalar_steps tag save = []) as Hsave_steps.
  { intros tag save [->|[w ->]]; done. }
  set (save := if (v <? best_loss st)%float
               then [TorchSave (BestModel epoch v) (state_dict ops acc2.1.1)]
               else []).
  assert (save = [] ∨ ∃ w, save = [TorchSave (BestModel epoch v) w]) as Hsave.
  { unfold save. destruct (_ <? _)%float; [right; by eexists|by left]. }
  clearbody save.
  split_and!.
  - apply first_failure_None. unfold loader_in_range.
    rewrite <- Hr, <- Hvr. by split_and!.
  - rewrite !samples_seen_app, Ht2, Hv3, (Hsave_seen true save Hsave).
    unfold samples_seen. cbn. lia.
  - rewrite !samples_seen_app, Ht3, Hv2, (Hsave_seen false save Hsave).
    unfold samples_seen. cbn. lia.
  - rewrite !scalar_steps_app, Ht4, Hv4, (Hsave_steps _ save Hsave).
    cbn. by rewrite !app_nil_r.
  - rewrite !scalar_steps_app, Ht5, Hv4, (Hsave_steps _ save Hsave).
    cbn. by rewrite !app_nil_r.
  - rewrite !scalar_steps_app, Ht6, Hv4, (Hsave_steps _ save Hsave) by done.
    done.
  - rewrite !scalar_steps_app, Ht6, Hv4, (Hsave_steps _ save Hsave) by done.
    done.
  - rewrite !scalar_steps_app, Ht6, Hv4, (Hsave_steps _ save Hsave) by done.
    done.
  - rewrite !scalar_steps_app, Ht6, Hv4, (Hsave_steps _ save Hsave) by done.
    done.
Qed.

End EpochOutcome.

Lemma batch_steps_seq nb n : ∀ a,
  batch_steps nb nb a n = seq (a * nb) (n * nb).
Proof.
  unfold batch_steps. induction n as [|n IH]; intros a; [done|].
  cbn [seq flat_map]. rewrite (IH (S a)), fmap_add_seq, Nat.add_0_r.
  replace (S n * nb) with (nb + n * nb) by lia.
  rewrite seq_app. do 2 f_equal. lia.
Qed.

Section RunOutcome.
Context {M W : Type} (ops : collaborators M W).

Lemma epochs_loop_raise tl vl n : ∀ a st e,
  run_loop (epoch_body ops tl vl) st (seq a n) = Raise e →
  0 < n ∧ first_failure tl vl = Some e.
Proof.
  induction n as [|n IH]; intros a st e; [done|].
  cbn [seq run_loop]. intros Hrun. split; [lia|].
  destruct (epoch_body ops tl vl st a) as [[st1 e1]|e'] eqn:Hepoch.
  2:{ cbn in Hrun. injection Hrun as ->. by eapply epoch_body_raise. }
  cbn in Hrun.
  destruct (run_loop (epoch_body ops tl vl) st1 (seq (S a) n))
    as [[st2 e2]|e'] eqn:Hrest; [done|].
  cbn in Hrun. injection Hrun as ->.
  by destruct (IH (S a) st1 e Hrest).
Qed.

Lemma epochs_loop_records tl vl n : ∀ a st st' evs,
  run_loop (epoch_body ops tl vl) st (seq a n) = Ok (st', evs) →
  (n = 0 ∨ first_failure tl vl = None) ∧
  samples_seen true evs = n * length (dl_sampler tl) ∧
  samples_seen false evs = n * length (dl_sampler vl) ∧
  scalar_steps "Training Loss" evs
  = batch_steps (loader_len tl) (batches_per_epoch tl) a n ∧
  scalar_steps "Learning Rate" evs
  = batch_steps (loader_len tl) (batches_per_epoch tl) a n ∧
  scalar_steps "Epoch Training Loss" evs = seq a n ∧
  scalar_steps "Epoch Training Accuracy" evs = seq a n ∧
  scalar_steps "Validation Loss" evs = seq a n ∧
  scalar_steps "Validation Accuracy" evs = seq a n.
Proof.
  induction n as [|n IH]; intros a st st' evs Hrun.
  { injection Hrun as <- <-. split_and!; try done. by left. }
  cbn [seq run_loop] in Hrun.
  destruct (epoch_body ops tl vl st a) as [[st1 e1]|] eqn:Hepoch; [|done].
  cbn in Hrun.
  destruct (run_loop (epoch_body ops tl vl) st1 (seq (S a) n))
    as [[st2 e2]|] eqn:Hrest; [|done].
  cbn in Hrun. injection Hrun as <- <-.
  destruct (epoch_body_records ops tl vl st a st1 e1 Hepoch)
    as (H0 & H1 & H2 & H3 & H4 & H5 & H6 & H7 & H8).
  destruct (IH (S a) st1 st2 e2 Hrest)
    as (_ & R1 & R2 & R3 & R4 & R5 & R6 & R7 & R8).
  rewrite !samples_seen_app, !scalar_steps_app.
  rewrite H1, H2, H3, H4, H5, H6, H7, H8, R1, R2, R3, R4, R5, R6, R7, R8.
  split_and!; try done; try lia. by right.
Qed.

(** The outcome of [train_model] and the records of a completed call. *)
Lemma train_model_records m tl vl n g :
  match train_model ops m tl vl n g with
  | Ok (_, events) =>
      (n = 0 ∨ first_failure tl vl = None) ∧
      samples_seen true events = n * length (dl_sampler tl) ∧
      samples_seen false events = n * length (dl_sampler vl) ∧
      scalar_steps "Training Loss" events
      = batch_steps (loader_len tl) (batches_per_epoch tl) 0 n ∧
      scalar_steps "Learning Rate" events
      = batch_steps (loader_len tl) (batches_per_epoch tl) 0 n ∧
      scalar_steps "Epoch Training Loss" events = seq 0 n ∧
      scalar_steps "Epoch Training Accuracy" events = seq 0 n ∧
      scalar_steps "Validation Loss" events = seq 0 n ∧
      scalar_steps "Validation Accuracy" events = seq 0 n
  | Raise e => 0 < n ∧ first_failure tl vl = Some e
  end.
Proof.
  unfold train_model.
  destruct (run_loop (epoch_body ops tl vl) (initial_state ops m g) (seq 0 n))
    as [[st evs]|e] eqn:Hrun; cbn.
  2:{ by eapply epochs_loop_raise. }
  destruct (epochs_loop_records tl vl n 0 _ st evs Hrun)
    as (H0 & H1 & H2 & H3 & H4 & H5 & H6 & H7 & H8).
  rewrite !samples_seen_app, !scalar_steps_app.
  rewrite H1, H2, H3, H4, H5, H6, H7, H8.
  unfold samples_seen. cbn. rewrite !app_nil_r.
  split_and!; try done; lia.
Qed.

End RunOutcome.


Section RunRecords.
Context {M W : Type} (ops : collaborators M W).

Lemma train_model_raise_reason m tl vl n g e :
  train_model ops m tl vl n g = Raise e →
  ¬ (loader_in_range tl ∧ loader_in_range vl).
Proof.
  intros Hrun Hok. apply first_failure_None in Hok.
  pose proof (train_model_records ops m tl vl n g) as Hrec.
  rewrite Hrun in Hrec. destruct Hrec as [_ Hfail]. congruence.
Qed.

Lemma main_raise_reason m dir listing bs k epochs g1 g2 e :
  main ops m dir listing bs k epochs g1 g2 = Raise e →
  ∀ tl vl g',
    get_data_loaders dir listing bs k g1 = Ok (tl, vl, g') →
    epochs = 0 ∨ dl_sampler tl = [].
Proof.
  intros Hrun tl vl g' Hdl.
  destruct (decide (epochs = 0)) as [|He]; [by left|].
  destruct (decide (dl_sampler tl = [])) as [|Hne]; [by right|].
  exfalso.
  destruct (main_succeeds ops m dir listing bs k epochs g1 g2 tl vl g' Hdl)
    as [events Hev]; [lia|done|congruence].
Qed.

Lemma main_readings (tev : list (event W)) epochs spe w :
  (∀ grad, samples_seen grad
             ([OneCycleLR epochs spe] ++ tev ++ [TorchSave FinalModel w])
           = samples_seen grad tev) ∧
  (∀ tag, scalar_steps tag
            ([OneCycleLR epochs spe] ++ tev ++ [TorchSave FinalModel w])
          = scalar_steps tag tev).
Proof.
  split.
  - intros grad. rewrite !samples_seen_app. unfold samples_seen. cbn. lia.
  - intros tag. rewrite !scalar_steps_app. cbn. by rewrite app_nil_r.
Qed.

End RunRecords.

(** X9: the step index written with the per-batch records ("Training
    Loss", "Learning Rate") is [epoch * len(train_loader) + batch_idx]; over
    a completed run these indices are 0, 1, 2, ... up to
    [num_epochs * len(train_loader) - 1], each once and in order, and each
    of the four per-epoch records is written once per epoch with the epoch
    number as its step. *)
Theorem X9_record_steps_are_consecutive {M W} (ops : collaborators M W)
    m dir listing bs k epochs g1 g2 :
  (∀ tl vl g,
     0 < dl_batch_size tl →
     match train_model ops m tl vl epochs g with
     | Ok (_, events) =>
         scalar_steps "Training Loss" events
         = seq 0 (epochs * loader_len tl) ∧
         scalar_steps "Learning Rate" events
         = seq 0 (epochs * loader_len tl) ∧
         scalar_steps "Epoch Training Loss" events = seq 0 epochs ∧
         scalar_steps "Epoch Training Accuracy" events = seq 0 epochs ∧
         scalar_steps "Validation Loss" events = seq 0 epochs ∧
         scalar_steps "Validation Accuracy" events = seq 0 epochs
     | Raise _ => ¬ (loader_in_range tl ∧ loader_in_range vl)
     end) ∧
  match main ops m dir listing bs k epochs g1 g2 with
  | Ok events =>
      ∃ steps_per_epoch,
        head events = Some (OneCycleLR epochs steps_per_epoch) ∧
        scalar_steps "Training Loss" events
        = seq 0 (epochs * steps_per_epoch) ∧
        scalar_steps "Learning Rate" events
        = seq 0 (epochs * steps_per_epoch) ∧
        scalar_steps "Epoch Training Loss" events = seq 0 epochs ∧
        scalar_steps "Epoch Training Accuracy" events = seq 0 epochs ∧
        scalar_steps "Validation Loss" events = seq 0 epochs ∧
        scalar_steps "Validation Accuracy" events = seq 0 epochs
  | Raise _ =>
      ∀ tl vl g',
        get_data_loaders dir listing bs k g1 = Ok (tl, vl, g') →
        epochs = 0 ∨ dl_sampler tl = []
  end.
Proof.
  assert (∀ tl vl g m' events,
            0 < dl_batch_size tl →
            train_model ops m tl vl epochs g = Ok (m', events) →
            scalar_steps "Training Loss" events
            = seq 0 (epochs * loader_len tl) ∧
            scalar_steps "Learning Rate" events
            = seq 0 (epochs * loader_len tl) ∧
            scalar_steps "Epoch Training Loss" events = seq 0 epochs ∧
            scalar_steps "Epoch Training Accuracy" events = seq 0 epochs ∧
            scalar_steps "Validation Loss" events = seq 0 epochs ∧
            scalar_steps "Validation Accuracy" events = seq 0 epochs)
    as Hsteps.
  { intros tl vl g m' events Hbs Hrun.
    pose proof (train_model_records ops m tl vl epochs g) as Hrec.
    rewrite Hrun in Hrec.
    destruct Hrec as (_ & _ & _ & H3 & H4 & H5 & H6 & H7 & H8).
    rewrite (batches_per_epoch_len tl Hbs), batch_steps_seq in H3, H4.
    by split_and!. }
  split.
  - intros tl vl g Hbs.
    destruct (train_model ops m tl vl epochs g) as [[m' events]|e] eqn:Hrun.
    + by apply (Hsteps tl vl g m').
    + by eapply train_model_raise_reason.
  - destruct (main ops m dir listing bs k epochs g1 g2) as [events|e] eqn:Hrun.
    2:{ by eapply main_raise_reason. }
    apply main_inv in Hrun
      as (tl & vl & g' & m' & tev & _ & _ & _ & Hbs & Htm & ->).
    exists (loader_len tl). split; [done|].
    destruct (main_readings tev epochs (loader_len tl) (state_dict ops m'))
      as [_ Hread].
    rewrite !Hread. by apply (Hsteps tl vl g2 m').
Qed.

(** X10: in every epoch each index of the training list goes through the
    model once with gradients and each index of the validation list once
    without: a completed run has processed [num_epochs] times the length of
    the training list in training mode and [num_epochs] times the length of
    the validation list in evaluation mode, whatever the size of the
    catalog. *)
Theorem X10_samples_processed {M W} (ops : collaborators M W)
    m dir listing bs k epochs g1 g2 :
  (∀ tl vl g,
     match train_model ops m tl vl epochs g with
     | Ok (_, events) =>
         samples_seen true events = epochs * length (dl_sampler tl) ∧
         samples_seen false events = epochs * length (dl_sampler vl)
     | Raise _ => ¬ (loader_in_range tl ∧ loader_in_range vl)
     end) ∧
  match main ops m dir listing bs k epochs g1 g2 with
  | Ok events =>
      ∃ tl vl g',
        get_data_loaders dir listing bs k g1 = Ok (tl, vl, g') ∧
        samples_seen true events = epochs * length (dl_sampler tl) ∧
        samples_seen false events = epochs * length (dl_sampler vl) ∧
        length (dl_sampler tl) + length (dl_sampler vl)
        = length (classes (dl_dataset tl)) * k
  | Raise _ =>
      ∀ tl vl g',
        get_data_loaders dir listing bs k g1 = Ok (tl, vl, g') →
        epochs = 0 ∨ dl_sampler tl = []
  end.
Proof.
  split.
  - intros tl vl g.
    pose proof (train_model_records ops m tl vl epochs g) as Hrec.
    destruct (train_model ops m tl vl epochs g) as [[m' events]|e] eqn:Hrun.
    + by destruct Hrec as (_ & H1 & H2 & _).
    + by eapply train_model_raise_reason.
  - destruct (main ops m dir listing bs k epochs g1 g2) as [events|e] eqn:Hrun.
    2:{ by eapply main_raise_reason. }
    apply main_inv in Hrun
      as (tl & vl & g' & m' & tev & Hdl & _ & _ & _ & Htm & ->).
    exists tl, vl, g'. split; [done|].
    destruct (main_readings tev epochs (loader_len tl) (state_dict ops m'))
      as [Hread _].
    rewrite !Hread.
    pose proof (train_model_records ops m tl vl epochs g2) as Hrec.
    rewrite Htm in Hrec. destruct Hrec as (_ & H1 & H2 & _).
    split_and!; [done|done|].
    apply get_data_loaders_inv in Hdl as (es & ds & _ & _ & Hlo).
    destruct (loaders_of_samplers ds bs k g1 tl vl g' Hlo)
      as (_ & _ & _ & Hlen & _).
    rewrite length_app in Hlen.
    apply loaders_of_inv in Hlo as (pool & g & shuffled & _ & _ & Htl & _).
    assert (dl_dataset tl = ds) as -> by (by rewrite Htl). done.
Qed.

(** ** The files written by a run *)

Section Files.
Context {M W : Type} (ops : collaborators M W).

Lemma epochs_loop_files tl vl n : ∀ a st st' evs,
  run_loop (epoch_body ops tl vl) st (seq a n) = Ok (st', evs) →
  disk_writes evs = checkpoint_write <$> best_checkpoints evs ∧
  StronglySorted lt (best_checkpoints evs).*1.*1 ∧
  Forall (λ c, a ≤ c.1.1 ∧ c.1.1 < a + n ∧
               val_losses evs !! (c.1.1 - a) = Some c.1.2)
         (best_checkpoints evs).
Proof.
  induction n as [|n IH]; intros a st st' evs Hrun.
  { injection Hrun as <- <-. split_and!; constructor. }
  cbn [seq run_loop] in Hrun.
  destruct (epoch_body ops tl vl st a) as [[st1 e1]|] eqn:Hepoch; [|done].
  cbn in Hrun.
  destruct (run_loop (epoch_body ops tl vl) st1 (seq (S a) n))
    as [[st2 e2]|] eqn:Hrest; [|done].
  cbn in Hrun. injection Hrun as <- <-.
  destruct (epoch_body_ok ops tl vl st a st1 e1 Hepoch)
    as (_ & _ & _ & v & Hv & _ & Hdisk & _).
  destruct (IH (S a) st1 st2 e2 Hrest) as (Hd2 & Hs2 & Hf2).
  assert (Forall (λ c : nat * float * W,
                    a ≤ c.1.1 ∧ c.1.1 < a + S n ∧
                    (v :: val_losses e2) !! (c.1.1 - a) = Some c.1.2)
                 (best_checkpoints e2)) as Hf2'.
  { eapply Forall_impl; [exact Hf2|]. intros c (H1 & H2 & H3). cbv beta.
    split_and!; [lia|lia|].
    replace (c.1.1 - a) with (S (c.1.1 - S a)) by lia. exact H3. }
  assert (best_checkpoints e1
          = if (v <? best_loss st)%float
            then [(a, v, state_dict ops (ts_model st1))] else []) as Hcp1.
  { unfold best_checkpoints. rewrite Hdisk.
    by destruct (v <? best_loss st)%float. }
  rewrite disk_writes_app, best_checkpoints_app, val_losses_app.
  rewrite Hv, Hdisk, Hcp1, Hd2.
  destruct (v <? best_loss st)%float; cbn [app fmap list_fmap].
  - split_and!.
    + done.
    + constructor; [done|]. apply Forall_fmap, Forall_fmap.
      eapply Forall_impl; [exact Hf2|]. intros c (H1 & _). simpl. lia.
    + constructor; [|done]. cbn [fst snd]. rewrite Nat.sub_diag.
      split_and!; [lia|lia|done].
  - by split_and!.
Qed.

Lemma train_model_files m tl vl n g m' events :
  train_model ops m tl vl n g = Ok (m', events) →
  disk_writes events = checkpoint_write <$> best_checkpoints events ∧
  StronglySorted lt (best_checkpoints events).*1.*1 ∧
  Forall (λ c, c.1.1 < n ∧ val_losses events !! c.1.1 = Some c.1.2)
         (best_checkpoints events).
Proof.
  intros (st & evs & Hrun & _ & ->)%train_model_inv.
  destruct (epochs_loop_files tl vl n 0 _ st evs Hrun) as (Hd & Hs & Hf).
  rewrite disk_writes_app, best_checkpoints_app, val_losses_app.
  cbn. rewrite !app_nil_r. split_and!; [done|done|].
  eapply Forall_impl; [exact Hf|]. intros c (_ & H2 & H3). cbv beta.
  rewrite Nat.sub_0_r in H3. split; [lia|done].
Qed.

End Files.

(** X11: [train_model] writes nothing to disk but best checkpoints. Their
    epoch numbers increase strictly along the run and stay below
    [num_epochs], so no checkpoint file is written twice, and the loss in
    the name of each is the validation loss reported for its epoch. A
    completed run of [main] writes these checkpoints and then, as its last
    write, the final model, once. *)
Theorem X11_files_written {M W} (ops : collaborators M W)
    m dir listing bs k epochs g1 g2 :
  (∀ tl vl g,
     match train_model ops m tl vl epochs g with
     | Ok (_, events) =>
         disk_writes events = checkpoint_write <$> best_checkpoints events ∧
         StronglySorted lt (best_checkpoints events).*1.*1 ∧
         Forall (λ c, c.1.1 < epochs ∧
                      val_losses events !! c.1.1 = Some c.1.2)
                (best_checkpoints events)
     | Raise _ => ¬ (loader_in_range tl ∧ loader_in_range vl)
     end) ∧
  match main ops m dir listing bs k epochs g1 g2 with
  | Ok events =>
      ∃ final,
        disk_writes events
        = (checkpoint_write <$> best_checkpoints events)
          ++ [(FinalModel, final)] ∧
        StronglySorted lt (best_checkpoints events).*1.*1 ∧
        Forall (λ c, c.1.1 < epochs ∧
                     val_losses events !! c.1.1 = Some c.1.2)
               (best_checkpoints events)
  | Raise _ =>
      ∀ tl vl g',
        get_data_loaders dir listing bs k g1 = Ok (tl, vl, g') →
        epochs = 0 ∨ dl_sampler tl = []
  end.
Proof.
  split.
  - intros tl vl g.
    destruct (train_model ops m tl vl epochs g) as [[m' events]|e] eqn:Hrun.
    + by apply (train_model_files ops m tl vl epochs g m').
    + by eapply train_model_raise_reason.
  - destruct (main ops m dir listing bs k epochs g1 g2) as [events|e] eqn:Hrun.
    2:{ by eapply main_raise_reason. }
    apply main_inv in Hrun
      as (tl & vl & g' & m' & tev & _ & _ & _ & _ & Htm & ->).
    destruct (train_model_files ops m tl vl epochs g2 m' tev Htm)
      as (Hd & Hs & Hf).
    exists (state_dict ops m').
    rewrite !disk_writes_app, !best_checkpoints_app, !val_losses_app.
    cbn. rewrite !app_nil_r, Hd. by split_and!.
Qed.

(** ** The outcome of [main] *)



(** ** Paths below a root *)

Lemma valid_name_spec n :
  valid_name n ↔ n ≠ "" ∧ "/"%char ∉ la n.
Proof.
  unfold valid_name. rewrite andb_True, negb_True, !bool_decide_spec. done.
Qed.

Lemma clean_path_spec p :
  clean_path p ↔ p ≠ "" ∧ ¬ [("/")%char] `suffix_of` la p.
Proof.
  unfold clean_path. rewrite andb_True, !negb_True, bool_decide_spec.
  by rewrite endswith_spec.
Qed.

Lemma la_nil s : la s = [] → s = "".
Proof. by destruct s. Qed.

Lemma prefix_sep_valid b : valid_name b → String.prefix "/" b = false.
Proof.
  intros [_ Hsep]%valid_name_spec. destruct b as [|c b]; [done|].
  cbn [String.prefix]. destruct (ascii_dec "/" c) as [<-|]; [|done].
  exfalso. apply Hsep. by left.
Qed.

(** Joining a directory and a valid name puts a fixed prefix, which depends
    on the directory only, before the name. *)
Lemma path_join_prefix a :
  ∃ P, ∀ b, valid_name b → la (path_join a b) = P ++ la b.
Proof.
  unfold path_join.
  destruct (bool_decide (a = "") || endswith a "/") eqn:Ha.
  - exists (la a). intros b Hb.
    by rewrite (prefix_sep_valid b Hb), la_app.
  - exists (la a ++ ["/"%char]). intros b Hb.
    by rewrite (prefix_sep_valid b Hb), !la_app, app_assoc.
Qed.

Lemma path_join_clean_eq a b :
  clean_path a → valid_name b →
  la (path_join a b) = la a ++ "/"%char :: la b.
Proof.
  intros Ha Hb. unfold path_join. rewrite (prefix_sep_valid b Hb).
  unfold clean_path in Ha. apply andb_True in Ha as [Hne Hend].
  apply negb_True in Hne, Hend.
  destruct (bool_decide (a = "")); [done|].
  destruct (endswith a "/"); [done|]. cbn [orb].
  by rewrite !la_app.
Qed.

Lemma path_join_clean a b : valid_name b → clean_path (path_join a b).
Proof.
  intros Hb. destruct (path_join_prefix a) as [P HP].
  specialize (HP b Hb). apply valid_name_spec in Hb as [Hne Hsep].
  apply clean_path_spec. split.
  - intros Hnil. rewrite Hnil in HP. symmetry in HP.
    apply app_eq_nil in HP as [_ HP]. by apply la_nil in HP.
  - intros [k Hk]. rewrite HP in Hk.
    destruct (la b) as [|c l] eqn:Hb using rev_ind.
    { by apply la_nil in Hb. }
    rewrite app_assoc in Hk. apply app_inj_2 in Hk as [_ [= ->]]; [|done].
    apply Hsep. rewrite elem_of_app. right. by left.
Qed.

(** Two names without separator, each followed by nothing or by a
    separator: equal as soon as the strings are. *)
Lemma no_sep_prefix_eq (a b s s' : list ascii) :
  "/"%char ∉ a → "/"%char ∉ b →
  (s = [] ∨ ∃ t, s = "/"%char :: t) → (s' = [] ∨ ∃ t, s' = "/"%char :: t) →
  a ++ s = b ++ s' → a = b ∧ s = s'.
Proof.
  revert b. induction a as [|c a IH]; intros [|c' b] Ha Hb Hs Hs' Heq.
  - done.
  - exfalso. simpl in Heq. destruct Hs as [->|[t ->]]; [done|].
    injection Heq as <- _. apply Hb. by left.
  - exfalso. simpl in Heq. destruct Hs' as [->|[t ->]]; [done|].
    injection Heq as -> _. apply Ha. by left.
  - injection Heq as -> Heq.
    destruct (IH b) as [-> ->]; try done.
    + intros Hin. apply Ha. by right.
    + intros Hin. apply Hb. by right.
Qed.

(** A path is split at its last separator in one way only. *)
Lemma last_sep_split (r r' f f' : list ascii) :
  "/"%char ∉ f → "/"%char ∉ f' →
  r ++ "/"%char :: f = r' ++ "/"%char :: f' → r = r' ∧ f = f'.
Proof.
  intros Hf Hf' Heq. apply (f_equal reverse) in Heq.
  rewrite !reverse_app, !reverse_cons, <- !app_assoc in Heq. simpl in Heq.
  apply no_sep_prefix_eq in Heq as [Hfeq Hreq].
  - split.
    + injection Hreq as Hr. by apply (inj reverse).
    + by apply (inj reverse).
  - by rewrite elem_of_reverse.
  - by rewrite elem_of_reverse.
  - right. by eexists.
  - right. by eexists.
Qed.

(** ** The walk of a well-formed tree *)

Lemma fs_entry_ind_deep (P : fs_entry → Prop) :
  (∀ n, P (File n)) →
  (∀ n cs, Forall P cs → P (Dir n cs)) →
  ∀ e, P e.
Proof.
  intros Hfile Hdir. fix IH 1. intros [n|n cs]; [apply Hfile|].
  apply Hdir. induction cs as [|e cs IHcs]; constructor; [apply IH|apply IHcs].
Qed.

Lemma walk_entry_Dir parent n cs :
  walk_entry parent (Dir n cs) = walk (path_join parent n) cs.
Proof.
  reflexivity.
Qed.

Lemma wf_listing_spec es :
  wf_listing es ↔ NoDup (entry_name <$> es) ∧ Forall (λ e, wf_entry e) es.
Proof.
  unfold wf_listing. rewrite andb_True, bool_decide_spec, forallb_True. done.
Qed.

Lemma wf_entry_Dir n cs : wf_entry (Dir n cs) ↔ valid_name n ∧ wf_listing cs.
Proof. cbn [wf_entry]. unfold wf_listing. rewrite !andb_True. tauto. Qed.

Lemma scandir_files_names es n : n ∈ scandir_files es ↔ File n ∈ es.
Proof.
  unfold scandir_files. rewrite list_elem_of_omap. split.
  - intros (e & He & Hn). destruct e; by simplify_eq/=.
  - intros Hin. by exists (File n).
Qed.

Lemma scandir_files_NoDup es :
  NoDup (entry_name <$> es) → NoDup (scandir_files es).
Proof.
  induction es as [|e es IH]; [by constructor|].
  rewrite fmap_cons. intros [Hn Hnd]%NoDup_cons.
  destruct e as [n|n cs]; cbn; [|by apply IH].
  apply NoDup_cons. split; [|by apply IH].
  intros Hin%scandir_files_names. apply Hn.
  apply list_elem_of_fmap. by exists (File n).
Qed.

Lemma scandir_files_valid es :
  Forall (λ e, wf_entry e) es → Forall (λ f, valid_name f) (scandir_files es).
Proof.
  intros Hwf. apply Forall_forall. intros f Hf%scandir_files_names.
  rewrite Forall_forall in Hwf. exact (Hwf _ Hf).
Qed.

(** Lists produced by distinctly tagged elements, whose keys tell the tag,
    have pairwise distinct keys when put together. *)
Lemma NoDup_flat_map_tagged {A B C T} (f : A → list B) (key : B → C)
    (tag : A → T) (l : list A) :
  NoDup (tag <$> l) →
  (∀ x, x ∈ l → NoDup (key <$> f x)) →
  (∀ x y k, x ∈ l → y ∈ l → k ∈ key <$> f x → k ∈ key <$> f y →
            tag x = tag y) →
  NoDup (key <$> flat_map f l).
Proof.
  induction l as [|x l IH]; intros Htags Heach Htag; [constructor|].
  rewrite fmap_cons in Htags. apply NoDup_cons in Htags as [Hx Htags].
  cbn [flat_map]. rewrite fmap_app. apply NoDup_app. split_and!.
  - apply Heach. by left.
  - intros k Hk Hk'.
    apply list_elem_of_fmap in Hk' as (b & -> & Hb).
    apply in_flat_map_elem_of in Hb as (y & Hy & Hb).
    apply Hx. rewrite (Htag x y (key b)); [| by left | by right | done |].
    + apply list_elem_of_fmap. by exists y.
    + apply list_elem_of_fmap. by exists b.
  - apply IH; [done| |].
    + intros y Hy. apply Heach. by right.
    + intros y z k Hy Hz. apply Htag; by right.
Qed.

(** The walk of a directory, given the walks of its entries: distinct
    directory paths, each the top path followed by nothing or by a
    separator and more; each path clean, each list of file names without
    repetition and made of valid names. *)
Lemma walk_combine top cs :
  clean_path top → wf_listing cs →
  (∀ e', e' ∈ cs →
     NoDup (walk_entry top e').*1.*1 ∧
     Forall (λ it : walk_item,
               (∃ s, la it.1.1 = la top ++ "/"%char :: la (entry_name e') ++ s ∧
                     (s = [] ∨ ∃ t, s = "/"%char :: t)) ∧
               clean_path it.1.1 ∧ NoDup it.2 ∧
               Forall (λ f, valid_name f) it.2)
            (walk_entry top e')) →
  NoDup (walk top cs).*1.*1 ∧
  Forall (λ it : walk_item,
            (∃ s, la it.1.1 = la top ++ s ∧
                  (s = [] ∨ ∃ t, s = "/"%char :: t)) ∧
            clean_path it.1.1 ∧ NoDup it.2 ∧
            Forall (λ f, valid_name f) it.2)
         (walk top cs).
Proof.
  intros Hclean [Hnames Hall]%wf_listing_spec Hchild. unfold walk.
  assert (∀ e', e' ∈ cs → ∀ k, k ∈ (walk_entry top e').*1.*1 →
            wf_entry e' ∧
            ∃ s, la k = la top ++ "/"%char :: la (entry_name e') ++ s ∧
                 (s = [] ∨ ∃ t, s = "/"%char :: t)) as Hroot.
  { intros e' He' k Hk. split.
    { rewrite Forall_forall in Hall. by apply Hall. }
    destruct (Hchild e' He') as [_ Hitems]. rewrite Forall_forall in Hitems.
    apply list_elem_of_fmap in Hk as (p & -> & Hp).
    apply list_elem_of_fmap in Hp as (it & -> & Hit).
    by destruct (Hitems it Hit) as [Hs _]. }
  cbn [fmap list_fmap fst]. split.
  - apply NoDup_cons. split.
    + rewrite <- list_fmap_compose. intros Hin.
      apply list_elem_of_fmap in Hin as (it & Heq & Hit).
      apply in_flat_map_elem_of in Hit as (e' & He' & Hit).
      destruct (Hroot e' He' top) as [_ (s & Hs & _)].
      { rewrite <- list_fmap_compose. apply list_elem_of_fmap.
        exists it. by split. }
      apply (f_equal length) in Hs. rewrite length_app in Hs. simpl in Hs. lia.
    + rewrite <- list_fmap_compose.
      apply (NoDup_flat_map_tagged _ _ entry_name); [done| |].
      * intros e' He'. rewrite list_fmap_compose. by apply Hchild.
      * intros x y k Hx Hy Hkx Hky.
        rewrite list_fmap_compose in Hkx, Hky.
        destruct (Hroot x Hx k Hkx) as [Hwx (s & Hs & Hsep)].
        destruct (Hroot y Hy k Hky) as [Hwy (s' & Hs' & Hsep')].
        rewrite Hs in Hs'. apply app_inv_head in Hs'. injection Hs' as Hs'.
        apply no_sep_prefix_eq in Hs' as [Heq _]; [by apply la_inj| | |done|done].
        -- destruct x; simpl in Hwx |- *;
             [by apply valid_name_spec in Hwx as [_ ?]|].
           by apply wf_entry_Dir in Hwx as [[_ ?]%valid_name_spec _].
        -- destruct y; simpl in Hwy |- *;
             [by apply valid_name_spec in Hwy as [_ ?]|].
           by apply wf_entry_Dir in Hwy as [[_ ?]%valid_name_spec _].
  - constructor.
    + cbn [fst snd]. split_and!.
      * exists []. rewrite app_nil_r. by split; [|left].
      * done.
      * by apply scandir_files_NoDup.
      * by apply scandir_files_valid.
    + apply Forall_forall. intros it Hit.
      apply in_flat_map_elem_of in Hit as (e' & He' & Hit).
      destruct (Hchild e' He') as [_ Hitems]. rewrite Forall_forall in Hitems.
      destruct (Hitems it Hit) as ((s & Hs & Hsep) & Hc & Hnd & Hv).
      split_and!; [|done..].
      exists ("/"%char :: la (entry_name e') ++ s). split; [done|right; by eexists].
Qed.

Lemma walk_entry_facts : ∀ e parent,
  clean_path parent → wf_entry e →
  NoDup (walk_entry parent e).*1.*1 ∧
  Forall (λ it : walk_item,
            (∃ s, la it.1.1 = la parent ++ "/"%char :: la (entry_name e) ++ s ∧
                  (s = [] ∨ ∃ t, s = "/"%char :: t)) ∧
            clean_path it.1.1 ∧ NoDup it.2 ∧
            Forall (λ f, valid_name f) it.2)
         (walk_entry parent e).
Proof.
  induction e as [n|n cs IH] using fs_entry_ind_deep; intros parent Hparent Hwf.
  { split; constructor. }
  apply wf_entry_Dir in Hwf as [Hn Hcs].
  rewrite walk_entry_Dir.
  assert (la (path_join parent n) = la parent ++ "/"%char :: la n) as Htop
    by (by apply path_join_clean_eq).
  assert (clean_path (path_join parent n)) as Hclean
    by (by apply path_join_clean).
  destruct (walk_combine (path_join parent n) cs Hclean Hcs) as [Hnd Hitems].
  { intros e' He'. rewrite Forall_forall in IH.
    apply (IH e' He' _ Hclean).
    apply wf_listing_spec in Hcs as [_ Hall].
    rewrite Forall_forall in Hall. by apply Hall. }
  split; [done|].
  eapply Forall_impl; [exact Hitems|].
  intros it ((s & Hs & Hsep) & Hrest). split; [|done].
  exists s. cbn [entry_name]. by rewrite Hs, Htop, <- app_assoc.
Qed.

(** The walk of a well-formed directory. *)
Lemma walk_facts top cs :
  clean_path top → wf_listing cs →
  NoDup (walk top cs).*1.*1 ∧
  Forall (λ it : walk_item,
            (∃ s, la it.1.1 = la top ++ s ∧
                  (s = [] ∨ ∃ t, s = "/"%char :: t)) ∧
            clean_path it.1.1 ∧ NoDup it.2 ∧
            Forall (λ f, valid_name f) it.2)
         (walk top cs).
Proof.
  intros Hclean Hcs. apply walk_combine; [done|done|].
  intros e' He'. apply walk_entry_facts; [done|].
  apply wf_listing_spec in Hcs as [_ Hall].
  rewrite Forall_forall in Hall. by apply Hall.
Qed.

(** ** The order of the entries of a class *)

Lemma lookup_dir_Some name es cs :
  lookup_dir name es = Some cs → Dir name cs ∈ es.
Proof.
  unfold lookup_dir.
  destruct (list_find (λ e, entry_name e = name) es) as [[i e]|] eqn:Hfind;
    [|done].
  apply list_find_Some in Hfind as (Hi & Hname & _).
  destruct e as [f|n cs']; [done|]. intros [= ->]. simpl in Hname. subst n.
  by eapply list_elem_of_lookup_2.
Qed.

Lemma sorted_NoDup_strict (l : list string) :
  StronglySorted (≤)%string l → NoDup l →
  StronglySorted (λ a b, (a ≤ b)%string ∧ a ≠ b) l.
Proof.
  induction 1 as [|x l Hs IH Hx]; intros Hnd; [constructor|].
  apply NoDup_cons in Hnd as [Hnotin Hnd].
  constructor; [by apply IH|].
  apply Forall_forall. intros y Hy. rewrite Forall_forall in Hx.
  split; [by apply Hx|]. by intros ->.
Qed.

Lemma file_lt_asym x y : file_lt x y → file_lt y x → False.
Proof.
  intros [[H1 Hne]|(Heq & H1 & Hne)] [[H2 Hne']|(Heq' & H2 & Hne')].
  - apply Hne. by apply (anti_symm (≤)%string).
  - apply Hne. congruence.
  - apply Hne'. congruence.
  - apply Hne. by apply (anti_symm (≤)%string).
Qed.

Lemma file_lt_NoDup l : StronglySorted file_lt l → NoDup l.
Proof.
  induction 1 as [|x l Hs IH Hx]; constructor; [|done].
  intros Hin. rewrite Forall_forall in Hx.
  by apply (file_lt_asym x x); apply Hx.
Qed.

(** A list of files in strict order is determined by the files it holds. *)
Lemma file_lt_unique l1 l2 :
  StronglySorted file_lt l1 → StronglySorted file_lt l2 → l1 ≡ₚ l2 → l1 = l2.
Proof.
  apply StronglySorted_unique_strong. intros x y _ _ Hxy Hyx.
  by destruct (file_lt_asym x y).
Qed.

Lemma listing_files_sorted (items : list (string * list string)) :
  StronglySorted (λ a b, (a ≤ b)%string ∧ a ≠ b) items.*1 →
  Forall (λ it, StronglySorted (λ a b, (a ≤ b)%string ∧ a ≠ b) it.2) items →
  StronglySorted file_lt (listing_files items).
Proof.
  unfold listing_files.
  induction items as [|[r fs] items IH]; intros Hroots Hfiles; [constructor|].
  rewrite fmap_cons in Hroots.
  apply StronglySorted_cons in Hroots as [Hr Hroots].
  apply Forall_cons in Hfiles as [Hfs Hfiles].
  cbn [flat_map fst snd]. apply StronglySorted_app_2.
  - intros x1 x2 Hx1 Hx2.
    apply list_elem_of_fmap in Hx1 as (f & -> & Hf).
    apply in_flat_map_elem_of in Hx2 as ([r' fs'] & Hit & Hx2).
    apply list_elem_of_fmap in Hx2 as (f' & -> & Hf').
    left. simpl. rewrite Forall_forall in Hr. apply Hr.
    apply list_elem_of_fmap. by exists (r', fs').
  - simpl in Hfs. clear -Hfs.
    induction Hfs as [|f fs Hs IH Hf]; [constructor|].
    rewrite fmap_cons. constructor; [done|].
    apply Forall_fmap. eapply Forall_impl; [exact Hf|].
    intros f' Hff'. right. by split.
  - by apply IH.
Qed.

(** The files of a class, as the catalog lists them: in strict order, each
    in a clean directory at or below the class directory, each with a valid
    name. *)
Lemma class_listing_facts dir es name :
  wf_listing es →
  StronglySorted file_lt (listing_files (class_listing dir es name)) ∧
  Forall (λ rf : string * string,
            clean_path rf.1 ∧ valid_name rf.2 ∧
            ∃ s, la rf.1 = la (path_join dir name) ++ s ∧
                 (s = [] ∨ ∃ t, s = "/"%char :: t))
         (listing_files (class_listing dir es name)).
Proof.
  intros Hwf. pose proof (class_listing_sorted dir es name) as [Hroots Hfiles].
  unfold class_listing in *.
  destruct (lookup_dir name es) as [cs|] eqn:Hlook; [|split; constructor].
  apply lookup_dir_Some in Hlook.
  apply wf_listing_spec in Hwf as [_ Hall]. rewrite Forall_forall in Hall.
  specialize (Hall _ Hlook). apply wf_entry_Dir in Hall as [Hname Hcs].
  destruct (walk_facts (path_join dir name) cs) as [Hnd Hitems];
    [by apply path_join_clean|done|].
  assert (sorted_walk (walk (path_join dir name) cs)
          ≡ₚ walk (path_join dir name) cs) as Hperm
    by apply merge_sort_Permutation.
  rewrite <- Hperm in Hnd, Hitems. rewrite Forall_forall in Hitems.
  split.
  - apply listing_files_sorted.
    + apply sorted_NoDup_strict; [done|].
      rewrite <- list_fmap_compose. rewrite <- list_fmap_compose in Hnd.
      exact Hnd.
    + apply Forall_fmap, Forall_forall. intros it Hit. simpl.
      destruct (Hitems it Hit) as (_ & _ & Hfnd & _).
      apply sorted_NoDup_strict.
      * eapply StronglySorted_sublist; [apply sublist_filter|].
        apply sorted_str_sorted.
      * apply NoDup_filter. by rewrite sorted_str_perm.
  - apply Forall_forall. intros rf Hrf. unfold listing_files in Hrf.
    apply in_flat_map_elem_of in Hrf as (it' & Hit' & Hrf).
    apply list_elem_of_fmap in Hit' as (it & -> & Hit).
    apply list_elem_of_fmap in Hrf as (f & -> & Hf). simpl in Hf |- *.
    destruct (Hitems it Hit) as (Hs & Hc & _ & Hv).
    split_and!; [done| |done].
    apply list_elem_of_filter in Hf as [_ Hf]. rewrite sorted_str_perm in Hf.
    rewrite Forall_forall in Hv. by apply Hv.
Qed.

(** X13: for a well-formed tree the entries of a class are its image files
    in strictly increasing order of (directory path, file name): the
    catalog lists every image file below the class directory exactly once,
    in an order that is fixed by the paths alone. *)
Theorem X13_class_entries_in_path_order dir es :
  wf_listing es →
  ∃ ds,
    CustomImageFolder dir (Some es) = Ok ds ∧
    samples ds
    = flat_map (class_samples dir es (class_to_idx ds)) (classes ds) ∧
    ∀ i name,
      classes ds !! i = Some name →
      ∃ files,
        class_samples dir es (class_to_idx ds) name
        = (λ rf, (path_join rf.1 rf.2, i)) <$> files ∧
        files ≡ₚ filter (λ rf, qualifying rf) (class_files dir es name) ∧
        StronglySorted file_lt files ∧
        NoDup files.
Proof.
  intros Hwf.
  pose proof Hwf as [Hnames _]%wf_listing_spec.
  destruct (catalog_build dir es Hnames) as (ds & Hds & _).
  destruct (catalog_blocks dir es ds Hnames Hds) as [Hsamples Hblock].
  exists ds. split_and!; [done|done|].
  intros i name Hi. exists (listing_files (class_listing dir es name)).
  destruct (class_listing_facts dir es name Hwf) as [Hsorted _].
  split_and!.
  - by rewrite (Hblock i name Hi).
  - apply class_listing_files.
  - done.
  - by apply file_lt_NoDup.
Qed.

Lemma X13_class_entries_in_path_order_witness :
  ∃ ds,
    CustomImageFolder "data/" (Some example_tree) = Ok ds ∧
    samples ds
    = flat_map (class_samples "data/" example_tree (class_to_idx ds))
               (classes ds) ∧
    ∀ i name,
      classes ds !! i = Some name →
      ∃ files,
        class_samples "data/" example_tree (class_to_idx ds) name
        = (λ rf, (path_join rf.1 rf.2, i)) <$> files ∧
        files ≡ₚ filter (λ rf, qualifying rf)
                        (class_files "data/" example_tree name) ∧
        StronglySorted file_lt files ∧
        NoDup files.
Proof.
  apply (X13_class_entries_in_path_order "data/" example_tree).
  vm_compute. exact I.
Defined.

Lemma flat_map_ext_elem {A B} (f g : A → list B) (l : list A) :
  (∀ x, x ∈ l → f x = g x) → flat_map f l = flat_map g l.
Proof.
  induction l as [|x l IH]; intros Hext; [done|].
  cbn [flat_map]. rewrite (Hext x) by (by left).
  rewrite IH; [done|]. intros y Hy. apply Hext. by right.
Qed.

(** X14: the catalog does not depend on the order in which the file system
    lists any directory: two well-formed trees with the same class
    directories and, below each of them, the same image files in the same
    directories give the same catalog. *)
Theorem X14_catalog_independent_of_traversal_order dir es es' :
  wf_listing es → wf_listing es' →
  scandir_dirs es' ≡ₚ scandir_dirs es →
  (∀ name, name ∈ scandir_dirs es →
           filter (λ rf, qualifying rf) (class_files dir es' name)
           ≡ₚ filter (λ rf, qualifying rf) (class_files dir es name)) →
  CustomImageFolder dir (Some es') = CustomImageFolder dir (Some es).
Proof.
  intros Hwf Hwf' Hdirs Hfiles.
  pose proof Hwf as [Hnames _]%wf_listing_spec.
  unfold CustomImageFolder, _find_classes.
  rewrite (sorted_str_unique _ _ Hdirs).
  set (cls := sorted_str (scandir_dirs es)).
  assert (cls ≡ₚ scandir_dirs es) as Hcls by apply sorted_str_perm.
  assert (NoDup cls) as Hnd.
  { rewrite Hcls. by apply scandir_dirs_NoDup. }
  do 2 f_equal. unfold _make_dataset. apply flat_map_ext_elem.
  intros name Hname.
  rewrite sorted_str_perm, (enumerate_dict_keys cls Hnd) in Hname.
  pose proof Hname as [i Hi]%list_elem_of_lookup.
  rewrite (class_samples_at dir es cls i name Hnd Hi).
  rewrite (class_samples_at dir es' cls i name Hnd Hi).
  unfold listing_entries. f_equal.
  destruct (class_listing_facts dir es name Hwf) as [Hsorted _].
  destruct (class_listing_facts dir es' name Hwf') as [Hsorted' _].
  apply file_lt_unique; [done|done|].
  rewrite !class_listing_files. apply Hfiles. by rewrite <- Hcls.
Qed.

Lemma X14_catalog_independent_of_traversal_order_witness :
  CustomImageFolder "data/" (Some example_tree_reordered)
  = CustomImageFolder "data/" (Some example_tree).
Proof.
  apply (X14_catalog_independent_of_traversal_order "data/" example_tree
           example_tree_reordered).
  - vm_compute. exact I.
  - vm_compute. exact I.
  - vm_compute. apply perm_swap.
  - intros name Hin.
    change (name ∈ ["oak"; "ash"]) in Hin.
    apply elem_of_cons in Hin as [->|Hin].
    { vm_compute. apply perm_swap. }
    apply list_elem_of_singleton in Hin as ->.
    vm_compute. apply perm_swap.
Defined.

(** ** Distinct entries are distinct files *)

Lemma class_sample_paths dir es name (i : nat) :
  wf_listing es →
  NoDup ((λ rf, (path_join rf.1 rf.2, i))
           <$> listing_files (class_listing dir es name)).*1 ∧
  ∀ P, (∀ b, valid_name b → la (path_join dir b) = P ++ la b) →
       valid_name name →
       Forall (λ path, ∃ t, la path = P ++ la name ++ "/"%char :: t)
              ((λ rf, (path_join rf.1 rf.2, i))
                 <$> listing_files (class_listing dir es name)).*1.
Proof.
  intros Hwf.
  destruct (class_listing_facts dir es name Hwf) as [Hsorted Hfacts].
  rewrite Forall_forall in Hfacts.
  rewrite <- list_fmap_compose. split.
  - apply NoDup_fmap_2_strong; [|by apply file_lt_NoDup].
    intros [r f] [r' f'] Hrf Hrf' Heq. simpl in Heq.
    destruct (Hfacts _ Hrf) as (Hc & Hv & _).
    destruct (Hfacts _ Hrf') as (Hc' & Hv' & _). simpl in *.
    apply (f_equal la) in Heq.
    rewrite !path_join_clean_eq in Heq by done.
    apply valid_name_spec in Hv as [_ Hv].
    apply valid_name_spec in Hv' as [_ Hv'].
    apply last_sep_split in Heq as [Hr Hf]; [|done..].
    apply la_inj in Hr, Hf. by subst.
  - intros P HP Hname. apply Forall_fmap, Forall_forall.
    intros [r f] Hrf. simpl.
    destruct (Hfacts _ Hrf) as (Hc & Hv & s & Hs & Hsep). simpl in *.
    rewrite path_join_clean_eq, Hs, (HP name Hname) by done.
    destruct Hsep as [->|[t ->]].
    + exists (la f). by rewrite app_nil_r, <- app_assoc.
    + exists (t ++ "/"%char :: la f). by rewrite <- !app_assoc.
Qed.

(** The paths of a catalog are pairwise distinct. *)
Lemma catalog_paths_NoDup dir es ds :
  wf_listing es →
  CustomImageFolder dir (Some es) = Ok ds →
  NoDup (samples ds).*1.
Proof.
  intros Hwf Hds.
  pose proof Hwf as [Hnames Hall]%wf_listing_spec.
  destruct (catalog_build dir es Hnames) as (ds' & Hds' & Hcls & _ & Hnd & _).
  rewrite Hds in Hds'. injection Hds' as <-.
  destruct (catalog_blocks dir es ds Hnames Hds) as [Hsamples Hblock].
  assert (∀ name, name ∈ classes ds → valid_name name) as Hvalid.
  { intros name Hname. rewrite Hcls, sorted_str_perm in Hname.
    apply list_elem_of_omap in Hname as (e & He & Hn).
    rewrite Forall_forall in Hall. specialize (Hall e He).
    destruct e as [|n cs]; [done|]. simplify_eq/=.
    by apply wf_entry_Dir in Hall as [? _]. }
  destruct (path_join_prefix dir) as [P HP].
  rewrite Hsamples.
  apply (NoDup_flat_map_tagged _ _ id); [by rewrite list_fmap_id| |].
  - intros name [i Hi]%list_elem_of_lookup. rewrite (Hblock i name Hi).
    by apply class_sample_paths.
  - intros x y k Hx Hy Hkx Hky. unfold id.
    pose proof Hx as [i Hi]%list_elem_of_lookup.
    pose proof Hy as [j Hj]%list_elem_of_lookup.
    rewrite (Hblock i x Hi) in Hkx. rewrite (Hblock j y Hj) in Hky.
    destruct (class_sample_paths dir es x i Hwf) as [_ Hfx].
    destruct (class_sample_paths dir es y j Hwf) as [_ Hfy].
    specialize (Hfx P HP (Hvalid x Hx)). specialize (Hfy P HP (Hvalid y Hy)).
    rewrite Forall_forall in Hfx, Hfy.
    destruct (Hfx k Hkx) as [t Ht]. destruct (Hfy k Hky) as [t' Ht'].
    rewrite Ht in Ht'. apply app_inv_head in Ht'.
    pose proof (Hvalid x Hx) as [_ Hsx]%valid_name_spec.
    pose proof (Hvalid y Hy) as [_ Hsy]%valid_name_spec.
    apply no_sep_prefix_eq in Ht' as [Heq _];
      [by apply la_inj|done|done|right; by eexists|right; by eexists].
Qed.

Lemma getitem_path_inj ds i j path c c' :
  NoDup (samples ds).*1 →
  __getitem__ ds i = Ok (path, c) → __getitem__ ds j = Ok (path, c') →
  i = j.
Proof.
  intros Hpaths Hi Hj. unfold __getitem__ in Hi, Hj.
  destruct (samples ds !! i) as [x|] eqn:Hxi; [|done].
  destruct (samples ds !! j) as [y|] eqn:Hyj; [|done].
  simplify_eq.
  apply (NoDup_lookup (samples ds).*1 i j path Hpaths);
    rewrite list_lookup_fmap; [by rewrite Hxi|by rewrite Hyj].
Qed.

(** X15: in the catalog of a well-formed tree no path occurs twice: two
    positions of the catalog that hold the same path are the same
    position, so distinct indices always stand for distinct files, and the
    position of a path decides its label. *)
Theorem X15_catalog_paths_are_distinct dir es :
  wf_listing es →
  ∃ ds,
    CustomImageFolder dir (Some es) = Ok ds ∧
    NoDup (samples ds).*1 ∧
    ∀ i j path c c',
      __getitem__ ds i = Ok (path, c) → __getitem__ ds j = Ok (path, c') →
      i = j ∧ c = c'.
Proof.
  intros Hwf.
  pose proof Hwf as [Hnames _]%wf_listing_spec.
  destruct (catalog_build dir es Hnames) as (ds & Hds & _).
  pose proof (catalog_paths_NoDup dir es ds Hwf Hds) as Hpaths.
  exists ds. split_and!; [done|done|].
  intros i j path c c' Hi Hj.
  assert (i = j) as -> by (by eapply getitem_path_inj).
  split; [done|]. rewrite Hi in Hj. by injection Hj.
Qed.

Lemma X15_catalog_paths_are_distinct_witness :
  ∃ ds,
    CustomImageFolder "data/" (Some example_tree) = Ok ds ∧
    NoDup (samples ds).*1 ∧
    ∀ i j path c c',
      __getitem__ ds i = Ok (path, c) → __getitem__ ds j = Ok (path, c') →
      i = j ∧ c = c'.
Proof.
  apply (X15_catalog_paths_are_distinct "data/" example_tree).
  vm_compute. exact I.
Defined.

(** X16: when every class directory holds at least [num_img_per_class]
    image files, no file is used both for training and for validation: an
    index of the training list and an index of the validation list never
    stand for the same path. *)
Theorem X16_no_file_in_both_subsets dir es bs k g :
  wf_listing es →
  (∀ name, name ∈ scandir_dirs es →
           k ≤ length (filter (λ rf, qualifying rf) (class_files dir es name))) →
  match get_data_loaders dir (Some es) bs k g with
  | Ok (tl, vl, _) =>
      NoDup (dl_sampler tl ++ dl_sampler vl) ∧
      ∀ i j path c c',
        i ∈ dl_sampler tl → j ∈ dl_sampler vl →
        __getitem__ (dl_dataset tl) i = Ok (path, c) →
        __getitem__ (dl_dataset vl) j = Ok (path, c') →
        False
  | Raise e => e = ValueError
  end.
Proof.
  intros Hwf Hquota.
  pose proof Hwf as [Hnames _]%wf_listing_spec.
  destruct (catalog_build dir es Hnames) as (ds & Hds & _).
  rewrite (get_data_loaders_of dir es ds bs k g Hds).
  pose proof (catalog_classes_length dir es ds Hds) as Hcls.
  destruct (loaders_of ds bs k g) as [[[tl vl] g']|e] eqn:Hrun.
  2:{ eapply loaders_of_raise_ValueError; [|exact Hrun].
      by apply (catalog_labels_in_range dir es). }
  destruct (loaders_of_samplers ds bs k g tl vl g' Hrun)
    as (parts & Hperm & Hparts & _).
  assert (NoDup (dl_sampler tl ++ dl_sampler vl)) as Hnd.
  { rewrite Hperm.
    apply (parts_NoDup ds k (seq 0 (length (classes ds)))); [done| |].
    - apply NoDup_seq.
    - intros c [_ Hc]%elem_of_seq. simpl in Hc.
      apply lookup_lt_is_Some in Hc as [name Hname].
      rewrite (catalog_class_count dir es ds c name Hnames Hds Hname).
      apply Hquota. rewrite <- Hcls. by eapply list_elem_of_lookup_2. }
  split; [done|].
  intros i j path c c' Hi Hj Hpi Hpj.
  apply loaders_of_inv in Hrun as (pool & g1 & sh & _ & _ & Htl & Hvl & _).
  assert (dl_dataset tl = ds) as Hdt by (by rewrite Htl).
  assert (dl_dataset vl = ds) as Hdv by (by rewrite Hvl).
  rewrite Hdt in Hpi. rewrite Hdv in Hpj.
  assert (i = j) as ->.
  { eapply getitem_path_inj; [|exact Hpi|exact Hpj].
    by apply (catalog_paths_NoDup dir es). }
  apply NoDup_app in Hnd as (_ & Hdisj & _). by apply (Hdisj j).
Qed.

Lemma X16_no_file_in_both_subsets_witness :
  match get_data_loaders "data/" (Some two_classes_of_four) 2 4 example_rng with
  | Ok (tl, vl, _) =>
      NoDup (dl_sampler tl ++ dl_sampler vl) ∧
      ∀ i j path c c',
        i ∈ dl_sampler tl → j ∈ dl_sampler vl →
        __getitem__ (dl_dataset tl) i = Ok (path, c) →
        __getitem__ (dl_dataset vl) j = Ok (path, c') →
        False
  | Raise e => e = ValueError
  end.
Proof.
  apply (X16_no_file_in_both_subsets "data/" two_classes_of_four 2 4
           example_rng).
  - vm_compute. exact I.
  - intros name Hin.
    change (name ∈ ["ash"; "oak"]) in Hin.
    apply elem_of_cons in Hin as [->|Hin]; [vm_compute; lia|].
    apply list_elem_of_singleton in Hin as ->. vm_compute. lia.
Defined.

(** ** The mode of the model and the size of the batches *)

Lemma mode_run_app {W} m (t1 t2 : list (event W)) :
  mode_run m (t1 ++ t2)
  = match mode_run m t1 with
    | Some m' => mode_run m' t2
    | None => None
    end.
Proof.
  revert m. induction t1 as [|e t1 IH]; intros m; [done|].
  cbn [app mode_run]. destruct (mode_step m e); [apply IH|done].
Qed.

Lemma batch_sizes_app {W} (t1 t2 : list (event W)) :
  batch_sizes (t1 ++ t2) = batch_sizes t1 ++ batch_sizes t2.
Proof. apply omap_app. Qed.

Lemma batch_sampler_bounds bs : ∀ l acc,
  0 < bs → length acc < bs →
  Forall (λ b, 1 ≤ length b ∧ length b ≤ bs) (batch_sampler bs acc l).
Proof.
  induction l as [|x l IH]; intros acc Hbs Hacc; cbn [batch_sampler].
  - case_bool_decide; [|constructor]. constructor; [lia|constructor].
  - rewrite length_app. cbn [length].
    destruct (length acc + 1 =? bs) eqn:E;
      [apply Nat.eqb_eq in E|apply Nat.eqb_neq in E].
    + constructor; [rewrite length_app; simpl; lia|].
      apply IH; simpl; lia.
    + apply IH; [done|]. rewrite length_app. simpl. lia.
Qed.

Lemma loader_iter_bounds dl g :
  0 < dl_batch_size dl →
  Forall (λ b, 1 ≤ length b ∧ length b ≤ dl_batch_size dl) (loader_iter dl g).1.
Proof.
  intros Hbs. unfold loader_iter.
  destruct (shuffle (dl_sampler dl) g) as [order g']. simpl.
  apply batch_sampler_bounds; simpl; lia.
Qed.

Section Mode.
Context {M W : Type} (ops : collaborators M W).

Lemma train_loop_mode ds epoch nb l : ∀ acc acc' evs,
  run_loop (train_batch ops ds epoch nb) acc l = Ok (acc', evs) →
  mode_run true evs = Some true ∧
  count_events is_backward evs = length l ∧
  count_events is_eval_batch evs = 0 ∧
  batch_sizes evs = length <$> l.*2.
Proof.
  induction l as [|b l IH]; intros acc acc' evs Hrun.
  { by injection Hrun as <- <-. }
  cbn [run_loop] in Hrun.
  destruct (train_batch ops ds epoch nb acc b) as [[acc1 e1]|] eqn:Hb;
    [|done]. cbn in Hrun.
  destruct (run_loop _ acc1 l) as [[acc2 e2]|] eqn:Hl; [|done].
  injection Hrun as <- <-.
  destruct (IH acc1 acc2 e2 Hl) as (Hm & Hc & He & Hs).
  pose proof (train_batch_cases ops ds epoch nb acc b) as Hcases.
  rewrite Hb in Hcases. destruct Hcases as (_ & Hseen & _).
  apply train_batch_events in Hb as (inputs & loss & lr & step & Hf & ->).
  pose proof (fetch_cases ds b.2) as Hfetch. rewrite Hf in Hfetch.
  destruct Hfetch as [Hlen _].
  rewrite mode_run_app, !count_events_app, batch_sizes_app, Hc, He, Hs.
  split_and!; [done|done|done|].
  cbn. by rewrite Hlen.
Qed.

Lemma val_loop_mode ds l : ∀ acc acc' evs,
  run_loop (val_batch ops ds) acc l = Ok (acc', evs) →
  mode_run false evs = Some false ∧
  count_events is_backward evs = 0 ∧
  count_events is_eval_batch evs = length l ∧
  batch_sizes evs = length <$> l.
Proof.
  induction l as [|b l IH]; intros acc acc' evs Hrun.
  { by injection Hrun as <- <-. }
  cbn [run_loop] in Hrun.
  destruct (val_batch ops ds acc b) as [[acc1 e1]|] eqn:Hb; [|done].
  cbn in Hrun.
  destruct (run_loop _ acc1 l) as [[acc2 e2]|] eqn:Hl; [|done].
  injection Hrun as <- <-.
  destruct (IH acc1 acc2 e2 Hl) as (Hm & Hc & He & Hs).
  unfold val_batch in Hb. destruct acc as [[m vl] vc].
  pose proof (fetch_cases ds b) as Hfetch.
  destruct (fetch ds b) as [inputs|]; [|done]. cbn in Hb.
  destruct (forward ops false m inputs) as [[m' loss] c].
  injection Hb as <- <-. destruct Hfetch as [Hlen _].
  rewrite mode_run_app, !count_events_app, batch_sizes_app, Hc, He, Hs.
  split_and!; [done|done|done|].
  cbn. by rewrite Hlen.
Qed.

Lemma epoch_body_mode tl vl st epoch st' evs :
  epoch_body ops tl vl st epoch = Ok (st', evs) →
  (∀ m0, mode_run m0 evs = Some false) ∧
  count_events is_backward evs = batches_per_epoch tl ∧
  count_events is_eval_batch evs = batches_per_epoch vl ∧
  (0 < dl_batch_size tl → 0 < dl_batch_size vl →
   Forall (λ s, 1 ≤ s ∧ s ≤ Nat.max (dl_batch_size tl) (dl_batch_size vl))
          (batch_sizes evs)).
Proof.
  intros Hrun.
  destruct (epoch_body_runs ops tl vl st epoch st' evs Hrun)
    as (batches & g1 & vbatches & g2 & acc1 & tev & acc2 & vev &
        el & ea & v & va & Hit & Ht & Hvit & Hv & _ & _ & ->).
  apply train_loop_mode in Ht as (Htm & Htc & Hte & Hts).
  apply val_loop_mode in Hv as (Hvm & Hvc & Hve & Hvs).
  rewrite length_imap in Htc. rewrite imap_pair_snd0 in Hts.
  pose proof (loader_iter_batches tl (ts_rng st)) as Hnb.
  pose proof (loader_iter_batches vl g1) as Hvnb.
  pose proof (loader_iter_bounds tl (ts_rng st)) as Hbt.
  pose proof (loader_iter_bounds vl g1) as Hbv.
  rewrite Hit in Hnb, Hbt. rewrite Hvit in Hvnb, Hbv.
  simpl in Hnb, Hvnb, Hbt, Hbv.
  set (save := if (v <? best_loss st)%float
               then [TorchSave (BestModel epoch v) (state_dict ops acc2.1.1)]
               else []).
  assert (save = [] ∨ ∃ w, save = [TorchSave (BestModel epoch v) w]) as Hsave.
  { unfold save. destruct (_ <? _)%float; [right; by eexists|by left]. }
  clearbody save.
  split_and!.
  - intros m0. rewrite mode_run_app.
    assert (mode_run m0
              ([ModelTrain] ++ tev ++
               [AddScalar "Epoch Training Loss" el epoch;
                AddScalar "Epoch Training Accuracy" ea epoch; ModelEval] ++
               vev ++
               [AddScalar "Validation Loss" v epoch;
                AddScalar "Validation Accuracy" va epoch]) = Some false) as ->.
    { cbn [app mode_run mode_step]. rewrite mode_run_app, Htm.
      cbn [app mode_run mode_step is_update andb].
      rewrite mode_run_app, Hvm. done. }
    by destruct Hsave as [->|[w ->]].
  - rewrite !count_events_app, Htc, Hvc, Hnb.
    destruct Hsave as [->|[w ->]]; rewrite !count_events_cons;
      unfold count_events; simpl; lia.
  - rewrite !count_events_app, Hte, Hve, Hvnb.
    destruct Hsave as [->|[w ->]]; rewrite !count_events_cons;
      unfold count_events; simpl; lia.
  - intros Hbs Hvbs. rewrite !batch_sizes_app, Hts, Hvs.
    assert (batch_sizes save = []) as -> by (by destruct Hsave as [->|[w ->]]).
    cbn. rewrite !app_nil_r. apply Forall_app. split; apply Forall_fmap.
    + eapply Forall_impl; [exact (Hbt Hbs)|]. simpl. lia.
    + eapply Forall_impl; [exact (Hbv Hvbs)|]. simpl. lia.
Qed.

Lemma epochs_loop_mode tl vl n : ∀ a st st' evs,
  run_loop (epoch_body ops tl vl) st (seq a n) = Ok (st', evs) →
  (∀ m0, mode_run m0 evs = Some (match n with 0 => m0 | S _ => false end)) ∧
  count_events is_backward evs = n * batches_per_epoch tl ∧
  count_events is_eval_batch evs = n * batches_per_epoch vl ∧
  (0 < dl_batch_size tl → 0 < dl_batch_size vl →
   Forall (λ s, 1 ≤ s ∧ s ≤ Nat.max (dl_batch_size tl) (dl_batch_size vl))
          (batch_sizes evs)).
Proof.
  induction n as [|n IH]; intros a st st' evs Hrun.
  { injection Hrun as <- <-. by split_and!. }
  cbn [seq run_loop] in Hrun.
  destruct (epoch_body ops tl vl st a) as [[st1 e1]|] eqn:Hepoch; [|done].
  cbn in Hrun.
  destruct (run_loop (epoch_body ops tl vl) st1 (seq (S a) n))
    as [[st2 e2]|] eqn:Hrest; [|done].
  cbn in Hrun. injection Hrun as <- <-.
  destruct (epoch_body_mode tl vl st a st1 e1 Hepoch) as (Hm1 & Hc1 & He1 & Hs1).
  destruct (IH (S a) st1 st2 e2 Hrest) as (Hm2 & Hc2 & He2 & Hs2).
  split_and!.
  - intros m0. rewrite mode_run_app, Hm1, Hm2. by destruct n.
  - rewrite count_events_app, Hc1, Hc2. lia.
  - rewrite count_events_app, He1, He2. lia.
  - intros Hbs Hvbs. rewrite batch_sizes_app. apply Forall_app. auto.
Qed.

Lemma train_model_mode m tl vl n g m' events :
  train_model ops m tl vl n g = Ok (m', events) →
  (∀ m0, mode_run m0 events
         = Some (match n with 0 => m0 | S _ => false end)) ∧
  count_events is_backward events = n * batches_per_epoch tl ∧
  count_events is_eval_batch events = n * batches_per_epoch vl ∧
  (0 < dl_batch_size tl → 0 < dl_batch_size vl →
   Forall (λ s, 1 ≤ s ∧ s ≤ Nat.max (dl_batch_size tl) (dl_batch_size vl))
          (batch_sizes events)).
Proof.
  intros (st & evs & Hrun & _ & ->)%train_model_inv.
  destruct (epochs_loop_mode tl vl n 0 _ st evs Hrun) as (Hm & Hc & He & Hs).
  split_and!.
  - intros m0. rewrite mode_run_app, Hm. cbn. by destruct n.
  - rewrite count_events_app, Hc, count_events_cons.
    unfold count_events. simpl. lia.
  - rewrite count_events_app, He, count_events_cons.
    unfold count_events. simpl. lia.
  - intros Hbs Hvbs. rewrite batch_sizes_app. cbn. rewrite app_nil_r. auto.
Qed.

End Mode.

(** X17: validation never trains. In every completed run the model is put
    in training mode before the training batches of an epoch and in
    evaluation mode before its validation batches; gradients are computed
    and parameters, optimizer and schedule are changed only in training
    mode, and the validation batches are run without gradients only in
    evaluation mode. There is one backward pass per training batch, and
    after at least one epoch the model is left in evaluation mode. *)
Theorem X17_validation_never_trains {M W} (ops : collaborators M W)
    m dir listing bs k epochs g1 g2 :
  (∀ tl vl g,
     match train_model ops m tl vl epochs g with
     | Ok (_, events) =>
         (∀ mode0, mode_run mode0 events
                   = Some (match epochs with 0 => mode0 | S _ => false end)) ∧
         count_events is_backward events = epochs * batches_per_epoch tl ∧
         count_events is_training_batch events
         = epochs * batches_per_epoch tl ∧
         count_events is_eval_batch events = epochs * batches_per_epoch vl
     | Raise _ => ¬ (loader_in_range tl ∧ loader_in_range vl)
     end) ∧
  match main ops m dir listing bs k epochs g1 g2 with
  | Ok events => ∀ mode0, mode_run mode0 events = Some false
  | Raise _ =>
      ∀ tl vl g',
        get_data_loaders dir listing bs k g1 = Ok (tl, vl, g') →
        epochs = 0 ∨ dl_sampler tl = []
  end.
Proof.
  split.
  - intros tl vl g.
    destruct (train_model ops m tl vl epochs g) as [[m' events]|e] eqn:Hrun.
    2:{ by eapply train_model_raise_reason. }
    destruct (train_model_mode ops m tl vl epochs g m' events Hrun)
      as (Hm & Hc & He & _).
    split_and!; [done|done| |done].
    apply train_model_inv in Hrun as (st & evs & Hloop & _ & ->).
    apply epochs_loop_ok in Hloop as (_ & Hbatches & _).
    rewrite count_events_app, Hbatches, count_events_cons.
    unfold count_events. simpl. lia.
  - destruct (main ops m dir listing bs k epochs g1 g2) as [events|e] eqn:Hrun.
    2:{ by eapply main_raise_reason. }
    apply main_inv in Hrun
      as (tl & vl & g' & m' & tev & _ & He & _ & _ & Htm & ->).
    destruct (train_model_mode ops m tl vl epochs g2 m' tev Htm) as (Hm & _).
    intros mode0. cbn [app mode_run mode_step is_update andb].
    rewrite mode_run_app, Hm. destruct epochs; [lia|done].
Qed.

(** X18: every batch that reaches the model holds at least one sample and
    at most [batch_size] samples, in training and in validation, so the
    per-batch accuracy never divides by zero. *)
Theorem X18_batches_are_never_empty {M W} (ops : collaborators M W)
    m dir listing bs k epochs g1 g2 :
  (∀ tl vl g,
     0 < dl_batch_size tl → 0 < dl_batch_size vl →
     match train_model ops m tl vl epochs g with
     | Ok (_, events) =>
         Forall (λ s, 1 ≤ s ∧
                      s ≤ Nat.max (dl_batch_size tl) (dl_batch_size vl))
                (batch_sizes events)
     | Raise _ => ¬ (loader_in_range tl ∧ loader_in_range vl)
     end) ∧
  match main ops m dir listing bs k epochs g1 g2 with
  | Ok events => Forall (λ s, 1 ≤ s ∧ s ≤ bs) (batch_sizes events)
  | Raise _ =>
      ∀ tl vl g',
        get_data_loaders dir listing bs k g1 = Ok (tl, vl, g') →
        epochs = 0 ∨ dl_sampler tl = []
  end.
Proof.
  split.
  - intros tl vl g Hbs Hvbs.
    destruct (train_model ops m tl vl epochs g) as [[m' events]|e] eqn:Hrun.
    2:{ by eapply train_model_raise_reason. }
    destruct (train_model_mode ops m tl vl epochs g m' events Hrun)
      as (_ & _ & _ & Hsizes).
    by apply Hsizes.
  - destruct (main ops m dir listing bs k epochs g1 g2) as [events|e] eqn:Hrun.
    2:{ by eapply main_raise_reason. }
    apply main_inv in Hrun
      as (tl & vl & g' & m' & tev & Hdl & _ & _ & Hbs & Htm & ->).
    destruct (train_model_mode ops m tl vl epochs g2 m' tev Htm)
      as (_ & _ & _ & Hsizes).
    apply get_data_loaders_inv in Hdl as (es & ds & _ & _ & Hlo).
    apply loaders_of_inv in Hlo as (pool & g & sh & _ & _ & Htl & Hvl & Hpos).
    assert (dl_batch_size tl = bs) as Hbt by (by rewrite Htl).
    assert (dl_batch_size vl = bs) as Hbv by (by rewrite Hvl).
    rewrite Hbt, Hbv, Nat.max_id in Hsizes.
    rewrite !batch_sizes_app. cbn. rewrite app_nil_r. by apply Hsizes.
Qed.

(** ** Repeated indices *)

Lemma NoDup_concat_elem {A} (ls : list (list A)) l :
  NoDup (concat ls) → l ∈ ls → NoDup l.
Proof.
  induction ls as [|l' ls IH]; intros Hnd Hin; [by apply elem_of_nil in Hin|].
  cbn [concat] in Hnd. apply NoDup_app in Hnd as (Hl' & _ & Hrest).
  apply elem_of_cons in Hin as [->|Hin]; [done|by apply IH].
Qed.

(** X19: the sampled index lists hold a repeated index exactly when some
    class has fewer than [num_img_per_class] image files: with enough files
    in every class all sampled indices are distinct, and a class that is
    short of files is necessarily over-sampled. *)
Theorem X19_repeats_exactly_when_a_class_is_short dir es bs k g :
  NoDup (entry_name <$> es) →
  match get_data_loaders dir (Some es) bs k g with
  | Ok (tl, vl, _) =>
      NoDup (dl_sampler tl ++ dl_sampler vl) ↔
      ∀ name, name ∈ scandir_dirs es →
              k ≤ length (filter (λ rf, qualifying rf)
                                 (class_files dir es name))
  | Raise e => e = ValueError
  end.
Proof.
  intros Hnames.
  destruct (catalog_build dir es Hnames) as (ds & Hds & _).
  rewrite (get_data_loaders_of dir es ds bs k g Hds).
  pose proof (catalog_classes_length dir es ds Hds) as Hcls.
  destruct (loaders_of ds bs k g) as [[[tl vl] g']|e] eqn:Hrun.
  2:{ eapply loaders_of_raise_ValueError; [|exact Hrun].
      by apply (catalog_labels_in_range dir es). }
  destruct (loaders_of_samplers ds bs k g tl vl g' Hrun)
    as (parts & Hperm & Hparts & _).
  rewrite Hperm. split.
  - intros Hnd name Hname. rewrite <- Hcls in Hname.
    apply list_elem_of_lookup in Hname as [c Hc].
    rewrite <- (catalog_class_count dir es ds c name Hnames Hds Hc).
    assert (seq 0 (length (classes ds)) !! c = Some c) as Hseq.
    { apply lookup_seq. split; [done|]. by eapply lookup_lt_Some. }
    destruct (Forall2_lookup_l _ _ _ c c Hparts Hseq)
      as (part & Hpart & Hlen & Hlab & _).
    apply list_elem_of_lookup_2 in Hpart.
    pose proof (NoDup_concat_elem parts part Hnd Hpart) as Hndp.
    rewrite <- Hlen. unfold class_count.
    apply submseteq_length, NoDup_submseteq; [done|].
    intros i Hi. apply elem_of_np_where_eq.
    rewrite Forall_forall in Hlab. by apply Hlab.
  - intros Hquota.
    apply (parts_NoDup ds k (seq 0 (length (classes ds)))); [done| |].
    + apply NoDup_seq.
    + intros c [_ Hc]%elem_of_seq. simpl in Hc.
      apply lookup_lt_is_Some in Hc as [name Hname].
      rewrite (catalog_class_count dir es ds c name Hnames Hds Hname).
      apply Hquota. rewrite <- Hcls. by eapply list_elem_of_lookup_2.
Qed.

Lemma X19_repeats_exactly_when_a_class_is_short_witness :
  match get_data_loaders "data/" (Some example_tree) 2 3 example_rng with
  | Ok (tl, vl, _) =>
      NoDup (dl_sampler tl ++ dl_sampler vl) ↔
      ∀ name, name ∈ scandir_dirs example_tree →
              3 ≤ length (filter (λ rf, qualifying rf)
                                 (class_files "data/" example_tree name))
  | Raise e => e = ValueError
  end.
Proof.
  apply (X19_repeats_exactly_when_a_class_is_short "data/" example_tree 2 3
           example_rng).
  apply (bool_decide_unpack _). vm_compute. exact I.
Defined.
